(** * Player comparison service: trend slope, insight sentences, request handler

    A shallow embedding of the compare-players edge function
    ([linearRegression], [generateInsights] and the [serve] callback) and the
    properties of its specification.

    The function computes with JavaScript numbers, that is IEEE 754 binary64
    values.  They are embedded as [spec_float] with precision 53 and maximal
    exponent 1024, the executable specification of binary64 that the Standard
    Library ships; every arithmetic operation below is the correctly rounded
    one, with the signed zeros, the infinities and NaN. *)

From Stdlib Require Import ZArith List String Ascii Bool Lia.
From Stdlib Require Import QArith Qround Qabs Qpower Qfield.
From Stdlib Require Import DecimalString.
From Stdlib Require Import Floats.SpecFloat.
Import ListNotations.

Local Open Scope Z_scope.

(** ** JavaScript numbers *)

Module Num.

Definition num : Type := spec_float.

Definition prec : Z := 53.
Definition emax : Z := 1024.

Definition add (a b : num) : num := SFadd prec emax a b.
Definition sub (a b : num) : num := SFsub prec emax a b.
Definition mul (a b : num) : num := SFmul prec emax a b.
Definition div (a b : num) : num := SFdiv prec emax a b.
Definition neg (a : num) : num := SFopp a.

(** The relational operators: [a < b], [a > b] and [a === b] on numbers.
    Each one is false as soon as an operand is NaN. *)
Definition lt (a b : num) : bool := SFltb a b.
Definition gt (a b : num) : bool := SFltb b a.
Definition eq (a b : num) : bool := SFeqb a b.

(** The number an integer denotes: the nearest binary64 value, exact up to
    2^53.  This is the value of an integer literal, of an array length and
    of an INTEGER column read from the store. *)
Definition ofZ (z : Z) : num := binary_normalize prec emax z 0 false.

(** The value of the decimal literal [s * 10^j], correctly rounded. *)
Definition ofDecimal (s j : Z) : num :=
  match j with
  | Zneg p =>
      match s with
      | Z0 => S754_zero false
      | _ =>
          let '(q, e, l) :=
            SFdiv_core_binary prec emax (Z.abs s) 0 (Z.pow_pos 10 p) 0 in
          binary_round_aux prec emax (s <? 0) q e l
      end
  | _ => ofZ (s * 10 ^ j)
  end.

(** An array length or index as a number. *)
Definition ofNat (n : nat) : num := ofZ (Z.of_nat n).

Definition zero : num := S754_zero false.
Definition NaN : num := S754_nan.

Definition isFinite (a : num) : bool :=
  match a with
  | S754_zero _ | S754_finite _ _ _ => true
  | _ => false
  end.

(** The real value of a finite number, as a rational. *)
Definition toQ (a : num) : Q :=
  match a with
  | S754_finite s m e =>
      let v := (inject_Z (Zpos m) * Qpower 2 e)%Q in
      if s then Qopp v else v
  | _ => 0%Q
  end.

End Num.

Declare Scope num_scope.
Delimit Scope num_scope with num.
Bind Scope num_scope with Num.num.

(** Decimal literals such as [1.2], [0.5], [100] or [1e308] denote the
    nearest binary64 value, as in the source text. *)
Definition ofLiteral (n : Number.number) : option spec_float :=
  match n with
  | Number.Decimal (Decimal.Decimal i f) =>
      Some (Num.ofDecimal (Z.of_int (Decimal.app_int i f))
                          (- Z.of_nat (Decimal.nb_digits f)))
  | Number.Decimal (Decimal.DecimalExp i f e) =>
      Some (Num.ofDecimal (Z.of_int (Decimal.app_int i f))
                          (Z.of_int e - Z.of_nat (Decimal.nb_digits f)))
  | _ => None
  end.

Definition toLiteral (x : spec_float) : option Number.number := None.

Number Notation spec_float ofLiteral toLiteral : num_scope.

Notation "a + b" := (Num.add a b) : num_scope.
Notation "a - b" := (Num.sub a b) : num_scope.
Notation "a * b" := (Num.mul a b) : num_scope.
Notation "a / b" := (Num.div a b) : num_scope.
Notation "- a" := (Num.neg a) : num_scope.
Notation "a <? b" := (Num.lt a b) : num_scope.
Notation "a >? b" := (Num.gt a b) : num_scope.
Notation "a =? b" := (Num.eq a b) : num_scope.

(** ** Number to string conversions

    [toString] is Number::toString of ECMAScript, which template literals
    apply to a number: the shortest decimal that reads back as the same
    double, laid out in positional or exponent notation.  [toFixed1] is
    Number.prototype.toFixed with one fraction digit: the exact value of the
    double rounded to tenths, halves upwards in magnitude. *)

Module Fmt.
Import Num.
Local Open Scope Z_scope.

Definition digits (n : Z) : string :=
  NilZero.string_of_uint (N.to_uint (Z.to_N n)).

Definition zeros (n : Z) : string :=
  string_of_list_ascii (repeat "0"%char (Z.to_nat n)).

Definition slen (s : string) : Z := Z.of_nat (String.length s).

(** [decimalPoint v] is the [n] with [10^(n-1) <= v < 10^n], for [v > 0]. *)
Fixpoint scaleUp (fuel : nat) (v : Q) (t : Z) : Z :=
  match fuel with
  | O => t
  | S fuel' =>
      if Qle_bool 1 (v * Qpower 10 t)%Q then t else scaleUp fuel' v (t + 1)
  end.

Definition decimalPoint (v : Q) : Z :=
  if Qle_bool 1%Q v then slen (digits (Qfloor v))
  else 1 - scaleUp 400 v 1.

(** The candidates with [k] digits: the integers [s] with
    [10^(k-1) <= s < 10^k] next to [v / 10^(n-k)] for which the decimal
    [s * 10^(n-k)] reads back as [x], each with its distance to [v]. *)
Definition candidates (x : num) (v : Q) (n0 k : Z) : list (Q * (Z * Z)) :=
  flat_map
    (fun n =>
       let lo := Qfloor (v * Qpower 10 (k - n))%Q in
       flat_map
         (fun s =>
            if (10 ^ (k - 1) <=? s) && (s <? 10 ^ k)
               && match SFcompare (ofDecimal s (n - k)) x with
                  | Some Eq => true
                  | _ => false
                  end
            then [(Qabs (inject_Z s * Qpower 10 (n - k) - v)%Q, (n, s))]
            else [])
         [lo; lo + 1])
    [n0; n0 + 1].

(** The candidate nearest to [v]; of two that are equally near, the one
    whose digits form an even integer. *)
Fixpoint closest (best : Q * (Z * Z)) (l : list (Q * (Z * Z))) : Z * Z :=
  match l with
  | [] => snd best
  | c :: l' =>
      closest
        match (fst best ?= fst c)%Q with
        | Lt => best
        | Gt => c
        | Eq => if Z.even (snd (snd best)) then best else c
        end
        l'
  end.

(** The shortest decimal that reads back as [x]: the [(n, k, s)] of
    Number::toString, found by trying [k = 1, 2, ...]; 17 digits always
    suffice for a double. *)
Fixpoint shortest (fuel : nat) (x : num) (v : Q) (n0 k : Z) : Z * Z * Z :=
  match fuel with
  | O => (n0, k, 0)
  | S fuel' =>
      match candidates x v n0 k with
      | [] => shortest fuel' x v n0 (k + 1)
      | c :: l => let '(n, s) := closest c l in (n, k, s)
      end
  end.

Definition layout (n k s : Z) : string :=
  let d := digits s in
  if (k <=? n) && (n <=? 21) then (d ++ zeros (n - k))%string
  else if (0 <? n) && (n <=? 21) then
    (substring 0 (Z.to_nat n) d ++ "."
     ++ substring (Z.to_nat n) (Z.to_nat (k - n)) d)%string
  else if (-6 <? n) && (n <=? 0) then ("0." ++ zeros (- n) ++ d)%string
  else
    let e := n - 1 in
    let c := if e <? 0 then "-"%string else "+"%string in
    if k =? 1 then (d ++ "e" ++ c ++ digits (Z.abs e))%string
    else (substring 0 1 d ++ "." ++ substring 1 (Z.to_nat (k - 1)) d
          ++ "e" ++ c ++ digits (Z.abs e))%string.

(** Number::toString, radix 10. *)
Definition toString (x : num) : string :=
  match x with
  | S754_nan => "NaN"%string
  | S754_zero _ => "0"%string
  | S754_infinity s => if s then "-Infinity"%string else "Infinity"%string
  | S754_finite s m e =>
      let a := S754_finite false m e in
      let v := toQ a in
      let '(n, k, d) := shortest 17 a v (decimalPoint v) 1 in
      ((if s then "-" else "") ++ layout n k d)%string
  end.

(** Number.prototype.toFixed(1). *)
Definition toFixed1 (x : num) : string :=
  match x with
  | S754_finite s m e =>
      let a := S754_finite false m e in
      let v := toQ a in
      ((if s then "-" else "") ++
       (if Qle_bool (inject_Z (10 ^ 21)) v then toString a
        else
          let n := Qfloor (v * 10 + (1 # 2))%Q in
          digits (n / 10) ++ "." ++ digits (n mod 10)))%string
  | S754_zero _ => "0.0"%string
  | _ => toString x
  end.

End Fmt.

(** ** Player records

    [PlayerStats] is the object the function receives: every counter is a
    JavaScript number.  [Store.Row] is a row of the [players] table, whose
    counters are INTEGER columns; [ofRow] is the object the client library
    builds from a row. *)

Record PlayerStats := {
  id : string;
  name : string;
  sport : string;
  matches : Num.num;
  score : Num.num;
  assists : Num.num;
  rebounds : Num.num;
  wins : Num.num
}.

Module Store.

Record Row := {
  id : string;
  name : string;
  sport : string;
  matches : Z;
  score : Z;
  assists : Z;
  rebounds : Z;
  wins : Z
}.

(** The range of an INTEGER column. *)
Definition int4 (z : Z) : Prop := - 2 ^ 31 <= z < 2 ^ 31.

Definition valid (r : Row) : Prop :=
  int4 (matches r) /\ int4 (score r) /\ int4 (assists r)
  /\ int4 (rebounds r) /\ int4 (wins r).

End Store.

Definition ofRow (r : Store.Row) : PlayerStats :=
  {| id := Store.id r;
     name := Store.name r;
     sport := Store.sport r;
     matches := Num.ofZ (Store.matches r);
     score := Num.ofZ (Store.score r);
     assists := Num.ofZ (Store.assists r);
     rebounds := Num.ofZ (Store.rebounds r);
     wins := Num.ofZ (Store.wins r) |}.

(** ** The trend calculator *)

Section Arrays.
Context {A B : Type}.

(** [Array.prototype.reduce] with an initial value; the callback receives
    the accumulator, the element and its index. *)
Fixpoint reduceFrom (f : B -> A -> nat -> B) (i : nat) (acc : B)
    (l : list A) : B :=
  match l with
  | [] => acc
  | a :: l' => reduceFrom f (S i) (f acc a i) l'
  end.

Definition reduce (f : B -> A -> nat -> B) (init : B) (l : list A) : B :=
  reduceFrom f 0 init l.
End Arrays.

(** [values[i]]; reading past the end gives [undefined], which arithmetic
    turns into NaN. *)
Definition at_ (values : list Num.num) (i : nat) : Num.num :=
  nth i values Num.NaN.

(** [n] is the length of the array; it is tested against 0 as a length and
    enters the arithmetic as a number. *)
Definition linearRegression (values : list Num.num) : Num.num :=
  let n := List.length values in
  if Nat.eqb n 0 then 0%num
  else
    let x := map Num.ofNat (seq 0 n) in
    let sumX := reduce (fun a b _ => a + b)%num 0%num x in
    let sumY := reduce (fun a b _ => a + b)%num 0%num values in
    let sumXY := reduce (fun a b i => a + b * at_ values i)%num 0%num x in
    let sumX2 := reduce (fun a b _ => a + b * b)%num 0%num x in
    let slope :=
      ((Num.ofNat n * sumXY - sumX * sumY)
       / (Num.ofNat n * sumX2 - sumX * sumX))%num in
    slope.

(** ** The insight generator

    The source pushes sentences onto one array; [push] is that effect on the
    array threaded through the steps. *)

Definition push (insights : list string) (s : string) : list string :=
  insights ++ [s].

Definition generateInsights (player1 player2 : PlayerStats) : list string :=
  let insights : list string := [] in

  (* Compare overall stats *)
  let p1Total := (score player1 + assists player1 + rebounds player1)%num in
  let p2Total := (score player2 + assists player2 + rebounds player2)%num in

  let insights :=
    if (p1Total >? p2Total * 1.2)%num then
      push insights
        (name player1
         ++ " demonstrates significantly higher overall performance with "
         ++ Fmt.toString p1Total ++ " total stats vs "
         ++ Fmt.toString p2Total ++ ".")%string
    else if (p2Total >? p1Total * 1.2)%num then
      push insights
        (name player2
         ++ " demonstrates significantly higher overall performance with "
         ++ Fmt.toString p2Total ++ " total stats vs "
         ++ Fmt.toString p1Total ++ ".")%string
    else
      push insights
        "Both players show comparable overall performance levels."%string in

  (* Analyze consistency (based on matches vs performance) *)
  let p1Consistency :=
    if (matches player1 >? 0)%num then (p1Total / matches player1)%num
    else 0%num in
  let p2Consistency :=
    if (matches player2 >? 0)%num then (p2Total / matches player2)%num
    else 0%num in

  let insights :=
    if (p1Consistency >? p2Consistency * 1.15)%num then
      push insights
        (name player1 ++ " shows better consistency with "
         ++ Fmt.toFixed1 p1Consistency ++ " stats per match vs "
         ++ Fmt.toFixed1 p2Consistency ++ ".")%string
    else if (p2Consistency >? p1Consistency * 1.15)%num then
      push insights
        (name player2 ++ " shows better consistency with "
         ++ Fmt.toFixed1 p2Consistency ++ " stats per match vs "
         ++ Fmt.toFixed1 p1Consistency ++ ".")%string
    else insights in

  (* Win rate comparison *)
  let p1WinRate :=
    if (matches player1 >? 0)%num then (wins player1 / matches player1 * 100)%num
    else 0%num in
  let p2WinRate :=
    if (matches player2 >? 0)%num then (wins player2 / matches player2 * 100)%num
    else 0%num in

  let insights :=
    if (p1WinRate >? p2WinRate)%num then
      push insights
        (name player1 ++ " has a superior win rate of "
         ++ Fmt.toFixed1 p1WinRate ++ "% compared to "
         ++ Fmt.toFixed1 p2WinRate ++ "%.")%string
    else if (p2WinRate >? p1WinRate)%num then
      push insights
        (name player2 ++ " has a superior win rate of "
         ++ Fmt.toFixed1 p2WinRate ++ "% compared to "
         ++ Fmt.toFixed1 p1WinRate ++ "%.")%string
    else insights in

  (* Performance trend analysis *)
  let p1Stats := [score player1; assists player1; rebounds player1] in
  let p2Stats := [score player2; assists player2; rebounds player2] in

  let p1Trend := linearRegression p1Stats in
  let p2Trend := linearRegression p2Stats in

  let insights :=
    if (p1Trend >? 0.5)%num then
      push insights
        (name player1
         ++ " shows an improving performance trend across different metrics.")%string
    else if (p1Trend <? -0.5)%num then
      push insights
        (name player1
         ++ " shows a declining trend in certain performance areas.")%string
    else insights in

  let insights :=
    if (p2Trend >? 0.5)%num then
      push insights
        (name player2
         ++ " shows an improving performance trend across different metrics.")%string
    else if (p2Trend <? -0.5)%num then
      push insights
        (name player2
         ++ " shows a declining trend in certain performance areas.")%string
    else insights in

  (* Specialization insights *)
  let insights :=
    if (score player1 >? assists player1)%num
       && (score player1 >? rebounds player1)%num then
      push insights
        (name player1 ++ " is primarily a scorer with "
         ++ Fmt.toString (score player1) ++ " points.")%string
    else if (assists player1 >? score player1)%num
            && (assists player1 >? rebounds player1)%num then
      push insights
        (name player1 ++ " excels in playmaking with "
         ++ Fmt.toString (assists player1) ++ " assists.")%string
    else insights in

  let insights :=
    if (score player2 >? assists player2)%num
       && (score player2 >? rebounds player2)%num then
      push insights
        (name player2 ++ " is primarily a scorer with "
         ++ Fmt.toString (score player2) ++ " points.")%string
    else if (assists player2 >? score player2)%num
            && (assists player2 >? rebounds player2)%num then
      push insights
        (name player2 ++ " excels in playmaking with "
         ++ Fmt.toString (assists player2) ++ " assists.")%string
    else insights in

  insights.

(** ** The request handler

    Exceptions are values of an error monad; [serve] is the callback given to
    the HTTP server, with the store query it awaits as a parameter. *)

Inductive thrown :=
  | ErrorObject (message : string)   (* an instance of Error *)
  | OtherValue.                      (* any other thrown value *)

Inductive result (A : Type) :=
  | Return (a : A)
  | Throw (e : thrown).
Arguments Return {A} a.
Arguments Throw {A} e.

Definition bind {A B : Type} (m : result A) (k : A -> result B) : result B :=
  match m with
  | Return a => k a
  | Throw e => Throw e
  end.

Notation "x <- m ;; k" := (bind m (fun x => k))
  (at level 61, m at next level, right associativity).
Notation "' p <- m ;; k" := (bind m (fun x => let 'p := x in k))
  (at level 61, p pattern, m at next level, right associativity).

(** What [await req.json()] and the destructuring give: the two fields of the
    body ([None] for a field that is absent or null), or an exception when
    the body cannot be read. *)
Inductive RequestBody :=
  | Unreadable (e : thrown)
  | Fields (player1Id player2Id : option string).

Record Request := {
  method : string;
  json : RequestBody
}.

(** The answer of the store to [.from('players').select('*').in('id', ids)]. *)
Record QueryResult := {
  data : option (list PlayerStats);
  error : option thrown
}.

Record PublicStats := {
  pub_name : string;
  pub_matches : Num.num;
  pub_score : Num.num;
  pub_assists : Num.num;
  pub_rebounds : Num.num;
  pub_wins : Num.num
}.

Record Trend := {
  slope : Num.num;
  direction : string
}.

(** The value handed to [JSON.stringify], or no body at all. *)
Inductive ResponseBody :=
  | NoBody
  | ErrorEnvelope (error : string)
  | Comparison (comparison : PublicStats * PublicStats)
               (trends : Trend * Trend)
               (insights : list string).

Record Response := {
  status : Z;
  headers : list (string * string);
  body : ResponseBody
}.

Definition corsHeaders : list (string * string) :=
  [("Access-Control-Allow-Origin", "*");
   ("Access-Control-Allow-Headers",
    "authorization, x-client-info, apikey, content-type")]%string.

Definition jsonHeaders : list (string * string) :=
  corsHeaders ++ [("Content-Type", "application/json")]%string.

(** An identifier that passes the [!id] test: present and not empty.  An
    absent, null or empty identifier is falsy. *)
Definition truthy (id : option string) : option string :=
  match id with
  | Some s => if String.eqb s "" then None else Some s
  | None => None
  end.

(** [players.find(p => p.id === wanted)], then the first property read of the
    result, which throws a TypeError on [undefined]. *)
Definition findPlayer (players : list PlayerStats) (wanted : string)
    : result PlayerStats :=
  match find (fun p => String.eqb (id p) wanted) players with
  | Some p => Return p
  | None =>
      Throw (ErrorObject
               "Cannot read properties of undefined (reading 'name')")
  end.

Definition publicStats (p : PlayerStats) : PublicStats :=
  {| pub_name := name p;
     pub_matches := matches p;
     pub_score := score p;
     pub_assists := assists p;
     pub_rebounds := rebounds p;
     pub_wins := wins p |}.

Definition trendOf (t : Num.num) : Trend :=
  {| slope := t;
     direction :=
       if (t >? 0)%num then "Improving performance"%string
       else if (t <? 0)%num then "Declining performance"%string
       else "Stable performance"%string |}.

(** The body of the [try] block. *)
Definition comparePlayers (req : Request) (query : list string -> QueryResult)
    : result Response :=
  '(player1Id, player2Id) <-
    match json req with
    | Unreadable e => Throw e
    | Fields a b => Return (a, b)
    end ;;
  match truthy player1Id, truthy player2Id with
  | Some id1, Some id2 =>
      (* Fetch both players *)
      let answer := query [id1; id2] in
      match error answer with
      | Some e => Throw e
      | None =>
          match data answer with
          | Some players =>
              if negb (Nat.eqb (List.length players) 2) then
                Throw (ErrorObject "Could not find both players")
              else
                let found1 := findPlayer players id1 in
                let found2 := findPlayer players id2 in
                player1 <- found1 ;;
                player2 <- found2 ;;
                (* Generate comparison data *)
                let comparison := (publicStats player1, publicStats player2) in
                (* Calculate trends *)
                let p1Trend :=
                  linearRegression
                    [score player1; assists player1; rebounds player1] in
                let p2Trend :=
                  linearRegression
                    [score player2; assists player2; rebounds player2] in
                (* Generate AI insights *)
                let insights := generateInsights player1 player2 in
                Return {| status := 200;
                          headers := jsonHeaders;
                          body := Comparison comparison
                                    (trendOf p1Trend, trendOf p2Trend)
                                    insights |}
          | None => Throw (ErrorObject "Could not find both players")
          end
      end
  | _, _ => Throw (ErrorObject "Both player IDs are required")
  end.

Definition serve (req : Request) (query : list string -> QueryResult)
    : Response :=
  if String.eqb (method req) "OPTIONS" then
    {| status := 200; headers := corsHeaders; body := NoBody |}
  else
    match comparePlayers req query with
    | Return response => response
    | Throw e =>
        {| status := 500;
           headers := jsonHeaders;
           body := ErrorEnvelope
                     match e with
                     | ErrorObject message => message
                     | OtherValue => "Unknown error"%string
                     end |}
    end.

(** The [players] table answers an [in] filter on its primary key with the
    rows whose [id] is one of the given ones. *)
Definition selectIn (table : list Store.Row) (ids : list string)
    : QueryResult :=
  {| data :=
       Some (map ofRow
               (filter (fun r => existsb (String.eqb (Store.id r)) ids) table));
     error := None |}.

(** The primary key: no two rows share an [id]. *)
Definition primaryKey (table : list Store.Row) : Prop :=
  NoDup (map Store.id table).

(** The answer to an OPTIONS pre-flight. *)
Definition preflight : Response :=
  {| status := 200; headers := corsHeaders; body := NoBody |}.

(** A request the service cannot answer: an identifier is missing or empty,
    the store signals an error, or the store does not return exactly two
    records. *)
Inductive Rejected (query : list string -> QueryResult) : RequestBody -> Prop :=
  | MissingFirst a b :
      truthy a = None -> Rejected query (Fields a b)
  | MissingSecond a b :
      truthy b = None -> Rejected query (Fields a b)
  | StoreError a b id1 id2 e :
      truthy a = Some id1 -> truthy b = Some id2 ->
      error (query [id1; id2]) = Some e ->
      Rejected query (Fields a b)
  | WrongCount a b id1 id2 :
      truthy a = Some id1 -> truthy b = Some id2 ->
      (forall players,
          data (query [id1; id2]) = Some players -> List.length players <> 2%nat) ->
      Rejected query (Fields a b).

(** The failure envelope: status 500 and a body that is [{error: string}]. *)
Definition failure (r : Response) : Prop :=
  exists message,
    r = {| status := 500; headers := jsonHeaders; body := ErrorEnvelope message |}.

(** ** The steps of the insight generator

    The sentences of [generateInsights], and what each of its five steps
    appends; [generateInsights_steps] below shows that the function is the
    concatenation of these. *)

Section Sentences.
Local Open Scope string_scope.

Definition leaderSentence (leader : string) (total other : Num.num) : string :=
  leader ++ " demonstrates significantly higher overall performance with "
  ++ Fmt.toString total ++ " total stats vs " ++ Fmt.toString other ++ ".".

Definition comparableSentence : string :=
  "Both players show comparable overall performance levels.".

Definition consistencySentence (better : string) (ratio other : Num.num)
    : string :=
  better ++ " shows better consistency with " ++ Fmt.toFixed1 ratio
  ++ " stats per match vs " ++ Fmt.toFixed1 other ++ ".".

Definition winRateSentence (higher : string) (rate other : Num.num) : string :=
  higher ++ " has a superior win rate of " ++ Fmt.toFixed1 rate
  ++ "% compared to " ++ Fmt.toFixed1 other ++ "%.".

Definition improvingSentence (who : string) : string :=
  who ++ " shows an improving performance trend across different metrics.".

Definition decliningSentence (who : string) : string :=
  who ++ " shows a declining trend in certain performance areas.".

Definition scorerSentence (p : PlayerStats) : string :=
  name p ++ " is primarily a scorer with " ++ Fmt.toString (score p)
  ++ " points.".

Definition playmakerSentence (p : PlayerStats) : string :=
  name p ++ " excels in playmaking with " ++ Fmt.toString (assists p)
  ++ " assists.".
End Sentences.

Definition total (p : PlayerStats) : Num.num :=
  (score p + assists p + rebounds p)%num.

Definition consistency (p : PlayerStats) : Num.num :=
  if (matches p >? 0)%num then (total p / matches p)%num else 0%num.

Definition winRate (p : PlayerStats) : Num.num :=
  if (matches p >? 0)%num then (wins p / matches p * 100)%num else 0%num.

Definition trend (p : PlayerStats) : Num.num :=
  linearRegression [score p; assists p; rebounds p].

Definition overallStep (p1 p2 : PlayerStats) : list string :=
  if (total p1 >? total p2 * 1.2)%num then
    [leaderSentence (name p1) (total p1) (total p2)]
  else if (total p2 >? total p1 * 1.2)%num then
    [leaderSentence (name p2) (total p2) (total p1)]
  else [comparableSentence].

Definition consistencyStep (p1 p2 : PlayerStats) : list string :=
  if (consistency p1 >? consistency p2 * 1.15)%num then
    [consistencySentence (name p1) (consistency p1) (consistency p2)]
  else if (consistency p2 >? consistency p1 * 1.15)%num then
    [consistencySentence (name p2) (consistency p2) (consistency p1)]
  else [].

Definition winRateStep (p1 p2 : PlayerStats) : list string :=
  if (winRate p1 >? winRate p2)%num then
    [winRateSentence (name p1) (winRate p1) (winRate p2)]
  else if (winRate p2 >? winRate p1)%num then
    [winRateSentence (name p2) (winRate p2) (winRate p1)]
  else [].

Definition trendStep (p : PlayerStats) : list string :=
  if (trend p >? 0.5)%num then [improvingSentence (name p)]
  else if (trend p <? -0.5)%num then [decliningSentence (name p)]
  else [].

Definition specializationStep (p : PlayerStats) : list string :=
  if (score p >? assists p)%num && (score p >? rebounds p)%num then
    [scorerSentence p]
  else if (assists p >? score p)%num && (assists p >? rebounds p)%num then
    [playmakerSentence p]
  else [].

(** The specialization rule on the counters of a row, in the words of the
    specification: a scorer when the score is strictly above both other
    counters, else a playmaker when the assists are, else nothing. *)
Definition specializationRule (r : Store.Row) : list string :=
  if (Store.assists r <? Store.score r) && (Store.rebounds r <? Store.score r)
  then [scorerSentence (ofRow r)]
  else if (Store.score r <? Store.assists r)
          && (Store.rebounds r <? Store.assists r)
  then [playmakerSentence (ofRow r)]
  else [].

(** The slope of [score, assists, rebounds] against the positions 0, 1, 2
    in exact arithmetic, and the trend rules in the words of the
    specification: the label of the trend summary is "Improving performance"
    when the slope is above 0, "Declining performance" when it is below 0
    and "Stable performance" when it is 0; the trend step says that the
    player is improving when the slope is above 0.5, declining when it is
    below -0.5, and nothing in between. *)
Definition exactSlope (r : Store.Row) : Q :=
  (inject_Z (Store.rebounds r) - inject_Z (Store.score r)) / 2.

Definition directionRule (r : Store.Row) : string :=
  match (exactSlope r ?= 0)%Q with
  | Gt => "Improving performance"
  | Lt => "Declining performance"
  | Eq => "Stable performance"
  end.

Definition trendRule (r : Store.Row) : list string :=
  match (exactSlope r ?= 1 # 2)%Q with
  | Gt => [improvingSentence (Store.name r)]
  | _ =>
      match (exactSlope r ?= - (1 # 2))%Q with
      | Lt => [decliningSentence (Store.name r)]
      | _ => []
      end
  end.

(** The win rate of a row in exact arithmetic: 100 * wins / matches when
    matches > 0, and 0 otherwise. *)
Definition exactRate (r : Store.Row) : Q :=
  if 0 <? Store.matches r
  then (100 * inject_Z (Store.wins r) / inject_Z (Store.matches r))%Q
  else 0%Q.

(** ** Exactly representable values

    [dyadic z e] is the binary64 representation of [z * 2^e], for an integer
    [z] below 2^53 in magnitude: a 53-bit mantissa and the matching
    exponent. *)

Definition dyadic (z e : Z) : Num.num :=
  match z with
  | Z0 => S754_zero false
  | _ =>
      S754_finite (z <? 0)
        (Z.to_pos (Z.abs z * 2 ^ (Num.prec - Zdigits2 z)))
        (Zdigits2 z - Num.prec + e)
  end.

Definition isNaN (a : Num.num) : bool :=
  match a with S754_nan => true | _ => false end.

Definition isFiniteNonzero (a : Num.num) : bool :=
  match a with S754_finite _ _ _ => true | _ => false end.

(** What [n] right shifts leave of a mantissa [P]: the quotient by [2^n],
    the round bit and the sticky bit, in terms of the remainder [rho]. *)
Definition shifted (P : Z) (n : Z) (rec : shr_record) : Prop :=
  exists rho,
    0 <= rho < 2 ^ n
    /\ P = shr_m rec * 2 ^ n + rho
    /\ shr_r rec = (2 ^ (n - 1) <=? rho)
    /\ shr_s rec = negb ((rho =? 0) || (rho =? 2 ^ (n - 1))).

(** The place of an exact quotient between [q] and [q + 1], in quarters:
    0 at [q], 1 below the middle, 2 at the middle, 3 above it. *)
Definition locationCode (l : location) : Z :=
  match l with
  | loc_Exact => 0
  | loc_Inexact Lt => 1
  | loc_Inexact Eq => 2
  | loc_Inexact Gt => 3
  end.

(** [z * 2^e] is the binary64 number nearest to [N / D * 2^k], half-way
    cases going to the even mantissa.  The unit [u] is a quarter of the
    distance between neighbours at exponent [e]; just below the mantissa
    [2^52] the neighbours are twice as close. *)
Definition nearestEven (N D k z e : Z) : Prop :=
  let u := 2 ^ (e - k - 2) in
  2 ^ (Num.prec - 1) <= z < 2 ^ Num.prec
  /\ k + 2 <= e
  /\ D * ((4 * z - 2) * u) <= N <= D * ((4 * z + 2) * u)
  /\ (z = 2 ^ (Num.prec - 1) -> D * ((4 * z - 1) * u) <= N)
  /\ (N = D * ((4 * z - 2) * u) \/ N = D * ((4 * z + 2) * u) ->
      Z.even z = true).

(** [z * 2^e] is the binary64 result of [a / b * 100] for positive integers:
    the quotient rounded, then the product rounded. *)
Definition roundedRate (a b z e : Z) : Prop :=
  exists z1 e1,
    nearestEven (a * 2 ^ 108) b (-108) z1 e1
    /\ nearestEven (100 * z1 * 2 ^ (e1 + 160)) 1 (-160) z e.

(** The same for wins of either sign: the result is [v * 2^e]. *)
Definition signedRate (w m v e : Z) : Prop :=
  (w = 0 /\ v = 0)
  \/ (0 < w /\ 0 < v /\ roundedRate w m v e)
  \/ (w < 0 /\ v < 0 /\ roundedRate (- w) m (- v) e).

(** The literal [1.2] is the double [(6 * 2^52 - 1) / (5 * 2^52)]. *)
Definition mantissa_1_2 : Z := 5404319552844595.

(** The least-squares slope of the points [(0, y0), (1, y1), ...], in exact
    rational arithmetic and in the words of the specification:
    [(N * sum(x*y) - sum(x) * sum(y)) / (N * sum(x^2) - sum(x)^2)]. *)
Definition olsSlope (ys : list Q) : Q :=
  let N := inject_Z (Z.of_nat (List.length ys)) in
  let xs := map (fun i => inject_Z (Z.of_nat i)) (seq 0 (List.length ys)) in
  let sum := fold_right Qplus 0%Q in
  let sumX := sum xs in
  let sumY := sum ys in
  let sumXY := sum (map (fun xy => (fst xy * snd xy)%Q) (combine xs ys)) in
  let sumX2 := sum (map (fun x => (x * x)%Q) xs) in
  ((N * sumXY - sumX * sumY) / (N * sumX2 - sumX * sumX))%Q.

(** ** Sample data *)

(** A store that holds no row. *)
Definition emptyStore (ids : list string) : QueryResult :=
  {| data := Some []; error := None |}.

Definition ann : Store.Row :=
  {| Store.id := "a"; Store.name := "Ann"; Store.sport := "basketball";
     Store.matches := 10; Store.score := 60; Store.assists := 40;
     Store.rebounds := 20; Store.wins := 8 |}.

Definition bob : Store.Row :=
  {| Store.id := "b"; Store.name := "Bob"; Store.sport := "basketball";
     Store.matches := 10; Store.score := 30; Store.assists := 30;
     Store.rebounds := 30; Store.wins := 4 |}.

Definition demoTable : list Store.Row := [ann; bob].

(** Two players whose totals are 100 and 95. *)
Definition carl : Store.Row :=
  {| Store.id := "c"; Store.name := "Carl"; Store.sport := "basketball";
     Store.matches := 12; Store.score := 50; Store.assists := 30;
     Store.rebounds := 20; Store.wins := 6 |}.

Definition dana : Store.Row :=
  {| Store.id := "d"; Store.name := "Dana"; Store.sport := "basketball";
     Store.matches := 12; Store.score := 40; Store.assists := 30;
     Store.rebounds := 25; Store.wins := 6 |}.

(** Two players whose win rates differ by less than binary64 tells apart. *)
Definition pat : Store.Row :=
  {| Store.id := "p"; Store.name := "Pat"; Store.sport := "tennis";
     Store.matches := 2147483646; Store.score := 0; Store.assists := 0;
     Store.rebounds := 0; Store.wins := 2147483645 |}.

Definition quinn : Store.Row :=
  {| Store.id := "q"; Store.name := "Quinn"; Store.sport := "tennis";
     Store.matches := 2147483647; Store.score := 0; Store.assists := 0;
     Store.rebounds := 0; Store.wins := 2147483646 |}.

(** ** Identifiers as the store prints them

    The [id] column is a UUID.  The store prints a UUID as 32 lower-case
    hexadecimal digits in groups of 8, 4, 4, 4 and 12 separated by hyphens,
    and this is the text the client receives as [id].  On identifiers of
    this form [selectIn] is the store: two of them are the same UUID exactly
    when they are the same text, and the filter raises no error.  A text
    that is no UUID makes the store signal an error, and another spelling
    of a UUID (upper case, braces) finds its row under a text that [find]
    then misses; statements about the messages of the handler are therefore
    made for identifiers of this form. *)
Definition hexDigit (c : ascii) : bool :=
  let n := nat_of_ascii c in
  ((48 <=? n) && (n <=? 57) || (97 <=? n) && (n <=? 102))%nat.

Definition canonicalUuid (s : string) : bool :=
  (String.length s =? 36)%nat
  && forallb
       (fun i =>
          match String.get i s with
          | Some c =>
              if existsb (Nat.eqb i) [8; 13; 18; 23]%nat
              then Ascii.eqb c "-"
              else hexDigit c
          | None => false
          end)
       (seq 0 36).

(** Every key of the table is a UUID as the store prints it. *)
Definition uuidKeys (table : list Store.Row) : Prop :=
  Forall (fun r => canonicalUuid (Store.id r) = true) table.

(** An identifier of a request that is absent, empty, or a UUID as the
    store prints it. *)
Definition uuidOrMissing (a : option string) : Prop :=
  match truthy a with
  | Some s => canonicalUuid s = true
  | None => True
  end.

Definition uma : Store.Row :=
  {| Store.id := "11111111-1111-4111-8111-111111111111";
     Store.name := "Uma"; Store.sport := "soccer";
     Store.matches := 20; Store.score := 12; Store.assists := 9;
     Store.rebounds := 3; Store.wins := 11 |}.

Definition vic : Store.Row :=
  {| Store.id := "22222222-2222-4222-8222-222222222222";
     Store.name := "Vic"; Store.sport := "soccer";
     Store.matches := 18; Store.score := 5; Store.assists := 14;
     Store.rebounds := 6; Store.wins := 9 |}.

Definition leagueTable : list Store.Row := [uma; vic].

(** ** What the handler reports

    [error instanceof Error ? error.message : 'Unknown error'], the message
    of the failure envelope. *)
Definition reportedMessage (e : thrown) : string :=
  match e with
  | ErrorObject message => message
  | OtherValue => "Unknown error"
  end.

(** Both identifiers of a request are usable and name two different rows of
    the table. *)
Definition bothFound (table : list Store.Row) (a b : option string) : Prop :=
  exists id1 id2,
    truthy a = Some id1 /\ truthy b = Some id2 /\ id1 <> id2
    /\ In id1 (map Store.id table) /\ In id2 (map Store.id table).

(** ** The sums of the regression in exact integer arithmetic

    For a list [ys] of integers and the positions 0, 1, ..., these are the
    sums the trend calculator accumulates, and the numerator and the
    denominator of its quotient. *)

Definition zsum (l : list Z) : Z := fold_right Z.add 0 l.

Definition sumOfX (n : nat) : Z := zsum (map Z.of_nat (seq 0 n)).

Definition sumOfX2 (n : nat) : Z :=
  zsum (map (fun i => Z.of_nat i * Z.of_nat i) (seq 0 n)).

Definition sumOfXY (ys : list Z) : Z :=
  zsum (map (fun i => Z.of_nat i * nth i ys 0) (seq 0 (List.length ys))).

Definition slopeNumerator (ys : list Z) : Z :=
  Z.of_nat (List.length ys) * sumOfXY ys
  - sumOfX (List.length ys) * zsum ys.

Definition slopeDenominator (n : nat) : Z :=
  Z.of_nat n * sumOfX2 n - sumOfX n * sumOfX n.

(** The values [a], [a + d], [a + 2 d], ..., [a + (n - 1) d]. *)
Definition progression (a d : Z) (n : nat) : list Z :=
  map (fun i => a + Z.of_nat i * d) (seq 0 n).

(** The literal [1.15] is the double [(23 * 2^52 - 8) / (20 * 2^52)]. *)
Definition mantissa_1_15 : Z := 5179139571476070.

(** ** The pages of the client

    The home page validates the two selections before it opens the
    comparison page; the comparison page chooses an icon for each slope and
    builds the rows of its charts from the two players of the response. *)

Module IndexPage.

(** What a handler does besides updating the state of the page. *)
Inductive Effect :=
  | ToastError (message : string)
  | Navigate (to : string).

(** The two selections are strings of the page state, empty until a player
    is chosen; [!s] holds of the empty string only. *)
Definition handleCompare (selectedPlayer1 selectedPlayer2 : string) : Effect :=
  if String.eqb selectedPlayer1 "" || String.eqb selectedPlayer2 "" then
    ToastError "Please select two players to compare"
  else if String.eqb selectedPlayer1 selectedPlayer2 then
    ToastError "Please select different players"
  else
    Navigate ("/compare?player1=" ++ selectedPlayer1
              ++ "&player2=" ++ selectedPlayer2).

(** The players offered in the two selects and listed on the page. *)
Definition filteredPlayers (selectedSport : string) (players : list PlayerStats)
    : list PlayerStats :=
  if negb (String.eqb selectedSport "") then
    filter (fun p => String.eqb (sport p) selectedSport) players
  else players.

End IndexPage.

Module ComparePage.

(** What the page does when its location changes: it leaves with an error
    message, or it asks the handler for the comparison. *)
Inductive Effect :=
  | ToastAndNavigate (message to : string)
  | Invoke (player1Id player2Id : string).


(** The icon components [getTrendIcon] chooses from. *)
Inductive Icon := TrendingUp | TrendingDown | Minus.

Definition getTrendIcon (slope : Num.num) : Icon :=
  if (slope >? 0.5)%num then TrendingUp
  else if (slope <? -0.5)%num then TrendingDown
  else Minus.

(** The rows handed to the charts are object literals with computed keys.
    An object is the list of its properties; defining a key that is already
    there replaces its value.  Only lookups by key are modelled, not the
    order in which an object enumerates its keys. *)
Inductive JsValue :=
  | JString (s : string)
  | JNumber (x : Num.num).

Definition JsObject : Type := list (string * JsValue).

Fixpoint setProperty (o : JsObject) (key : string) (v : JsValue) : JsObject :=
  match o with
  | [] => [(key, v)]
  | (k, w) :: rest =>
      if String.eqb k key then (k, v) :: rest
      else (k, w) :: setProperty rest key v
  end.

Definition getProperty (o : JsObject) (key : string) : option JsValue :=
  option_map snd (find (fun kv => String.eqb (fst kv) key) o).

Definition objectLiteral (properties : list (string * JsValue)) : JsObject :=
  fold_left (fun o kv => setProperty o (fst kv) (snd kv)) properties [].

Definition statsComparison (player1 player2 : PublicStats) : list JsObject :=
  [ objectLiteral [ ("stat", JString "Score");
                    (pub_name player1, JNumber (pub_score player1));
                    (pub_name player2, JNumber (pub_score player2)) ];
    objectLiteral [ ("stat", JString "Assists");
                    (pub_name player1, JNumber (pub_assists player1));
                    (pub_name player2, JNumber (pub_assists player2)) ];
    objectLiteral [ ("stat", JString "Rebounds");
                    (pub_name player1, JNumber (pub_rebounds player1));
                    (pub_name player2, JNumber (pub_rebounds player2)) ];
    objectLiteral [ ("stat", JString "Wins");
                    (pub_name player1, JNumber (pub_wins player1));
                    (pub_name player2, JNumber (pub_wins player2)) ] ]%string.

Definition trendData (player1 player2 : PublicStats) : list JsObject :=
  [ objectLiteral [ ("metric", JString "Score");
                    (pub_name player1, JNumber (pub_score player1));
                    (pub_name player2, JNumber (pub_score player2)) ];
    objectLiteral [ ("metric", JString "Assists");
                    (pub_name player1, JNumber (pub_assists player1));
                    (pub_name player2, JNumber (pub_assists player2)) ];
    objectLiteral [ ("metric", JString "Rebounds");
                    (pub_name player1, JNumber (pub_rebounds player1));
                    (pub_name player2, JNumber (pub_rebounds player2)) ] ]%string.

End ComparePage.

(** Rows for the examples: totals of -10, no matches played, and rebounds
    one above the score. *)
Definition lou : Store.Row :=
  {| Store.id := "l"; Store.name := "Lou"; Store.sport := "hockey";
     Store.matches := 3; Store.score := -4; Store.assists := -3;
     Store.rebounds := -3; Store.wins := 0 |}.

Definition ray : Store.Row :=
  {| Store.id := "r"; Store.name := "Ray"; Store.sport := "soccer";
     Store.matches := 0; Store.score := 7; Store.assists := 2;
     Store.rebounds := 1; Store.wins := 3 |}.

Definition kim : Store.Row :=
  {| Store.id := "k"; Store.name := "Kim"; Store.sport := "hockey";
     Store.matches := 5; Store.score := 9; Store.assists := 4;
     Store.rebounds := 10; Store.wins := 2 |}.

(** * Exact binary64 arithmetic on integers

    Sums, differences and products of integers stay exact as long as they
    stay below 2^53, and so does a quotient that is a dyadic rational.  The
    lemmas are proved on the rounding functions of the format. *)

Module Exact.
Import Num.

(** *** Binary digits *)

Lemma digits2_pos_size p : digits2_pos p = Pos.size p.
Proof. induction p; simpl; congruence. Qed.

Lemma Zdigits2_log2 z : 0 < z -> Zdigits2 z = Z.log2 z + 1.
Proof.
  destruct z as [|p|p]; try lia. intros _. simpl.
  rewrite digits2_pos_size. destruct p; simpl; lia.
Qed.

Lemma Zdigits2_opp z : Zdigits2 (- z) = Zdigits2 z.
Proof. now destruct z. Qed.

Lemma Zdigits2_bounds z :
  0 < z -> 2 ^ (Zdigits2 z - 1) <= z < 2 ^ Zdigits2 z.
Proof.
  intros Hz. rewrite Zdigits2_log2 by assumption.
  replace (Z.log2 z + 1 - 1) with (Z.log2 z) by lia.
  apply Z.log2_spec. assumption.
Qed.

Lemma Zdigits2_pos z : 0 < z -> 0 < Zdigits2 z.
Proof.
  intros Hz. rewrite Zdigits2_log2 by assumption.
  pose proof (Z.log2_nonneg z). lia.
Qed.

Lemma Zdigits2_shift z n :
  0 < z -> 0 <= n -> Zdigits2 (z * 2 ^ n) = Zdigits2 z + n.
Proof.
  intros Hz Hn.
  rewrite !Zdigits2_log2 by (try apply Z.mul_pos_pos; lia).
  rewrite Z.log2_mul_pow2 by lia. lia.
Qed.

(** A number of [d] digits lies in [[2^(d-1), 2^d)], and conversely. *)
Lemma Zdigits2_unique z d :
  2 ^ (d - 1) <= z < 2 ^ d -> 0 < d -> Zdigits2 z = d.
Proof.
  intros Hb Hd.
  assert (0 < z) by (pose proof (Z.pow_pos_nonneg 2 (d - 1)); lia).
  rewrite Zdigits2_log2 by assumption.
  rewrite (Z.log2_unique z (d - 1)); try lia.
  replace (Z.succ (d - 1)) with d by lia. lia.
Qed.

Lemma Zdigits2_le_iff z d :
  0 < z -> 0 <= d -> (Zdigits2 z <= d <-> z < 2 ^ d).
Proof.
  intros Hz Hd. pose proof (Zdigits2_bounds z Hz) as [Hlo Hhi]. split; intros H.
  - eapply Z.lt_le_trans; [exact Hhi|]. apply Z.pow_le_mono_r; lia.
  - destruct (Z.le_gt_cases (Zdigits2 z) d) as [|Hgt]; [assumption|].
    assert (2 ^ d <= 2 ^ (Zdigits2 z - 1)) by (apply Z.pow_le_mono_r; lia).
    lia.
Qed.

(** *** Rounding what is already representable *)

(** Shifting right by [n] a mantissa that is a multiple of [2^n] loses
    nothing. *)
Lemma iter_pos_nat {A} (f : A -> A) p x :
  iter_pos f p x = Nat.iter (Pos.to_nat p) f x.
Proof.
  revert x. induction p as [p IH|p IH|]; intros x; cbn [iter_pos].
  - rewrite !IH, Pos2Nat.inj_xI.
    replace (S (2 * Pos.to_nat p)) with (Pos.to_nat p + S (Pos.to_nat p))%nat by lia.
    rewrite Nat.iter_add. now rewrite Nat.iter_succ_r.
  - rewrite !IH, Pos2Nat.inj_xO.
    replace (2 * Pos.to_nat p)%nat with (Pos.to_nat p + Pos.to_nat p)%nat by lia.
    now rewrite Nat.iter_add.
  - reflexivity.
Qed.

Lemma shr_1_double q :
  0 < q ->
  shr_1 {| shr_m := 2 * q; shr_r := false; shr_s := false |}
  = {| shr_m := q; shr_r := false; shr_s := false |}.
Proof. destruct q; try lia. reflexivity. Qed.

Lemma iter_shr_1_exact n q :
  0 < q ->
  Nat.iter n shr_1
    {| shr_m := q * 2 ^ Z.of_nat n; shr_r := false; shr_s := false |}
  = {| shr_m := q; shr_r := false; shr_s := false |}.
Proof.
  intros Hq. induction n as [|n IH].
  - simpl. now rewrite Z.mul_1_r.
  - rewrite Nat.iter_succ_r.
    replace (q * 2 ^ Z.of_nat (S n)) with (2 * (q * 2 ^ Z.of_nat n)).
    + rewrite shr_1_double; [exact IH|].
      apply Z.mul_pos_pos; [assumption|]. apply Z.pow_pos_nonneg; lia.
    + rewrite Nat2Z.inj_succ, Z.pow_succ_r by lia. ring.
Qed.

Lemma shr_exact q e n :
  0 < q -> 0 <= n ->
  shr {| shr_m := q * 2 ^ n; shr_r := false; shr_s := false |} e n
  = ({| shr_m := q; shr_r := false; shr_s := false |}, e + n).
Proof.
  intros Hq Hn. destruct n as [|p|p]; try lia.
  - simpl. now rewrite Z.mul_1_r, Z.add_0_r.
  - unfold shr. rewrite iter_pos_nat.
    rewrite <- (positive_nat_Z p) at 1.
    now rewrite iter_shr_1_exact.
Qed.

Lemma fexp_eq d : emin prec emax <= d - prec -> fexp prec emax d = d - prec.
Proof. unfold fexp. lia. Qed.

(** Rounding a mantissa that already fits the format changes nothing. *)
Lemma binary_round_aux_exact s M E Q f :
  0 < Q -> fexp prec emax (Zdigits2 M + E) = f -> E <= f ->
  M = Q * 2 ^ (f - E) -> f <= emax - prec ->
  binary_round_aux prec emax s M E loc_Exact = S754_finite s (Z.to_pos Q) f.
Proof.
  intros HQ Hf HE HM Hmax.
  assert (Hd : Zdigits2 M = Zdigits2 Q + (f - E))
    by (rewrite HM; apply Zdigits2_shift; lia).
  unfold binary_round_aux, shr_fexp. rewrite Hf. cbn [shr_record_of_loc].
  rewrite HM at 1. rewrite shr_exact by lia.
  cbn [shr_m loc_of_shr_record round_nearest_even shr_record_of_loc].
  replace (E + (f - E)) with f by lia.
  replace (Zdigits2 Q + f) with (Zdigits2 M + E) by lia.
  rewrite Hf, Z.sub_diag. cbn [shr shr_m].
  destruct Q as [|q|q]; try lia.
  apply Z.leb_le in Hmax. now rewrite Hmax.
Qed.

Lemma shl_align_le m e e' :
  e' <= e ->
  Zpos (fst (shl_align m e e')) = Zpos m * 2 ^ (e - e')
  /\ snd (shl_align m e e') = e'.
Proof.
  intros H. unfold shl_align.
  destruct (e' - e) as [|d|d] eqn:Hd; try lia.
  - replace (e - e') with 0 by lia. replace e' with e by lia.
    cbn [fst snd]. lia.
  - cbn [fst snd]. split; [|reflexivity].
    change (Pos.iter xO m d) with (shift_pos d m).
    rewrite shift_pos_correct, Z.pow_pos_fold.
    replace (e - e') with (Zpos d) by lia. ring.
Qed.

Lemma shl_align_ge m e e' : e <= e' -> shl_align m e e' = (m, e).
Proof.
  intros H. unfold shl_align. destruct (e' - e) eqn:Hd; try reflexivity. lia.
Qed.

Lemma binary_round_exact s m E Q f :
  0 < Q -> fexp prec emax (Zpos (digits2_pos m) + E) = f ->
  Zpos m * 2 ^ (E - Z.min E f) = Q * 2 ^ (f - Z.min E f) ->
  f <= emax - prec ->
  binary_round prec emax s m E = S754_finite s (Z.to_pos Q) f.
Proof.
  intros HQ Hf HM Hmax. unfold binary_round. rewrite Hf.
  destruct (Z.le_gt_cases E f) as [HE|HE].
  - rewrite shl_align_ge by assumption.
    apply binary_round_aux_exact; try assumption.
    rewrite Z.min_l, Z.sub_diag, Z.mul_1_r in HM by assumption. exact HM.
  - destruct (shl_align_le m E f) as [Hm He]; [lia|].
    destruct (shl_align m E f) as [mz ez]. cbn [fst snd] in Hm, He. subst ez.
    rewrite Z.min_r, Z.sub_diag, Z.mul_1_r in HM by lia.
    apply binary_round_aux_exact; try assumption; try lia.
    + rewrite Hm. rewrite Zdigits2_shift by lia.
      replace (Zdigits2 (Zpos m) + (E - f) + f)
        with (Zpos (digits2_pos m) + E) by (cbn [Zdigits2]; lia).
      exact Hf.
    + rewrite Z.sub_diag, Z.mul_1_r. lia.
Qed.

Lemma pow2_add a b : 0 <= a -> 0 <= b -> 2 ^ a * 2 ^ b = 2 ^ (a + b).
Proof. intros. now rewrite Z.pow_add_r. Qed.

Lemma Zdigits2_le_prec z : 0 < z < 2 ^ prec -> 0 < Zdigits2 z <= prec.
Proof.
  intros [Hz Hlt]. split; [now apply Zdigits2_pos|].
  apply Zdigits2_le_iff; unfold prec in *; lia.
Qed.

(** The canonical mantissa of a positive integer below 2^53 has 53
    digits. *)
Lemma mantissa_digits z :
  0 < z < 2 ^ prec -> Zdigits2 (z * 2 ^ (prec - Zdigits2 z)) = prec.
Proof.
  intros Hz. pose proof (Zdigits2_le_prec z Hz).
  rewrite Zdigits2_shift by lia. lia.
Qed.

Lemma mantissa_pos z : 0 < z < 2 ^ prec -> 0 < z * 2 ^ (prec - Zdigits2 z).
Proof.
  intros Hz. pose proof (Zdigits2_le_prec z Hz).
  apply Z.mul_pos_pos; [lia|]. apply Z.pow_pos_nonneg; lia.
Qed.

(** Rounding [z * 2^e], given as the mantissa [m] at a smaller exponent
    [E], gives the canonical representation. *)
Lemma binary_round_dyadic s m E z e :
  0 < z < 2 ^ prec -> -1022 <= e <= 971 -> E <= e ->
  Zpos m = z * 2 ^ (e - E) ->
  binary_round prec emax s m E
  = S754_finite s (Z.to_pos (z * 2 ^ (prec - Zdigits2 z)))
      (Zdigits2 z - prec + e).
Proof.
  intros Hz He HE Hm. pose proof (Zdigits2_le_prec z Hz) as Hd.
  pose proof (mantissa_pos z Hz) as HQ.
  assert (Hdm : Zpos (digits2_pos m) = Zdigits2 z + (e - E)).
  { change (Zpos (digits2_pos m)) with (Zdigits2 (Zpos m)).
    rewrite Hm. apply Zdigits2_shift; lia. }
  apply binary_round_exact; try assumption.
  - rewrite Hdm. replace (Zdigits2 z + (e - E) + E) with (Zdigits2 z + e) by lia.
    rewrite fexp_eq; unfold emin, emax, prec in *; lia.
  - rewrite Hm, <- !Z.mul_assoc, !pow2_add by lia. f_equal. f_equal. lia.
  - unfold emax, prec in *. lia.
Qed.

Lemma binary_round_aux_dyadic s M E z e :
  0 < z < 2 ^ prec -> -1022 <= e <= 971 -> E <= Zdigits2 z - prec + e ->
  M = z * 2 ^ (e - E) ->
  binary_round_aux prec emax s M E loc_Exact
  = S754_finite s (Z.to_pos (z * 2 ^ (prec - Zdigits2 z)))
      (Zdigits2 z - prec + e).
Proof.
  intros Hz He HE Hm. pose proof (Zdigits2_le_prec z Hz) as Hd.
  pose proof (mantissa_pos z Hz) as HQ.
  assert (Hdm : Zdigits2 M = Zdigits2 z + (e - E)).
  { rewrite Hm. apply Zdigits2_shift; lia. }
  apply binary_round_aux_exact; try assumption.
  - rewrite Hdm. replace (Zdigits2 z + (e - E) + E) with (Zdigits2 z + e) by lia.
    rewrite fexp_eq; unfold emin, emax, prec in *; lia.
  - rewrite Hm, <- !Z.mul_assoc, !pow2_add by lia. f_equal. f_equal. lia.
  - unfold emax, prec in *. lia.
Qed.

Lemma binary_normalize_dyadic S E z e :
  Z.abs z < 2 ^ prec -> -1022 <= e <= 971 -> E <= e ->
  S = z * 2 ^ (e - E) ->
  binary_normalize prec emax S E false = dyadic z e.
Proof.
  intros Hz He HE HS.
  assert (Hp : 0 < 2 ^ (e - E)) by (apply Z.pow_pos_nonneg; lia).
  destruct z as [|p|p].
  - subst S. reflexivity.
  - destruct S as [|m|m]; try lia.
    unfold binary_normalize, dyadic.
    change (Zpos p <? 0) with false. rewrite Z.abs_eq by lia.
    apply binary_round_dyadic; try assumption; lia.
  - destruct S as [|m|m]; try lia.
    unfold binary_normalize, dyadic.
    change (Zneg p <? 0) with true.
    change (Z.abs (Zneg p)) with (Zpos p).
    change (Zdigits2 (Zneg p)) with (Zdigits2 (Zpos p)).
    apply binary_round_dyadic; try assumption; try lia.
Qed.

Lemma ofZ_dyadic z : Z.abs z < 2 ^ prec -> ofZ z = dyadic z 0.
Proof.
  intros Hz. unfold ofZ.
  apply binary_normalize_dyadic; lia.
Qed.

(** *** Exact sums, differences and products *)

Lemma dyadic_finite z e :
  z <> 0 ->
  dyadic z e
  = S754_finite (z <? 0) (Z.to_pos (Z.abs z * 2 ^ (prec - Zdigits2 z)))
      (Zdigits2 z - prec + e).
Proof. now destruct z. Qed.

Lemma abs_digits z : Zdigits2 (Z.abs z) = Zdigits2 z.
Proof. now destruct z. Qed.

Lemma abs_bounds z : z <> 0 -> Z.abs z < 2 ^ prec -> 0 < Z.abs z < 2 ^ prec.
Proof. lia. Qed.

(** The mantissa of [dyadic z e], aligned to a smaller exponent and
    signed, is [z] scaled. *)
Lemma aligned_mantissa z e ez :
  z <> 0 -> Z.abs z < 2 ^ prec -> ez <= Zdigits2 z - prec + e ->
  cond_Zopp (z <? 0)
    (Zpos (fst (shl_align
                  (Z.to_pos (Z.abs z * 2 ^ (prec - Zdigits2 z)))
                  (Zdigits2 z - prec + e) ez)))
  = z * 2 ^ (e - ez).
Proof.
  intros Hz Hlt Hez.
  pose proof (abs_bounds z Hz Hlt) as Hb.
  pose proof (Zdigits2_le_prec _ Hb) as Hd. rewrite abs_digits in Hd.
  pose proof (mantissa_pos _ Hb) as HQ. rewrite abs_digits in HQ.
  destruct (shl_align_le (Z.to_pos (Z.abs z * 2 ^ (prec - Zdigits2 z)))
              (Zdigits2 z - prec + e) ez Hez) as [Hm _].
  rewrite Hm, Z2Pos.id by assumption.
  rewrite <- Z.mul_assoc, pow2_add by lia.
  replace (prec - Zdigits2 z + (Zdigits2 z - prec + e - ez)) with (e - ez) by lia.
  unfold cond_Zopp. destruct (Z.ltb_spec z 0); rewrite ?Z.abs_neq, ?Z.abs_eq by lia; ring.
Qed.

Lemma add_dyadic a b e :
  Z.abs a < 2 ^ prec -> Z.abs b < 2 ^ prec -> Z.abs (a + b) < 2 ^ prec ->
  -1022 <= e <= 971 ->
  add (dyadic a e) (dyadic b e) = dyadic (a + b) e.
Proof.
  intros Ha Hb Hab He.
  destruct (Z.eq_dec a 0) as [->|Ha0].
  { destruct b; reflexivity. }
  destruct (Z.eq_dec b 0) as [->|Hb0].
  { rewrite Z.add_0_r. destruct a; try reflexivity; lia. }
  rewrite (dyadic_finite a), (dyadic_finite b) by assumption.
  unfold add, SFadd.
  set (ea := Zdigits2 a - prec + e). set (eb := Zdigits2 b - prec + e).
  pose proof (Zdigits2_le_prec _ (abs_bounds a Ha0 Ha)) as Hda.
  pose proof (Zdigits2_le_prec _ (abs_bounds b Hb0 Hb)) as Hdb.
  rewrite abs_digits in Hda, Hdb.
  unfold ea, eb.
  rewrite !aligned_mantissa by (try assumption; lia).
  apply binary_normalize_dyadic; try assumption; lia.
Qed.

Lemma sub_dyadic a b e :
  Z.abs a < 2 ^ prec -> Z.abs b < 2 ^ prec -> Z.abs (a - b) < 2 ^ prec ->
  -1022 <= e <= 971 ->
  sub (dyadic a e) (dyadic b e) = dyadic (a - b) e.
Proof.
  intros Ha Hb Hab He.
  destruct (Z.eq_dec b 0) as [->|Hb0].
  { rewrite Z.sub_0_r. destruct a; reflexivity. }
  destruct (Z.eq_dec a 0) as [->|Ha0].
  { destruct b; try reflexivity; lia. }
  rewrite (dyadic_finite a), (dyadic_finite b) by assumption.
  unfold sub, SFsub.
  pose proof (Zdigits2_le_prec _ (abs_bounds a Ha0 Ha)) as Hda.
  pose proof (Zdigits2_le_prec _ (abs_bounds b Hb0 Hb)) as Hdb.
  rewrite abs_digits in Hda, Hdb.
  rewrite !aligned_mantissa by (try assumption; lia).
  apply binary_normalize_dyadic; try assumption; lia.
Qed.

Lemma Zdigits2_mul_lower x y :
  0 < x -> 0 < y -> Zdigits2 x + Zdigits2 y - 1 <= Zdigits2 (x * y).
Proof.
  intros Hx Hy.
  pose proof (Zdigits2_bounds x Hx) as [Hxl _].
  pose proof (Zdigits2_bounds y Hy) as [Hyl _].
  pose proof (Zdigits2_pos x Hx). pose proof (Zdigits2_pos y Hy).
  assert (Hxy : 0 < x * y) by now apply Z.mul_pos_pos.
  pose proof (Zdigits2_bounds _ Hxy) as [_ Hu].
  pose proof (Zdigits2_pos _ Hxy).
  destruct (Z.le_gt_cases (Zdigits2 x + Zdigits2 y - 1) (Zdigits2 (x * y)))
    as [|Hlt]; [assumption|exfalso].
  assert (2 ^ Zdigits2 (x * y) <= 2 ^ (Zdigits2 x - 1 + (Zdigits2 y - 1)))
    by (apply Z.pow_le_mono_r; lia).
  rewrite <- pow2_add in * by lia. nia.
Qed.

Lemma Zdigits2_mul_upper x y :
  0 < x -> 0 < y -> Zdigits2 (x * y) <= Zdigits2 x + Zdigits2 y.
Proof.
  intros Hx Hy.
  pose proof (Zdigits2_bounds x Hx) as [_ Hxu].
  pose proof (Zdigits2_bounds y Hy) as [_ Hyu].
  pose proof (Zdigits2_pos x Hx). pose proof (Zdigits2_pos y Hy).
  apply Zdigits2_le_iff; [now apply Z.mul_pos_pos|lia|].
  rewrite <- pow2_add by lia. nia.
Qed.

Lemma sign_mul a b : a <> 0 -> b <> 0 -> xorb (a <? 0) (b <? 0) = (a * b <? 0).
Proof.
  intros Ha Hb.
  destruct (Z.ltb_spec a 0), (Z.ltb_spec b 0), (Z.ltb_spec (a * b) 0);
    try reflexivity; nia.
Qed.

Lemma mul_dyadic_nonzero a b e1 e2 :
  a <> 0 -> b <> 0 ->
  Z.abs a < 2 ^ prec -> Z.abs b < 2 ^ prec -> Z.abs (a * b) < 2 ^ prec ->
  -1022 <= e1 + e2 <= 971 ->
  mul (dyadic a e1) (dyadic b e2) = dyadic (a * b) (e1 + e2).
Proof.
  intros Ha0 Hb0 Ha Hb Hab He.
  assert (Hab0 : a * b <> 0) by nia.
  rewrite (dyadic_finite a), (dyadic_finite b), (dyadic_finite (a * b))
    by assumption.
  pose proof (abs_bounds a Ha0 Ha) as Hba.
  pose proof (abs_bounds b Hb0 Hb) as Hbb.
  pose proof (abs_bounds _ Hab0 Hab) as Hbab.
  pose proof (Zdigits2_le_prec _ Hba) as Hda.
  pose proof (Zdigits2_le_prec _ Hbb) as Hdb.
  pose proof (Zdigits2_mul_lower (Z.abs a) (Z.abs b)) as Hlow.
  rewrite <- Z.abs_mul in Hlow.
  pose proof (mantissa_pos _ Hba) as HQa.
  pose proof (mantissa_pos _ Hbb) as HQb.
  rewrite !abs_digits in *.
  unfold mul, SFmul. rewrite sign_mul by assumption.
  rewrite <- (abs_digits (a * b)).
  apply binary_round_aux_dyadic; try assumption; rewrite ?abs_digits; try lia.
  rewrite Pos2Z.inj_mul, !Z2Pos.id by assumption.
  rewrite Z.abs_mul.
  replace (e1 + e2 - (Zdigits2 a - prec + e1 + (Zdigits2 b - prec + e2)))
    with ((prec - Zdigits2 a) + (prec - Zdigits2 b)) by lia.
  rewrite <- pow2_add by lia. ring.
Qed.

Lemma mul_dyadic a b e1 e2 :
  0 < a ->
  Z.abs a < 2 ^ prec -> Z.abs b < 2 ^ prec -> Z.abs (a * b) < 2 ^ prec ->
  -1022 <= e1 + e2 <= 971 ->
  mul (dyadic a e1) (dyadic b e2) = dyadic (a * b) (e1 + e2).
Proof.
  intros Hpos Ha Hb Hab He.
  destruct (Z.eq_dec b 0) as [->|Hb0].
  - rewrite Z.mul_0_r. destruct a; try lia. reflexivity.
  - apply mul_dyadic_nonzero; try assumption; lia.
Qed.

(** *** Exact quotients *)

Lemma div_eucl_exact q d : 0 < d -> Z.div_eucl (d * q) d = (q, 0).
Proof.
  intros Hd.
  pose proof (Z.div_mul q d ltac:(lia)) as Hq.
  pose proof (Z.mod_mul q d ltac:(lia)) as Hr.
  unfold Z.div, Z.modulo in Hq, Hr. rewrite (Z.mul_comm d q).
  destruct (Z.div_eucl (q * d) d). now subst.
Qed.

Lemma new_location_zero d : new_location d 0 = loc_Exact.
Proof. unfold new_location. now destruct (Z.even d). Qed.

(** [N / D] when the quotient is [z / 2^k] for an integer [z]. *)
Lemma div_dyadic N D z k :
  0 < D -> Z.abs N < 2 ^ prec -> D < 2 ^ prec -> Z.abs z < 2 ^ prec ->
  0 <= k <= 1022 -> N * 2 ^ k = D * z ->
  div (dyadic N 0) (dyadic D 0) = dyadic z (- k).
Proof.
  intros HD HN HDlt Hz Hk Heq.
  assert (Hpk : 0 < 2 ^ k) by (apply Z.pow_pos_nonneg; lia).
  destruct (Z.eq_dec N 0) as [->|HN0].
  { assert (z = 0) by nia. subst z. destruct D; try lia. reflexivity. }
  assert (Hz0 : z <> 0) by nia.
  assert (HD0 : D <> 0) by lia.
  assert (Habs : Z.abs N * 2 ^ k = D * Z.abs z).
  { rewrite <- (Z.abs_eq (2 ^ k)), <- (Z.abs_eq D) at 1 by lia.
    rewrite <- !Z.abs_mul. now f_equal. }
  assert (Hsign : (N <? 0) = (z <? 0)).
  { destruct (Z.ltb_spec N 0), (Z.ltb_spec z 0); try reflexivity; nia. }
  pose proof (abs_bounds N HN0 HN) as HbN.
  pose proof (abs_bounds z Hz0 Hz) as Hbz.
  assert (HbD : 0 < D < 2 ^ prec) by lia.
  pose proof (Zdigits2_le_prec _ HbN) as HdN.
  pose proof (Zdigits2_le_prec _ HbD) as HdD.
  pose proof (Zdigits2_le_prec _ Hbz) as Hdz.
  pose proof (mantissa_pos _ HbN) as HQN.
  pose proof (mantissa_pos _ HbD) as HQD.
  pose proof (mantissa_digits _ HbN) as HmN.
  pose proof (mantissa_digits _ HbD) as HmD.
  (* the digits of both sides of [|N| * 2^k = D * |z|] *)
  assert (Hdig : Zdigits2 N + k <= Zdigits2 D + Zdigits2 z).
  { pose proof (Zdigits2_mul_upper D (Z.abs z) ltac:(lia) ltac:(lia)) as Hu.
    rewrite <- Habs, Zdigits2_shift in Hu by lia.
    now rewrite !abs_digits in Hu. }
  rewrite !abs_digits in *.
  set (t := Zdigits2 D - Zdigits2 N - k + prec).
  assert (Ht : 0 <= t /\ prec <= Zdigits2 z + t) by (unfold t; lia).
  rewrite (dyadic_finite N), (dyadic_finite D), (dyadic_finite z) by assumption.
  unfold div, SFdiv, SFdiv_core_binary.
  rewrite !Z2Pos.id by (rewrite ?Z.abs_eq by lia; assumption).
  rewrite (Z.abs_eq D) by lia.
  rewrite HmN, HmD.
  replace (prec + (Zdigits2 N - prec + 0) - (prec + (Zdigits2 D - prec + 0)))
    with (Zdigits2 N - Zdigits2 D) by lia.
  replace (Zdigits2 N - prec + 0 - (Zdigits2 D - prec + 0))
    with (Zdigits2 N - Zdigits2 D) by lia.
  rewrite fexp_eq by (unfold emin, emax, prec in *; lia).
  rewrite Z.min_l by (unfold prec; lia).
  replace (Zdigits2 N - Zdigits2 D - (Zdigits2 N - Zdigits2 D - prec))
    with prec by lia.
  lazymatch goal with
  | |- context [match prec with 0 => ?a | Zpos _ => ?b | Zneg _ => ?c end] =>
      change (match prec with 0 => a | Zpos _ => b | Zneg _ => c end) with b
  end.
  rewrite Z.shiftl_mul_pow2 by (unfold prec; lia).
  change (2 ^ prec) with (2 ^ 53) at 1.
  replace (Z.abs N * 2 ^ (prec - Zdigits2 N) * 2 ^ 53)
    with (D * 2 ^ (prec - Zdigits2 D) * (Z.abs z * 2 ^ t)).
  2:{ transitivity (D * Z.abs z * (2 ^ (prec - Zdigits2 D) * 2 ^ t)); [ring|].
      rewrite <- Habs, pow2_add by lia.
      transitivity (Z.abs N * (2 ^ k * 2 ^ (prec - Zdigits2 D + t))); [ring|].
      rewrite pow2_add by lia.
      transitivity (Z.abs N * (2 ^ (prec - Zdigits2 N) * 2 ^ 53)); [|ring].
      rewrite pow2_add by lia. f_equal. f_equal. unfold t, prec. lia. }
  rewrite div_eucl_exact by assumption.
  rewrite new_location_zero.
  replace (xorb (N <? 0) (D <? 0)) with (z <? 0).
  2:{ rewrite <- Hsign. destruct (Z.ltb_spec D 0); [lia|]. now rewrite xorb_false_r. }
  rewrite <- (abs_digits z).
  apply binary_round_aux_dyadic; try assumption; rewrite ?abs_digits; try lia.
  f_equal. f_equal. unfold t. lia.
Qed.

(** *** Comparisons *)

Lemma compare_magnitude a b e :
  0 < a < 2 ^ prec -> 0 < b < 2 ^ prec ->
  match Zdigits2 a - prec + e ?= Zdigits2 b - prec + e with
  | Eq =>
      Pos.compare_cont Eq
        (Z.to_pos (a * 2 ^ (prec - Zdigits2 a)))
        (Z.to_pos (b * 2 ^ (prec - Zdigits2 b)))
  | Lt => Lt
  | Gt => Gt
  end = (a ?= b).
Proof.
  intros Ha Hb.
  pose proof (Zdigits2_le_prec _ Ha) as Hda.
  pose proof (Zdigits2_le_prec _ Hb) as Hdb.
  pose proof (Zdigits2_bounds a (proj1 Ha)) as [Hal Hau].
  pose proof (Zdigits2_bounds b (proj1 Hb)) as [Hbl Hbu].
  pose proof (mantissa_pos _ Ha) as HQa.
  pose proof (mantissa_pos _ Hb) as HQb.
  destruct (Z.compare_spec (Zdigits2 a - prec + e) (Zdigits2 b - prec + e))
    as [Heq|Hlt|Hgt].
  - change (Pos.compare_cont Eq ?x ?y) with (Pos.compare x y).
    rewrite <- Z2Pos.inj_compare by assumption.
    replace (Zdigits2 b) with (Zdigits2 a) by lia.
    assert (0 < 2 ^ (prec - Zdigits2 a)) by (apply Z.pow_pos_nonneg; lia).
    destruct (Z.compare_spec a b),
      (Z.compare_spec (a * 2 ^ (prec - Zdigits2 a)) (b * 2 ^ (prec - Zdigits2 a)));
      try reflexivity; nia.
  - symmetry. apply Z.compare_lt_iff.
    assert (2 ^ Zdigits2 a <= 2 ^ (Zdigits2 b - 1)) by (apply Z.pow_le_mono_r; lia).
    lia.
  - symmetry. apply Z.compare_gt_iff.
    assert (2 ^ Zdigits2 b <= 2 ^ (Zdigits2 a - 1)) by (apply Z.pow_le_mono_r; lia).
    lia.
Qed.

Lemma compare_dyadic a b e :
  Z.abs a < 2 ^ prec -> Z.abs b < 2 ^ prec ->
  SFcompare (dyadic a e) (dyadic b e) = Some (a ?= b).
Proof.
  intros Ha Hb.
  destruct a as [|p|p], b as [|q|q]; try reflexivity.
  - unfold dyadic, SFcompare. change (Zpos p <? 0) with false.
    change (Zpos q <? 0) with false. cbv iota. f_equal.
    rewrite !Z.abs_eq by lia. apply compare_magnitude; lia.
  - unfold dyadic, SFcompare. change (Zneg p <? 0) with true.
    change (Zneg q <? 0) with true. cbv iota. f_equal.
    change (Z.abs (Zneg p)) with (Zpos p). change (Z.abs (Zneg q)) with (Zpos q).
    change (Zdigits2 (Zneg p)) with (Zdigits2 (Zpos p)).
    change (Zdigits2 (Zneg q)) with (Zdigits2 (Zpos q)).
    pose proof (compare_magnitude (Zpos p) (Zpos q) e ltac:(lia) ltac:(lia)) as H.
    change (Zneg p ?= Zneg q) with (CompOpp (Zpos p ?= Zpos q)).
    rewrite <- H.
    now destruct (Zdigits2 (Zpos p) - prec + e ?= Zdigits2 (Zpos q) - prec + e).
Qed.

Lemma lt_dyadic a b e :
  Z.abs a < 2 ^ prec -> Z.abs b < 2 ^ prec ->
  lt (dyadic a e) (dyadic b e) = (a <? b).
Proof.
  intros Ha Hb. unfold lt, SFltb. rewrite compare_dyadic by assumption.
  unfold Z.ltb. now destruct (a ?= b).
Qed.

Lemma gt_dyadic a b e :
  Z.abs a < 2 ^ prec -> Z.abs b < 2 ^ prec ->
  gt (dyadic a e) (dyadic b e) = (b <? a).
Proof. intros Ha Hb. now apply lt_dyadic. Qed.

Lemma eq_dyadic a b e :
  Z.abs a < 2 ^ prec -> Z.abs b < 2 ^ prec ->
  eq (dyadic a e) (dyadic b e) = (a =? b).
Proof.
  intros Ha Hb. unfold eq, SFeqb. rewrite compare_dyadic by assumption.
  destruct (Z.compare_spec a b), (Z.eqb_spec a b); try reflexivity; lia.
Qed.

(** Comparing the other way round gives the opposite answer. *)
Lemma SFcompare_antisym a b :
  SFcompare b a = option_map CompOpp (SFcompare a b).
Proof.
  destruct a as [[]|[]| |[] ma ea], b as [[]|[]| |[] mb eb]; try reflexivity;
    cbn [SFcompare option_map]; f_equal;
    rewrite (Z.compare_antisym ea eb);
    pose proof (Pos.compare_cont_antisym ma mb Eq) as H; cbn [CompOpp] in H;
    rewrite <- H;
    destruct (ea ?= eb); cbn [CompOpp]; try reflexivity;
    now destruct (Pos.compare_cont Eq ma mb).
Qed.

Lemma SFcompare_defined a b :
  isNaN a = false -> isNaN b = false -> exists c, SFcompare a b = Some c.
Proof.
  destruct a, b; cbn [isNaN]; try discriminate; intros _ _; eexists; reflexivity.
Qed.

(** Of two numbers that are not NaN, one is greater or they are equal. *)
Lemma trichotomy a b :
  isNaN a = false -> isNaN b = false ->
  (gt a b = true /\ gt b a = false /\ eq a b = false)
  \/ (gt a b = false /\ gt b a = true /\ eq a b = false)
  \/ (gt a b = false /\ gt b a = false /\ eq a b = true).
Proof.
  intros Ha Hb. destruct (SFcompare_defined a b Ha Hb) as [c Hc].
  unfold gt, eq, SFltb, SFeqb. rewrite (SFcompare_antisym a b), Hc.
  destruct c; cbn; tauto.
Qed.

(** *** Rounding never produces NaN *)

Lemma shr_1_nonneg r : 0 <= shr_m r -> 0 <= shr_m (shr_1 r).
Proof. destruct r as [[|[p|p|]|[p|p|]] ? ?]; cbn; lia. Qed.

Lemma shr_nonneg r e n : 0 <= shr_m r -> 0 <= shr_m (fst (shr r e n)).
Proof.
  intros H. destruct n as [|p|p]; try assumption.
  cbn [shr fst]. rewrite iter_pos_nat.
  induction (Pos.to_nat p) as [|k IH]; [assumption|].
  cbn [Nat.iter nat_rect]. now apply shr_1_nonneg.
Qed.

Lemma shr_fexp_nonneg m e l :
  0 <= m -> 0 <= shr_m (fst (shr_fexp prec emax m e l)).
Proof.
  intros H. unfold shr_fexp. apply shr_nonneg.
  now destruct l as [|[]].
Qed.

Lemma round_nearest_even_nonneg m l : 0 <= m -> 0 <= round_nearest_even m l.
Proof.
  intros H. unfold round_nearest_even.
  destruct l as [|[]]; try destruct (Z.even m); lia.
Qed.

Lemma binary_round_aux_not_nan s m e l :
  0 <= m -> isNaN (binary_round_aux prec emax s m e l) = false.
Proof.
  intros H. unfold binary_round_aux.
  pose proof (shr_fexp_nonneg m e l H) as H1.
  destruct (shr_fexp prec emax m e l) as [mrs' e']. cbn [fst] in H1.
  pose proof (shr_fexp_nonneg _ e' loc_Exact
                (round_nearest_even_nonneg _ (loc_of_shr_record mrs') H1)) as H2.
  destruct (shr_fexp prec emax _ e' loc_Exact) as [mrs'' e'']. cbn [fst] in H2.
  destruct (shr_m mrs''); try lia; try reflexivity.
  now destruct (e'' <=? emax - prec).
Qed.

Lemma div_not_nan x y :
  isFinite x = true -> isFiniteNonzero y = true -> isNaN (div x y) = false.
Proof.
  destruct x as [sx|sx| |sx mx ex], y as [sy|sy| |sy my ey];
    cbn [isFinite isFiniteNonzero]; try discriminate; intros _ _;
    try reflexivity.
  unfold div, SFdiv, SFdiv_core_binary.
  set (m' := match _ - _ - _ with 0 => Zpos mx | Zpos _ => _ | Zneg _ => 0 end).
  assert (Hm : 0 <= m').
  { unfold m'. destruct (_ - _ - _); try lia.
    apply Z.shiftl_nonneg. lia. }
  pose proof (Z.div_pos m' (Zpos my) Hm ltac:(lia)) as Hq.
  unfold Z.div in Hq. destruct (Z.div_eucl m' (Zpos my)) as [q r].
  now apply binary_round_aux_not_nan.
Qed.

Lemma mul_not_nan x y :
  isNaN x = false -> isFiniteNonzero y = true -> isNaN (mul x y) = false.
Proof.
  destruct x as [sx|sx| |sx mx ex], y as [sy|sy| |sy my ey];
    cbn [isNaN isFiniteNonzero]; try discriminate; intros _ _;
    try reflexivity.
  unfold mul, SFmul. apply binary_round_aux_not_nan. lia.
Qed.

Lemma dyadic_isFinite z e : isFinite (dyadic z e) = true.
Proof. now destruct z. Qed.

Lemma dyadic_isFiniteNonzero z e : z <> 0 -> isFiniteNonzero (dyadic z e) = true.
Proof. now destruct z. Qed.

(** *** Rounding to nearest *)

Lemma shr_1_div2 m r s :
  0 <= m ->
  shr_1 {| shr_m := m; shr_r := r; shr_s := s |}
  = {| shr_m := m / 2; shr_r := Z.odd m; shr_s := r || s |}.
Proof.
  intros Hm. destruct m as [|[p|p|]|p]; try lia; try reflexivity.
  - cbn [shr_1]. f_equal.
    rewrite Pos2Z.inj_xI. symmetry.
    rewrite Z.add_comm, Z.mul_comm. rewrite Z.div_add by lia. reflexivity.
  - cbn [shr_1]. f_equal.
    rewrite Pos2Z.inj_xO. symmetry. rewrite Z.mul_comm. apply Z.div_mul. lia.
Qed.

Lemma shifted_first P :
  0 <= P ->
  shifted P 1 (shr_1 {| shr_m := P; shr_r := false; shr_s := false |}).
Proof.
  intros HP. rewrite shr_1_div2 by assumption.
  exists (P mod 2). cbn [shr_m shr_r shr_s].
  pose proof (Z.mod_pos_bound P 2 ltac:(lia)) as Hb.
  pose proof (Z.div_mod P 2 ltac:(lia)) as Hd.
  change (2 ^ 1) with 2. change (2 ^ (1 - 1)) with 1.
  rewrite Zodd_mod.
  repeat split; lia.
Qed.

Lemma shifted_next P n rec :
  1 <= n -> 0 <= shr_m rec -> shifted P n rec -> shifted P (n + 1) (shr_1 rec).
Proof.
  intros Hn Hm (rho & Hrho & HP & Hr & Hs).
  destruct rec as [m r s]. cbn [shr_m shr_r shr_s] in *.
  rewrite shr_1_div2 by assumption. unfold shifted. cbn [shr_m shr_r shr_s].
  replace (n + 1 - 1) with n by lia.
  assert (Hpow : 2 ^ (n + 1) = 4 * 2 ^ (n - 1)).
  { replace (n + 1) with ((n - 1) + 2) by lia. rewrite Z.pow_add_r by lia.
    change (2 ^ 2) with 4. lia. }
  assert (Hpow' : 2 ^ n = 2 * 2 ^ (n - 1)).
  { replace n with ((n - 1) + 1) at 1 by lia. rewrite Z.pow_add_r by lia. lia. }
  assert (Hp : 0 < 2 ^ (n - 1)) by (apply Z.pow_pos_nonneg; lia).
  rewrite Hpow. rewrite Hpow' in Hrho, HP. rewrite Hpow'. clear Hpow Hpow'.
  set (X := 2 ^ (n - 1)) in *. clearbody X.
  pose proof (Z.mod_pos_bound m 2 ltac:(lia)) as Hb.
  pose proof (Z.div_mod m 2 ltac:(lia)) as Hd.
  rewrite Zodd_mod, Hr, Hs.
  set (q := m / 2) in *. set (b := m mod 2) in *. clearbody q b. subst m.
  exists (b * (2 * X) + rho).
  assert (Hb01 : b = 0 \/ b = 1) by lia.
  destruct Hb01; subst b; repeat split; lia.
Qed.

Lemma shifted_iter P k :
  0 <= P ->
  shifted P (Z.of_nat (S k))
    (Nat.iter (S k) shr_1 {| shr_m := P; shr_r := false; shr_s := false |})
  /\ 0 <= shr_m (Nat.iter (S k) shr_1
                   {| shr_m := P; shr_r := false; shr_s := false |}).
Proof.
  intros HP. induction k as [|k [IH Hnn]].
  - split; [now apply shifted_first|]. cbn [Nat.iter nat_rect].
    now apply shr_1_nonneg.
  - split.
    + replace (Z.of_nat (S (S k))) with (Z.of_nat (S k) + 1) by lia.
      change (Nat.iter (S (S k)) shr_1 ?x) with (shr_1 (Nat.iter (S k) shr_1 x)).
      apply shifted_next; try assumption. lia.
    + change (Nat.iter (S (S k)) shr_1 ?x) with (shr_1 (Nat.iter (S k) shr_1 x)).
      now apply shr_1_nonneg.
Qed.

(** Shifting by [n >= 1] and rounding to nearest, ties to even, moves the
    mantissa by at most half a unit of the last place. *)
Lemma shr_round P e n :
  0 <= P -> 1 <= n ->
  let rec := fst (shr {| shr_m := P; shr_r := false; shr_s := false |} e n) in
  let m' := round_nearest_even (shr_m rec) (loc_of_shr_record rec) in
  snd (shr {| shr_m := P; shr_r := false; shr_s := false |} e n) = e + n
  /\ P / 2 ^ n <= m' <= P / 2 ^ n + 1
  /\ 2 * Z.abs (m' * 2 ^ n - P) <= 2 ^ n.
Proof.
  intros HP Hn. destruct n as [|p|p]; try lia.
  cbn [shr fst snd]. rewrite iter_pos_nat.
  destruct (Pos2Nat.is_succ p) as [k Hk]. rewrite Hk.
  destruct (shifted_iter P k HP) as [(rho & Hrho & HPeq & Hr & Hs) Hnn].
  replace (Z.of_nat (S k)) with (Zpos p) in * by lia.
  set (rec := Nat.iter (S k) shr_1 _) in *.
  destruct rec as [m r s]. cbn [shr_m shr_r shr_s] in *.
  assert (Hpow : 2 ^ Zpos p = 2 * 2 ^ (Zpos p - 1)).
  { replace (Zpos p) with ((Zpos p - 1) + 1) at 1 by lia.
    rewrite Z.pow_add_r by lia. lia. }
  assert (Hp : 0 < 2 ^ (Zpos p - 1)) by (apply Z.pow_pos_nonneg; lia).
  assert (Hq : P / 2 ^ Zpos p = m).
  { symmetry. apply (Z.div_unique_pos P (2 ^ Zpos p) m rho); lia. }
  rewrite Hq. split; [reflexivity|].
  subst r s.
  destruct (Z.leb_spec (2 ^ (Zpos p - 1)) rho), (Z.eqb_spec rho 0),
    (Z.eqb_spec rho (2 ^ (Zpos p - 1)));
    cbn [orb negb loc_of_shr_record round_nearest_even];
    try destruct (Z.even m); split; try lia; try nia.
Qed.

(** Shifting by [n >= 1] and rounding: on a tie the even mantissa is taken. *)
Lemma shr_round_even P e n :
  0 <= P -> 1 <= n ->
  let rec := fst (shr {| shr_m := P; shr_r := false; shr_s := false |} e n) in
  let m' := round_nearest_even (shr_m rec) (loc_of_shr_record rec) in
  2 * Z.abs (m' * 2 ^ n - P) = 2 ^ n -> Z.even m' = true.
Proof.
  intros HP Hn. destruct n as [|p|p]; try lia.
  cbn [shr fst snd]. rewrite iter_pos_nat.
  destruct (Pos2Nat.is_succ p) as [k Hk]. rewrite Hk.
  destruct (shifted_iter P k HP) as [(rho & Hrho & HPeq & Hr & Hs) Hnn].
  replace (Z.of_nat (S k)) with (Zpos p) in * by lia.
  set (rec := Nat.iter (S k) shr_1 _) in *.
  destruct rec as [m r s]. cbn [shr_m shr_r shr_s] in *.
  assert (Hpow : 2 ^ Zpos p = 2 * 2 ^ (Zpos p - 1)).
  { replace (Zpos p) with ((Zpos p - 1) + 1) at 1 by lia.
    rewrite Z.pow_add_r by lia. lia. }
  assert (Hp : 0 < 2 ^ (Zpos p - 1)) by (apply Z.pow_pos_nonneg; lia).
  subst r s. rewrite Hpow in *. set (X := 2 ^ (Zpos p - 1)) in *. clearbody X.
  destruct (Z.leb_spec X rho), (Z.eqb_spec rho 0), (Z.eqb_spec rho X);
    cbn [orb negb loc_of_shr_record round_nearest_even];
    try (destruct (Z.even m) eqn:Hev); intros Htie; try lia; try nia;
    try reflexivity; try assumption.
  rewrite Z.even_add, Hev. reflexivity.
Qed.

(** The result of rounding a mantissa [P] of more than 53 digits (in the
    normal range): a 53-digit mantissa [z] at a larger exponent [e], within
    half a unit of the last place of [P]; half-way cases go to the even
    mantissa, and the mantissa [2^52] is either not above [P] or the result
    of rounding up into the next exponent. *)
Lemma binary_round_aux_interval s P E :
  0 < P -> Num.prec < Zdigits2 P ->
  emin Num.prec Num.emax <= Zdigits2 P + E - Num.prec ->
  Zdigits2 P + E - Num.prec + 1 <= Num.emax - Num.prec ->
  exists z e,
    2 ^ (Num.prec - 1) <= z < 2 ^ Num.prec
    /\ E + (Zdigits2 P - Num.prec) <= e <= E + (Zdigits2 P - Num.prec) + 1
    /\ binary_round_aux Num.prec Num.emax s P E loc_Exact
       = S754_finite s (Z.to_pos z) e
    /\ 2 * Z.abs (z * 2 ^ (e - E) - P) <= 2 ^ (Zdigits2 P - Num.prec)
    /\ (2 ^ (Zdigits2 P - Num.prec) | z * 2 ^ (e - E))
    /\ (2 * Z.abs (z * 2 ^ (e - E) - P) = 2 ^ (e - E) -> Z.even z = true)
    /\ (z = 2 ^ (Num.prec - 1) ->
        z * 2 ^ (e - E) <= P \/ e = E + (Zdigits2 P - Num.prec) + 1).
Proof.
  intros HP Hd Hmin Hmax.
  set (d := Zdigits2 P) in *. set (n := d - Num.prec).
  assert (Hn : 1 <= n) by (unfold n; lia).
  pose proof (Zdigits2_bounds P HP) as [Hlo Hhi]. fold d in Hlo, Hhi.
  assert (Hpn : 0 < 2 ^ n) by (apply Z.pow_pos_nonneg; lia).
  assert (Hsplit : 2 ^ (d - 1) = 2 ^ n * 2 ^ (Num.prec - 1)).
  { rewrite pow2_add by (unfold Num.prec; lia). f_equal. unfold n. lia. }
  assert (Hsplit' : 2 ^ d = 2 ^ n * 2 ^ Num.prec).
  { rewrite pow2_add by (unfold Num.prec; lia). f_equal. unfold n. lia. }
  assert (Hq : 2 ^ (Num.prec - 1) <= P / 2 ^ n < 2 ^ Num.prec).
  { split.
    - apply Z.div_le_lower_bound; [assumption|]. lia.
    - apply Z.div_lt_upper_bound; [assumption|]. lia. }
  unfold binary_round_aux, shr_fexp. fold d.
  rewrite fexp_eq by assumption.
  replace (d + E - Num.prec - E) with n by (unfold n; lia).
  cbn [shr_record_of_loc].
  destruct (shr_round P E n (Z.lt_le_incl _ _ HP) Hn) as (He & Hm' & Hnear).
  pose proof (shr_round_even P E n (Z.lt_le_incl _ _ HP) Hn) as Heven.
  destruct (shr {| shr_m := P; shr_r := false; shr_s := false |} E n)
    as [rec e'].
  cbn [fst snd] in He, Hm', Hnear, Heven. subst e'.
  set (m' := round_nearest_even (shr_m rec) (loc_of_shr_record rec)) in *.
  clearbody m'. clear rec.
  destruct (Z.eq_dec m' (2 ^ Num.prec)) as [Heq|Hneq].
  - (* the mantissa rounds up to 2^53 *)
    exists (2 ^ (Num.prec - 1)), (E + n + 1). subst m'.
    assert (Hdig : Zdigits2 (2 ^ Num.prec) = Num.prec + 1) by reflexivity.
    rewrite Hdig.
    rewrite fexp_eq by (unfold n; lia).
    replace (Num.prec + 1 + (E + n) - Num.prec - (E + n)) with 1 by lia.
    change (2 ^ Num.prec) with (2 ^ (Num.prec - 1) * 2 ^ 1) at 2.
    rewrite shr_exact by (try lia; reflexivity).
    cbn [shr_m].
    assert (Hover : (E + n + 1 <=? Num.emax - Num.prec) = true)
      by (apply Z.leb_le; unfold n; lia).
    change (2 ^ (Num.prec - 1)) with 4503599627370496 at 1.
    cbv iota. rewrite Hover.
    replace (E + n + 1 - E) with (1 + n) by lia.
    rewrite <- pow2_add by lia.
    split; [split; [apply Z.le_refl|reflexivity]|]. split; [unfold n; lia|].
    split; [reflexivity|].
    replace (2 ^ (Num.prec - 1) * (2 ^ 1 * 2 ^ n)) with (2 ^ Num.prec * 2 ^ n)
      by (change (2 ^ Num.prec) with (2 ^ (Num.prec - 1) * 2 ^ 1); ring).
    split; [exact Hnear|]. split; [exists (2 ^ Num.prec); reflexivity|].
    split; [reflexivity|]. intros _. right. unfold n. lia.
  - exists m', (E + n).
    assert (Hm'b : 2 ^ (Num.prec - 1) <= m' < 2 ^ Num.prec) by lia.
    rewrite (Zdigits2_unique m' Num.prec) by (try assumption; reflexivity).
    rewrite fexp_eq by (unfold n; lia).
    replace (Num.prec + (E + n) - Num.prec - (E + n)) with 0 by lia.
    cbn [shr_record_of_loc shr shr_m].
    assert (Hover : (E + n <=? Num.emax - Num.prec) = true)
      by (apply Z.leb_le; unfold n; lia).
    assert (Hpos : 0 < m').
    { assert (0 < 2 ^ (Num.prec - 1)) by reflexivity. lia. }
    destruct m' as [|p|p]; try lia. rewrite Hover.
    replace (E + n - E) with n by lia.
    split; [exact Hm'b|]. split; [unfold n; lia|]. split; [reflexivity|].
    split; [exact Hnear|]. split; [exists (Zpos p); reflexivity|].
    split; [exact Heven|]. intros Hz. left. rewrite Hz. lia.
Qed.

(** The result of rounding a mantissa [P] of more than 53 digits (in the
    normal range): a 53-digit mantissa [z] at a larger exponent [e], within
    half a unit of the last place of [P]. *)
Lemma binary_round_aux_nearest s P E :
  0 < P -> Num.prec < Zdigits2 P ->
  emin Num.prec Num.emax <= Zdigits2 P + E - Num.prec ->
  Zdigits2 P + E - Num.prec + 1 <= Num.emax - Num.prec ->
  exists z e,
    2 ^ (Num.prec - 1) <= z < 2 ^ Num.prec
    /\ E < e <= E + (Zdigits2 P - Num.prec) + 1
    /\ binary_round_aux Num.prec Num.emax s P E loc_Exact
       = S754_finite s (Z.to_pos z) e
    /\ 2 * Z.abs (z * 2 ^ (e - E) - P) <= 2 ^ (Zdigits2 P - Num.prec)
    /\ (2 ^ (Zdigits2 P - Num.prec) | z * 2 ^ (e - E)).
Proof.
  intros HP Hd Hmin Hmax.
  destruct (binary_round_aux_interval s P E HP Hd Hmin Hmax)
    as (z & e & Hz & He & Hr & Hnear & Hdiv & _).
  exists z, e. split; [exact Hz|]. split; [lia|]. split; [exact Hr|].
  split; [exact Hnear|exact Hdiv].
Qed.

(** *** Comparing values at different exponents *)

Lemma compare_scale a b x : 0 < x -> (a * x ?= b * x) = (a ?= b).
Proof.
  intros Hx.
  destruct (Z.compare_spec a b), (Z.compare_spec (a * x) (b * x));
    try reflexivity; nia.
Qed.

Lemma compare_magnitude_gen a b ea eb :
  0 < a < 2 ^ Num.prec -> 0 < b < 2 ^ Num.prec ->
  match Zdigits2 a - Num.prec + ea ?= Zdigits2 b - Num.prec + eb with
  | Eq =>
      Pos.compare_cont Eq
        (Z.to_pos (a * 2 ^ (Num.prec - Zdigits2 a)))
        (Z.to_pos (b * 2 ^ (Num.prec - Zdigits2 b)))
  | Lt => Lt
  | Gt => Gt
  end
  = (a * 2 ^ (ea - Z.min ea eb) ?= b * 2 ^ (eb - Z.min ea eb)).
Proof.
  intros Ha Hb.
  pose proof (Zdigits2_le_prec _ Ha) as Hda.
  pose proof (Zdigits2_le_prec _ Hb) as Hdb.
  pose proof (mantissa_pos _ Ha) as HQa.
  pose proof (mantissa_pos _ Hb) as HQb.
  set (m := Z.min ea eb).
  assert (Hm : m <= ea /\ m <= eb) by (unfold m; lia).
  set (A := a * 2 ^ (ea - m)). set (B := b * 2 ^ (eb - m)).
  assert (HA : 0 < A) by (apply Z.mul_pos_pos; [lia|apply Z.pow_pos_nonneg; lia]).
  assert (HB : 0 < B) by (apply Z.mul_pos_pos; [lia|apply Z.pow_pos_nonneg; lia]).
  assert (HdA : Zdigits2 A = Zdigits2 a + (ea - m))
    by (apply Zdigits2_shift; lia).
  assert (HdB : Zdigits2 B = Zdigits2 b + (eb - m))
    by (apply Zdigits2_shift; lia).
  pose proof (Zdigits2_bounds A HA) as [HAl HAu].
  pose proof (Zdigits2_bounds B HB) as [HBl HBu].
  destruct (Z.compare_spec (Zdigits2 a - Num.prec + ea)
              (Zdigits2 b - Num.prec + eb)) as [Heq|Hlt|Hgt].
  - change (Pos.compare_cont Eq ?x ?y) with (Pos.compare x y).
    rewrite <- Z2Pos.inj_compare by assumption.
    set (j := Num.prec - Zdigits2 a - (ea - m)).
    assert (Hjb : j = Num.prec - Zdigits2 b - (eb - m)) by (unfold j; lia).
    destruct (Z.le_gt_cases 0 j) as [Hj|Hj].
    + replace (a * 2 ^ (Num.prec - Zdigits2 a)) with (A * 2 ^ j).
      2:{ unfold A. rewrite <- Z.mul_assoc, pow2_add by lia.
          f_equal. f_equal. unfold j. lia. }
      replace (b * 2 ^ (Num.prec - Zdigits2 b)) with (B * 2 ^ j).
      2:{ unfold B. rewrite <- Z.mul_assoc, pow2_add by lia.
          f_equal. f_equal. lia. }
      apply compare_scale. apply Z.pow_pos_nonneg; lia.
    + replace A with (a * 2 ^ (Num.prec - Zdigits2 a) * 2 ^ (- j)).
      2:{ unfold A. rewrite <- Z.mul_assoc, pow2_add by lia.
          f_equal. f_equal. unfold j. lia. }
      replace B with (b * 2 ^ (Num.prec - Zdigits2 b) * 2 ^ (- j)).
      2:{ unfold B. rewrite <- Z.mul_assoc, pow2_add by lia.
          f_equal. f_equal. lia. }
      symmetry. apply compare_scale. apply Z.pow_pos_nonneg; lia.
  - symmetry. apply Z.compare_lt_iff.
    assert (2 ^ Zdigits2 A <= 2 ^ (Zdigits2 B - 1))
      by (apply Z.pow_le_mono_r; lia).
    lia.
  - symmetry. apply Z.compare_gt_iff.
    assert (2 ^ Zdigits2 B <= 2 ^ (Zdigits2 A - 1))
      by (apply Z.pow_le_mono_r; lia).
    lia.
Qed.

(** The order of two exactly representable values is the order of their
    mantissas brought to the smaller exponent. *)
Lemma compare_dyadic_gen a b ea eb :
  Z.abs a < 2 ^ Num.prec -> Z.abs b < 2 ^ Num.prec ->
  SFcompare (dyadic a ea) (dyadic b eb)
  = Some (a * 2 ^ (ea - Z.min ea eb) ?= b * 2 ^ (eb - Z.min ea eb)).
Proof.
  intros Ha Hb.
  assert (Hpa : 0 < 2 ^ (ea - Z.min ea eb)) by (apply Z.pow_pos_nonneg; lia).
  assert (Hpb : 0 < 2 ^ (eb - Z.min ea eb)) by (apply Z.pow_pos_nonneg; lia).
  destruct a as [|p|p], b as [|q|q];
    try (cbn [dyadic SFcompare Z.ltb Z.compare]; f_equal; symmetry;
         first [ reflexivity
               | apply Z.compare_lt_iff; lia
               | apply Z.compare_gt_iff; lia ]).
  - unfold dyadic, SFcompare. change (Zpos p <? 0) with false.
    change (Zpos q <? 0) with false. cbv iota. f_equal.
    rewrite !Z.abs_eq by lia. apply compare_magnitude_gen; lia.
  - unfold dyadic, SFcompare. change (Zneg p <? 0) with true.
    change (Zneg q <? 0) with true. cbv iota. f_equal.
    change (Z.abs (Zneg p)) with (Zpos p). change (Z.abs (Zneg q)) with (Zpos q).
    change (Zdigits2 (Zneg p)) with (Zdigits2 (Zpos p)).
    change (Zdigits2 (Zneg q)) with (Zdigits2 (Zpos q)).
    pose proof (compare_magnitude_gen (Zpos p) (Zpos q) ea eb
                  ltac:(lia) ltac:(lia)) as H.
    change (Zneg p) with (- Zpos p). change (Zneg q) with (- Zpos q).
    rewrite !Z.mul_opp_l, Z.compare_opp.
    rewrite (Z.compare_antisym (Zpos p * 2 ^ (ea - Z.min ea eb))
               (Zpos q * 2 ^ (eb - Z.min ea eb))), <- H.
    now destruct (Zdigits2 (Zpos p) - Num.prec + ea
                  ?= Zdigits2 (Zpos q) - Num.prec + eb).
Qed.

(** *** The threshold 1.2 on integers *)

Lemma threshold_arith T U V n :
  n = 52 \/ n = 53 ->
  2 ^ 52 <= T < 2 ^ 53 ->
  2 * Z.abs (V - T * mantissa_1_2) <= 2 ^ n ->
  (2 ^ n | V) -> (2 | U) ->
  (6 * T < 5 * U -> 6 * T + 8 <= 5 * U) ->
  (5 * U < 6 * T -> 5 * U + 8 <= 6 * T) ->
  (V ?= U * 2 ^ 52) = (6 * T ?= 5 * U).
Proof.
  intros Hn HT Hnear [v Hv] [w Hw] Hlt Hgt. unfold mantissa_1_2 in Hnear.
  change (2 ^ 52) with 4503599627370496 in *.
  change (2 ^ 53) with 9007199254740992 in *.
  destruct Hn; subst n;
    [change (2 ^ 52) with 4503599627370496 in *
    |change (2 ^ 53) with 9007199254740992 in *];
    subst V U;
    destruct (Z.compare_spec (6 * T) (5 * (w * 2)));
    [apply Z.compare_eq_iff|apply Z.compare_lt_iff|apply Z.compare_gt_iff
    |apply Z.compare_eq_iff|apply Z.compare_lt_iff|apply Z.compare_gt_iff];
    lia.
Qed.

Lemma finite_dyadic s z e :
  2 ^ (Num.prec - 1) <= z < 2 ^ Num.prec ->
  S754_finite s (Z.to_pos z) e = dyadic (cond_Zopp s z) e.
Proof.
  intros Hz.
  assert (Hpos : 0 < z) by (assert (0 < 2 ^ (Num.prec - 1)) by reflexivity; lia).
  assert (Hd : Zdigits2 z = Num.prec)
    by (apply Zdigits2_unique; [assumption|reflexivity]).
  assert (Hne : cond_Zopp s z <> 0) by (destruct s; cbn [cond_Zopp]; lia).
  rewrite dyadic_finite by assumption.
  assert (Hdz : Zdigits2 (cond_Zopp s z) = Num.prec)
    by (destruct s; cbn [cond_Zopp]; rewrite ?Zdigits2_opp; assumption).
  assert (Habs : Z.abs (cond_Zopp s z) = z)
    by (destruct s; cbn [cond_Zopp]; lia).
  assert (Hs : (cond_Zopp s z <? 0) = s).
  { destruct s; cbn [cond_Zopp]; [apply Z.ltb_lt|apply Z.ltb_ge]; lia. }
  rewrite Hdz, Habs, Hs, Z.sub_diag. change (2 ^ 0) with 1.
  now rewrite Z.mul_1_r.
Qed.

(** The product of a positive integer [a] by the literal [1.2], rounded: it
    compares with an integer [w] as [6 * a] compares with [5 * w]. *)
Lemma times_1_2 a s :
  0 < a <= 2 ^ 40 ->
  exists z e,
    2 ^ (Num.prec - 1) <= z < 2 ^ Num.prec
    /\ e <= 0
    /\ Num.mul
         (S754_finite s (Z.to_pos (a * 2 ^ (Num.prec - Zdigits2 a)))
            (Zdigits2 a - Num.prec + 0))
         1.2%num
       = S754_finite s (Z.to_pos z) e
    /\ forall w, (z ?= w * 2 ^ (- e)) = (6 * a ?= 5 * w).
Proof.
  intros Ha.
  assert (Hfit : 0 < a < 2 ^ Num.prec).
  { change (2 ^ Num.prec) with (2 ^ 40 * 8192). lia. }
  set (d := Zdigits2 a).
  assert (Hd : 0 < d <= 41).
  { split; [apply Zdigits2_pos; lia|].
    apply Zdigits2_le_iff; lia. }
  set (G := 2 ^ (Num.prec - d)).
  assert (HG : 8 <= G).
  { change 8 with (2 ^ 3). apply Z.pow_le_mono_r; unfold Num.prec; lia. }
  assert (HGeven : G = 2 * 2 ^ (Num.prec - d - 1)).
  { unfold G. change 2 with (2 ^ 1) at 2.
    rewrite pow2_add by (unfold Num.prec; lia). f_equal. lia. }
  set (T := a * G).
  assert (HTd : Zdigits2 T = Num.prec) by (apply mantissa_digits; assumption).
  assert (HTpos : 0 < T) by (apply mantissa_pos; assumption).
  assert (HT : 2 ^ 52 <= T < 2 ^ 53).
  { pose proof (Zdigits2_bounds T HTpos) as HB. rewrite HTd in HB. exact HB. }
  unfold Num.mul, SFmul. rewrite xorb_false_r.
  rewrite Pos2Z.inj_mul, Z2Pos.id by assumption.
  fold d G T. change (Zpos 5404319552844595) with mantissa_1_2.
  set (P := T * mantissa_1_2). set (E := d - Num.prec + 0 + -52).
  assert (HPpos : 0 < P) by (unfold P, mantissa_1_2; lia).
  assert (HdP : 105 <= Zdigits2 P <= 106).
  { pose proof (Zdigits2_mul_lower T mantissa_1_2 HTpos ltac:(reflexivity)) as Hl.
    pose proof (Zdigits2_mul_upper T mantissa_1_2 HTpos ltac:(reflexivity)) as Hu.
    rewrite HTd in Hl, Hu. change (Zdigits2 mantissa_1_2) with 53 in Hl, Hu.
    fold P in Hl, Hu. change Num.prec with 53 in Hl, Hu.
    clear - Hl Hu. split; [exact Hl|exact Hu]. }
  destruct (binary_round_aux_nearest s P E HPpos) as (z & e & Hz & He & Hr & Hnear & Hdiv).
  { unfold Num.prec. lia. }
  { unfold E, emin, Num.emax, Num.prec. lia. }
  { unfold E, Num.emax, Num.prec. lia. }
  exists z, e. split; [exact Hz|].
  assert (He0 : e <= 0) by (unfold E in *; unfold Num.prec in *; lia).
  split; [exact He0|]. split; [exact Hr|].
  intros w.
  assert (HX : 0 < 2 ^ (e - E)) by (apply Z.pow_pos_nonneg; lia).
  rewrite <- (compare_scale z (w * 2 ^ (- e)) (2 ^ (e - E)) HX).
  replace (w * 2 ^ (- e) * 2 ^ (e - E)) with (w * G * 2 ^ 52).
  2:{ rewrite <- !Z.mul_assoc. f_equal. unfold G.
      rewrite !pow2_add by (unfold Num.prec, E in *; lia).
      f_equal. unfold E, Num.prec. lia. }
  rewrite (threshold_arith T (w * G) (z * 2 ^ (e - E)) (Zdigits2 P - Num.prec)).
  - unfold T. rewrite !Z.mul_assoc. apply compare_scale. lia.
  - unfold Num.prec. lia.
  - exact HT.
  - exact Hnear.
  - exact Hdiv.
  - exists (w * 2 ^ (Num.prec - d - 1)). rewrite HGeven. ring.
  - intros Hlt. unfold T in *.
    assert (6 * a < 5 * w) by nia.
    assert ((6 * a + 1) * G <= 5 * w * G) by (apply Z.mul_le_mono_nonneg_r; lia).
    lia.
  - intros Hgt. unfold T in *.
    assert (5 * w < 6 * a) by nia.
    assert ((5 * w + 1) * G <= 6 * a * G) by (apply Z.mul_le_mono_nonneg_r; lia).
    lia.
Qed.

Lemma compare_opp_flip a b c d :
  (a ?= - b) = (- c ?= - d) -> (- a ?= b) = (c ?= d).
Proof.
  intros H.
  destruct (Z.compare_spec a (- b)), (Z.compare_spec (- c) (- d));
    try discriminate;
    destruct (Z.compare_spec (- a) b), (Z.compare_spec c d);
    try reflexivity; lia.
Qed.

(** On integers, [u > t * 1.2] in binary64 arithmetic is [5 * u > 6 * t]:
    the rounding of the product never crosses an integer. *)
Lemma gt_times_1_2 t u :
  Z.abs t <= 2 ^ 40 -> Z.abs u < 2 ^ Num.prec ->
  (dyadic u 0 >? dyadic t 0 * 1.2)%num = (6 * t <? 5 * u).
Proof.
  intros Ht Hu.
  assert (Hcase : t = 0 \/ 0 < t \/ t < 0) by lia.
  destruct Hcase as [->|[Hpos|Hneg]].
  - change (dyadic 0 0 * 1.2)%num with (dyadic 0 0).
    rewrite gt_dyadic by (assumption || reflexivity).
    destruct (Z.ltb_spec 0 u), (Z.ltb_spec (6 * 0) (5 * u)); try reflexivity; lia.
  - destruct (times_1_2 t false ltac:(lia)) as (z & e & Hz & He & Hr & Hcmp).
    rewrite (dyadic_finite t) by lia.
    replace (t <? 0) with false by (symmetry; apply Z.ltb_ge; lia).
    rewrite Z.abs_eq by lia. rewrite Hr, finite_dyadic by assumption.
    cbn [cond_Zopp]. unfold Num.gt, SFltb.
    rewrite compare_dyadic_gen by (try assumption; rewrite Z.abs_eq; lia).
    replace (e - Z.min e 0) with 0 by lia.
    replace (0 - Z.min e 0) with (- e) by lia.
    change (2 ^ 0) with 1. rewrite Z.mul_1_r.
    rewrite Hcmp. unfold Z.ltb. now destruct (6 * t ?= 5 * u).
  - destruct (times_1_2 (- t) true ltac:(lia)) as (z & e & Hz & He & Hr & Hcmp).
    rewrite (dyadic_finite t) by lia.
    replace (t <? 0) with true by (symmetry; apply Z.ltb_lt; lia).
    rewrite Z.abs_neq by lia. rewrite Zdigits2_opp in Hr.
    rewrite Hr, finite_dyadic by assumption.
    cbn [cond_Zopp]. unfold Num.gt, SFltb.
    rewrite compare_dyadic_gen by (try assumption; rewrite Z.abs_opp, Z.abs_eq; lia).
    replace (e - Z.min e 0) with 0 by lia.
    replace (0 - Z.min e 0) with (- e) by lia.
    change (2 ^ 0) with 1. rewrite Z.mul_1_r.
    specialize (Hcmp (- u)).
    rewrite Z.mul_opp_l, !Z.mul_opp_r in Hcmp.
    apply compare_opp_flip in Hcmp. rewrite Hcmp.
    unfold Z.ltb. now destruct (6 * t ?= 5 * u).
Qed.

(** *** Rounding to nearest is monotone *)

Lemma locationCode_bounds l : 0 <= locationCode l <= 3.
Proof. destruct l as [|[]]; cbn; lia. Qed.

Lemma shr_1_twice q l :
  0 < q ->
  shr_1 (shr_1 {| shr_m := 4 * q + locationCode l; shr_r := false; shr_s := false |})
  = shr_record_of_loc q l.
Proof. destruct q; try lia. intros _. destruct l as [|[]]; reflexivity. Qed.

Lemma shr_two_more q l E n :
  0 < q -> 0 <= n ->
  shr {| shr_m := 4 * q + locationCode l; shr_r := false; shr_s := false |}
    (E - 2) (n + 2)
  = shr (shr_record_of_loc q l) E n.
Proof.
  intros Hq Hn. destruct n as [|p|p]; try lia.
  - cbn [Z.add shr iter_pos]. rewrite shr_1_twice by assumption.
    f_equal. lia.
  - change (Zpos p + 2) with (Zpos (p + 2)). cbn [shr].
    rewrite !iter_pos_nat, Pos2Nat.inj_add.
    change (Pos.to_nat 2) with 2%nat.
    rewrite Nat.iter_add. cbn [Nat.iter nat_rect].
    rewrite shr_1_twice by assumption. f_equal. lia.
Qed.

(** Rounding a quotient [q] with the location [l] of the exact value
    between [q] and [q + 1] is rounding the integer [4 * q + c], two binary
    places further, where [c] is 0, 1, 2 or 3 for an exact quotient, a
    remainder below, at and above one half. *)
Lemma binary_round_aux_location s q E l :
  0 < q -> Num.prec <= Zdigits2 q ->
  emin Num.prec Num.emax <= Zdigits2 q + E - Num.prec ->
  binary_round_aux Num.prec Num.emax s q E l
  = binary_round_aux Num.prec Num.emax s (4 * q + locationCode l) (E - 2)
      loc_Exact.
Proof.
  intros Hq Hd Hmin.
  pose proof (locationCode_bounds l) as Hc.
  pose proof (Zdigits2_bounds q Hq) as [Hlo Hhi].
  pose proof (Zdigits2_pos q Hq) as Hdp.
  assert (Hd4 : Zdigits2 (4 * q + locationCode l) = Zdigits2 q + 2).
  { apply Zdigits2_unique; [|lia].
    replace (Zdigits2 q + 2 - 1) with (2 + (Zdigits2 q - 1)) by lia.
    rewrite <- !pow2_add by lia. change (2 ^ 2) with 4. lia. }
  unfold binary_round_aux, shr_fexp. rewrite Hd4.
  replace (Zdigits2 q + 2 + (E - 2)) with (Zdigits2 q + E) by lia.
  rewrite fexp_eq by assumption.
  replace (Zdigits2 q + E - Num.prec - (E - 2))
    with (Zdigits2 q + E - Num.prec - E + 2) by lia.
  cbn [shr_record_of_loc].
  rewrite shr_two_more by lia. reflexivity.
Qed.

Lemma nearestEven_rescale N D k z e j :
  0 <= j -> nearestEven N D k z e -> nearestEven (N * 2 ^ j) D (k - j) z e.
Proof.
  intros Hj (Hz & Hk & [Hlo Hhi] & Hq & Ht). unfold nearestEven.
  replace (e - (k - j) - 2) with ((e - k - 2) + j) by lia.
  rewrite <- pow2_add by lia.
  set (u := 2 ^ (e - k - 2)) in *. set (J := 2 ^ j).
  assert (HJ : 0 < J) by (apply Z.pow_pos_nonneg; lia).
  assert (Hfac : forall c, D * (c * (u * J)) = D * (c * u) * J) by (intros; ring).
  rewrite !Hfac.
  split; [exact Hz|]. split; [lia|]. split; [split|split].
  - apply Z.mul_le_mono_nonneg_r; lia.
  - apply Z.mul_le_mono_nonneg_r; lia.
  - intros H. apply Z.mul_le_mono_nonneg_r; [lia|]. now apply Hq.
  - intros [H|H]; apply Ht; [left|right];
      apply (Z.mul_reg_r _ _ J); lia.
Qed.

Lemma nearestEven_cancel N D c k z e :
  0 < c -> nearestEven (N * c) (D * c) k z e -> nearestEven N D k z e.
Proof.
  intros Hc (Hz & Hk & [Hlo Hhi] & Hq & Ht). unfold nearestEven.
  set (u := 2 ^ (e - k - 2)) in *.
  assert (Hfac : forall x, D * c * x = D * x * c) by (intros; ring).
  rewrite !Hfac in *.
  split; [exact Hz|]. split; [exact Hk|]. split; [split|split].
  - apply (Z.mul_le_mono_pos_r _ _ c); assumption.
  - apply (Z.mul_le_mono_pos_r _ _ c); assumption.
  - intros H. apply (Z.mul_le_mono_pos_r _ _ c); [assumption|]. now apply Hq.
  - intros [H|H]; apply Ht; [left|right]; now rewrite H.
Qed.

(** Between a lower bound of a larger value and an upper bound of a smaller
    one there is no room. *)
Lemma squeeze D1 D2 N1 N2 A B :
  0 < D1 -> 0 < D2 -> D1 * A <= N1 -> N2 <= D2 * B -> N1 * D2 <= N2 * D1 ->
  B <= A -> B = A /\ N1 = D1 * A /\ N2 = D2 * B.
Proof.
  intros H1 H2 HA HB Hle HBA.
  assert (Ha : D1 * A * D2 <= N1 * D2) by (apply Z.mul_le_mono_nonneg_r; lia).
  assert (Hb : N2 * D1 <= D2 * B * D1) by (apply Z.mul_le_mono_nonneg_r; lia).
  assert (Hc : D1 * D2 * B <= D1 * D2 * A)
    by (apply Z.mul_le_mono_nonneg_l; [apply Z.mul_nonneg_nonneg|]; lia).
  assert (Hp : 0 < D1 * D2) by (apply Z.mul_pos_pos; lia).
  assert (HBA' : D1 * D2 * B = D1 * D2 * A) by lia.
  assert (Heq : B = A) by (apply (Z.mul_reg_l _ _ (D1 * D2)); lia).
  subst B. split; [reflexivity|]. split.
  - apply (Z.mul_reg_r _ _ D2); lia.
  - apply (Z.mul_reg_r _ _ D1); lia.
Qed.

(** Rounding to nearest is monotone. *)
Lemma nearestEven_monotone N1 D1 N2 D2 k z1 e1 z2 e2 :
  0 < D1 -> 0 < D2 ->
  nearestEven N1 D1 k z1 e1 -> nearestEven N2 D2 k z2 e2 ->
  N1 * D2 <= N2 * D1 ->
  z1 * 2 ^ (e1 - k) <= z2 * 2 ^ (e2 - k).
Proof.
  intros HD1 HD2 (Hz1 & Hk1 & [Hlo1 Hhi1] & Hq1 & Ht1)
    (Hz2 & Hk2 & [Hlo2 Hhi2] & Hq2 & Ht2) Hle.
  assert (Hprec : 2 ^ Num.prec = 2 * 2 ^ (Num.prec - 1)) by reflexivity.
  assert (HTpos : 0 < 2 ^ (Num.prec - 1)) by reflexivity.
  assert (HTeven : Z.even (2 * 2 ^ (Num.prec - 1) - 1) = false) by reflexivity.
  rewrite Hprec in *. set (T := 2 ^ (Num.prec - 1)) in *. clearbody T.
  replace (e1 - k) with (2 + (e1 - k - 2)) by lia.
  replace (e2 - k) with (2 + (e2 - k - 2)) by lia.
  rewrite <- !pow2_add by lia. change (2 ^ 2) with 4.
  set (u1 := 2 ^ (e1 - k - 2)) in *. set (u2 := 2 ^ (e2 - k - 2)) in *.
  assert (Hu1 : 0 < u1) by (apply Z.pow_pos_nonneg; lia).
  assert (Hu2 : 0 < u2) by (apply Z.pow_pos_nonneg; lia).
  destruct (Z.le_gt_cases (z1 * (4 * u1)) (z2 * (4 * u2))) as [|Hgt];
    [assumption|exfalso].
  destruct (Z.lt_trichotomy e1 e2) as [Hlt|[Heq|Hlt]].
  - (* the first exponent is smaller: the first number is smaller *)
    assert (HJ : u2 = u1 * 2 ^ (e2 - e1)).
    { unfold u1, u2. rewrite pow2_add by lia. f_equal. lia. }
    assert (2 ^ 1 <= 2 ^ (e2 - e1)) by (apply Z.pow_le_mono_r; lia).
    change (2 ^ 1) with 2 in *.
    set (J := 2 ^ (e2 - e1)) in *. clearbody J. subst u2.
    assert (T * (4 * (u1 * 2)) <= T * (4 * (u1 * J)))
      by (apply Z.mul_le_mono_nonneg_l; nia).
    assert (T * (4 * (u1 * J)) <= z2 * (4 * (u1 * J)))
      by (apply Z.mul_le_mono_nonneg_r; nia).
    assert (z1 * (4 * u1) < 2 * T * (4 * u1))
      by (apply Z.mul_lt_mono_pos_r; lia).
    lia.
  - (* equal exponents *)
    assert (Hu : u2 = u1) by (unfold u1, u2; now rewrite Heq).
    rewrite Hu in *. assert (Hz : z2 + 1 <= z1) by nia.
    destruct (squeeze D1 D2 N1 N2 ((4 * z1 - 2) * u1) ((4 * z2 + 2) * u1))
      as (HAB & HN1 & HN2); try assumption.
    { apply Z.mul_le_mono_nonneg_r; lia. }
    assert (z1 = z2 + 1) by nia.
    specialize (Ht1 (or_introl HN1)). specialize (Ht2 (or_intror HN2)).
    subst z1. rewrite Z.even_add, Ht2 in Ht1. discriminate Ht1.
  - (* the second exponent is smaller *)
    assert (HJ : u1 = u2 * 2 ^ (e1 - e2)).
    { unfold u1, u2. rewrite pow2_add by lia. f_equal. lia. }
    assert (H2J : 2 ^ 1 <= 2 ^ (e1 - e2)) by (apply Z.pow_le_mono_r; lia).
    change (2 ^ 1) with 2 in *.
    set (J := 2 ^ (e1 - e2)) in *. clearbody J.
    destruct (Z.eq_dec z1 T) as [HzT|HzT].
    + specialize (Hq1 HzT).
      assert (Hstep1 : (4 * z2 + 2) * u2 <= (8 * T - 2) * u2)
        by (apply Z.mul_le_mono_nonneg_r; lia).
      assert (Hstep2 : (4 * T - 1) * (u2 * 2) <= (4 * T - 1) * (u2 * J))
        by (apply Z.mul_le_mono_nonneg_l; nia).
      destruct (squeeze D1 D2 N1 N2 ((4 * z1 - 1) * u1) ((4 * z2 + 2) * u2))
        as (HAB & HN1 & HN2); try assumption.
      { subst u1 z1. lia. }
      assert (Hodd : z2 = 2 * T - 1).
      { subst u1 z1.
        assert ((4 * z2 + 2) * u2 = (8 * T - 2) * u2) by lia.
        assert (4 * z2 + 2 = 8 * T - 2) by (apply (Z.mul_reg_r _ _ u2); lia).
        lia. }
      specialize (Ht2 (or_intror HN2)). rewrite Hodd in Ht2. congruence.
    + destruct (squeeze D1 D2 N1 N2 ((4 * z1 - 2) * u1) ((4 * z2 + 2) * u2))
        as (HAB & HN1 & HN2); try assumption.
      { subst u1.
        assert ((4 * z2 + 2) * u2 <= (4 * T + 2) * (u2 * 2)) by nia.
        assert ((4 * T + 2) * (u2 * 2) <= (4 * T + 2) * (u2 * J))
          by (apply Z.mul_le_mono_nonneg_l; nia).
        assert ((4 * T + 2) * (u2 * J) <= (4 * z1 - 2) * (u2 * J))
          by (apply Z.mul_le_mono_nonneg_r; nia).
        lia. }
      subst u1.
      assert ((4 * z2 + 2) * u2 < (4 * T + 2) * (u2 * 2)) by nia.
      assert ((4 * T + 2) * (u2 * 2) <= (4 * T + 2) * (u2 * J))
        by (apply Z.mul_le_mono_nonneg_l; nia).
      assert ((4 * T + 2) * (u2 * J) <= (4 * z1 - 2) * (u2 * J))
        by (apply Z.mul_le_mono_nonneg_r; nia).
      lia.
Qed.


(** The location of [N / D] between [q] and [q + 1], from the remainder. *)
Lemma new_location_spec D r :
  0 < D -> 0 <= r < D ->
  let c := locationCode (new_location D r) in
  (c = 0 /\ r = 0) \/ (c = 1 /\ 0 < 2 * r < D) \/ (c = 2 /\ 2 * r = D)
  \/ (c = 3 /\ D < 2 * r).
Proof.
  intros HD Hr. unfold new_location.
  destruct (Z.even D) eqn:Hev.
  - unfold new_location_even.
    destruct (Z.eqb_spec r 0) as [->|Hr0].
    + left. split; reflexivity.
    + right. destruct (Z.compare_spec (2 * r) D); cbn [locationCode]; lia.
  - unfold new_location_odd.
    assert (Hodd : Z.odd D = true) by (rewrite <- Z.negb_even, Hev; reflexivity).
    apply Z.odd_spec in Hodd. destruct Hodd as [h Hh].
    destruct (Z.eqb_spec r 0) as [->|Hr0].
    + left. split; reflexivity.
    + right. destruct (Z.compare_spec (2 * r + 1) D); cbn [locationCode]; lia.
Qed.

(** The integer [4 * q + c] stands for the quotient [N / D] in every
    comparison with an even integer. *)
Lemma location_compare N D q r t :
  0 < D -> N = q * D + r -> 0 <= r < D ->
  (4 * q + locationCode (new_location D r) ?= 2 * t)
  = (4 * N ?= D * (2 * t)).
Proof.
  intros HD HN Hr.
  assert (Hup : forall c, t <= 2 * q + c -> D * t <= D * (2 * q + c))
    by (intros; apply Z.mul_le_mono_nonneg_l; lia).
  assert (Hdn : forall c, 2 * q + c <= t -> D * (2 * q + c) <= D * t)
    by (intros; apply Z.mul_le_mono_nonneg_l; lia).
  pose proof (Hup (-1)) as Hupm.
  pose proof (Hup 0) as Hup0. pose proof (Hup 1) as Hup1.
  pose proof (Hdn 0) as Hdn0. pose proof (Hdn 1) as Hdn1.
  pose proof (Hdn 2) as Hdn2. clear Hup Hdn.
  destruct (new_location_spec D r HD Hr) as [[Hc H]|[[Hc H]|[[Hc H]|[Hc H]]]];
    rewrite Hc; subst N;
    match goal with
    | |- (?a ?= ?b) = (?c ?= ?d) =>
        destruct (Z.compare_spec a b), (Z.compare_spec c d)
    end;
    try reflexivity; exfalso; lia.
Qed.

(** Rounding an integer [P] that stands for the value [N / D] in every
    comparison with an even integer gives the binary64 number nearest to
    [N / D]. *)
Lemma binary_round_aux_nearestEven s P E N D :
  0 < P -> Num.prec + 2 <= Zdigits2 P ->
  emin Num.prec Num.emax <= Zdigits2 P + E - Num.prec ->
  Zdigits2 P + E - Num.prec + 1 <= Num.emax - Num.prec ->
  0 < D -> (forall t, (P ?= 2 * t) = (N ?= D * (2 * t))) ->
  exists z e,
    E + (Zdigits2 P - Num.prec) <= e <= E + (Zdigits2 P - Num.prec) + 1
    /\ binary_round_aux Num.prec Num.emax s P E loc_Exact
       = S754_finite s (Z.to_pos z) e
    /\ nearestEven N D E z e.
Proof.
  intros HP Hd Hmin Hmax HD Hcmp.
  destruct (binary_round_aux_interval s P E HP ltac:(lia) Hmin Hmax)
    as (z & e & Hz & He & Hr & Hnear & _ & Htie & Hquarter).
  exists z, e. split; [exact He|]. split; [exact Hr|].
  set (n := Zdigits2 P - Num.prec) in *.
  assert (Hn : 2 <= n) by (unfold n; lia).
  assert (Hge : forall t, 2 * t <= P -> D * (2 * t) <= N).
  { intros t Ht. specialize (Hcmp t).
    destruct (Z.compare_spec P (2 * t)), (Z.compare_spec N (D * (2 * t)));
      try discriminate; lia. }
  assert (Hle : forall t, P <= 2 * t -> N <= D * (2 * t)).
  { intros t Ht. specialize (Hcmp t).
    destruct (Z.compare_spec P (2 * t)), (Z.compare_spec N (D * (2 * t)));
      try discriminate; lia. }
  assert (Heq : forall t, N = D * (2 * t) -> P = 2 * t).
  { intros t Ht. specialize (Hcmp t).
    destruct (Z.compare_spec P (2 * t)), (Z.compare_spec N (D * (2 * t)));
      try discriminate; lia. }
  assert (Hu : 2 ^ (e - E) = 4 * 2 ^ (e - E - 2)).
  { change 4 with (2 ^ 2). rewrite pow2_add by lia. f_equal. lia. }
  assert (Hnu : 2 ^ n <= 2 ^ (e - E)) by (apply Z.pow_le_mono_r; lia).
  rewrite Hu in *. unfold nearestEven.
  set (u := 2 ^ (e - E - 2)) in *.
  assert (Hupos : 0 < u) by (apply Z.pow_pos_nonneg; lia).
  split; [exact Hz|]. split; [lia|].
  replace ((4 * z - 2) * u) with (2 * ((2 * z - 1) * u)) by ring.
  replace ((4 * z + 2) * u) with (2 * ((2 * z + 1) * u)) by ring.
  split; [split|split].
  - apply Hge. lia.
  - apply Hle. lia.
  - intros HzT. destruct (Hquarter HzT) as [HF|He'].
    + apply Z.le_trans with (D * (2 * (2 * z * u))).
      * apply Z.mul_le_mono_nonneg_l; lia.
      * apply Hge. lia.
    + assert (Hn2 : 2 ^ n = 2 * u).
      { unfold u. transitivity (2 ^ 1 * 2 ^ (e - E - 2)); [|reflexivity].
        rewrite pow2_add by lia. f_equal. lia. }
      assert (Hu2 : u = 2 * 2 ^ (e - E - 3)).
      { unfold u. transitivity (2 ^ 1 * 2 ^ (e - E - 3)); [|reflexivity].
        rewrite pow2_add by lia. f_equal. lia. }
      set (v := 2 ^ (e - E - 3)) in *. clearbody v. clearbody u. subst u.
      replace ((4 * z - 1) * (2 * v)) with (2 * ((4 * z - 1) * v)) by ring.
      apply Hge. lia.
  - intros [Ht|Ht]; apply Heq in Ht; apply Htie; lia.
Qed.

(** The product of a binary64 number by the literal 100, rounded. *)
Lemma times_100_nearestEven s z e k :
  2 ^ (Num.prec - 1) <= z < 2 ^ Num.prec -> -900 <= e <= 900 -> k <= e - 46 ->
  exists z' e',
    e + 6 <= e' <= e + 8
    /\ (S754_finite s (Z.to_pos z) e * 100)%num = S754_finite s (Z.to_pos z') e'
    /\ nearestEven (100 * z * 2 ^ (e - k)) 1 k z' e'.
Proof.
  intros Hz He Hk.
  assert (Hzpos : 0 < z) by (assert (0 < 2 ^ (Num.prec - 1)) by reflexivity; lia).
  assert (Hzd : Zdigits2 z = Num.prec)
    by (apply Zdigits2_unique; [assumption|reflexivity]).
  set (M := 7036874417766400).
  set (P := z * M).
  assert (HPpos : 0 < P) by (unfold P, M; lia).
  assert (HdP : 105 <= Zdigits2 P <= 106).
  { pose proof (Zdigits2_mul_lower z M Hzpos ltac:(reflexivity)) as Hl.
    pose proof (Zdigits2_mul_upper z M Hzpos ltac:(reflexivity)) as Hu.
    rewrite Hzd in Hl, Hu. change (Zdigits2 M) with 53 in Hl, Hu.
    fold P in Hl, Hu. change Num.prec with 53 in Hl, Hu.
    clear - Hl Hu. split; [exact Hl|exact Hu]. }
  destruct (binary_round_aux_nearestEven s P (e + -46) P 1 HPpos)
    as (z' & e' & He' & Hr & Hnear).
  { unfold Num.prec. lia. }
  { unfold emin, Num.emax, Num.prec. lia. }
  { unfold Num.emax, Num.prec. lia. }
  { lia. }
  { intros t. f_equal. lia. }
  exists z', e'. split; [unfold Num.prec in He'; lia|]. split.
  - unfold Num.mul, SFmul. rewrite xorb_false_r.
    rewrite Pos2Z.inj_mul, Z2Pos.id by assumption. exact Hr.
  - apply (nearestEven_rescale _ _ _ _ _ (e + -46 - k)) in Hnear; [|lia].
    replace (e + -46 - (e + -46 - k)) with k in Hnear by lia.
    replace (100 * z * 2 ^ (e - k)) with (P * 2 ^ (e + -46 - k)); [exact Hnear|].
    unfold P, M. change 7036874417766400 with (100 * 2 ^ 46).
    transitivity (100 * z * (2 ^ 46 * 2 ^ (e + -46 - k))); [ring|].
    rewrite pow2_add by lia. f_equal. f_equal. lia.
Qed.

Lemma dyadic_signed s a :
  0 < a < 2 ^ Num.prec ->
  dyadic (cond_Zopp s a) 0
  = S754_finite s (Z.to_pos (a * 2 ^ (Num.prec - Zdigits2 a)))
      (Zdigits2 a - Num.prec).
Proof.
  intros Ha.
  assert (Hne : cond_Zopp s a <> 0) by (destruct s; cbn [cond_Zopp]; lia).
  rewrite dyadic_finite by assumption.
  assert (Hdz : Zdigits2 (cond_Zopp s a) = Zdigits2 a)
    by (destruct s; cbn [cond_Zopp]; rewrite ?Zdigits2_opp; reflexivity).
  assert (Habs : Z.abs (cond_Zopp s a) = a)
    by (destruct s; cbn [cond_Zopp]; lia).
  assert (Hs : (cond_Zopp s a <? 0) = s).
  { destruct s; cbn [cond_Zopp]; [apply Z.ltb_lt|apply Z.ltb_ge]; lia. }
  rewrite Hdz, Habs, Hs, Z.add_0_r. reflexivity.
Qed.

(** The quotient of two positive integers below 2^53, rounded. *)
Lemma div_nearestEven s a b :
  0 < a < 2 ^ Num.prec -> 0 < b < 2 ^ Num.prec ->
  exists z e,
    -105 <= e <= 1
    /\ (dyadic (cond_Zopp s a) 0 / dyadic b 0)%num = S754_finite s (Z.to_pos z) e
    /\ nearestEven (a * 2 ^ 108) b (-108) z e.
Proof.
  intros Ha Hb.
  pose proof (Zdigits2_le_prec _ Ha) as Hda.
  pose proof (Zdigits2_le_prec _ Hb) as Hdb.
  pose proof (mantissa_pos _ Ha) as HQa.
  pose proof (mantissa_pos _ Hb) as HQb.
  pose proof (mantissa_digits _ Ha) as Hma.
  pose proof (mantissa_digits _ Hb) as Hmb.
  rewrite dyadic_signed by assumption.
  change (dyadic b 0) with (dyadic (cond_Zopp false b) 0).
  rewrite (dyadic_signed false b) by assumption.
  set (Ta := a * 2 ^ (Num.prec - Zdigits2 a)) in *.
  set (Tb := b * 2 ^ (Num.prec - Zdigits2 b)) in *.
  pose proof (Zdigits2_bounds Ta HQa) as HTa. rewrite Hma in HTa.
  pose proof (Zdigits2_bounds Tb HQb) as HTb. rewrite Hmb in HTb.
  unfold Num.div, SFdiv, SFdiv_core_binary. rewrite xorb_false_r.
  rewrite !Z2Pos.id by assumption. rewrite Hma, Hmb.
  set (da := Zdigits2 a) in *. set (db := Zdigits2 b) in *.
  replace (Num.prec + (da - Num.prec) - (Num.prec + (db - Num.prec)))
    with (da - db) by lia.
  replace (da - Num.prec - (db - Num.prec)) with (da - db) by lia.
  rewrite fexp_eq by (unfold emin, Num.emax, Num.prec in *; lia).
  rewrite Z.min_l by (unfold Num.prec; lia).
  replace (da - db - (da - db - Num.prec)) with Num.prec by lia.
  lazymatch goal with
  | |- context [match Num.prec with 0 => ?x | Zpos _ => ?y | Zneg _ => ?w end] =>
      change (match Num.prec with 0 => x | Zpos _ => y | Zneg _ => w end) with y
  end.
  rewrite Z.shiftl_mul_pow2 by (unfold Num.prec; lia).
  set (N0 := Ta * 2 ^ Num.prec).
  pose proof (Z.div_mod N0 Tb ltac:(lia)) as Hdm.
  pose proof (Z.mod_pos_bound N0 Tb HQb) as Hrb.
  unfold Z.div, Z.modulo in Hdm, Hrb.
  destruct (Z.div_eucl N0 Tb) as [q r].
  assert (H53 : 2 ^ Num.prec = 2 * 2 ^ (Num.prec - 1)) by reflexivity.
  assert (HTpos : 0 < 2 ^ (Num.prec - 1)) by reflexivity.
  assert (Hq : 2 ^ (Num.prec - 1) <= q < 4 * 2 ^ (Num.prec - 1)).
  { unfold N0 in Hdm. rewrite H53 in *.
    set (T := 2 ^ (Num.prec - 1)) in *. clearbody T. split; nia. }
  assert (Hqpos : 0 < q) by lia.
  assert (Hdq : Num.prec <= Zdigits2 q <= Num.prec + 1).
  { split.
    - destruct (Z.le_gt_cases Num.prec (Zdigits2 q)) as [|Hlt]; [assumption|].
      exfalso. pose proof (Zdigits2_pos q Hqpos).
      assert (Hlt' : Zdigits2 q <= Num.prec - 1) by lia.
      apply Zdigits2_le_iff in Hlt'; [lia|assumption|unfold Num.prec; lia].
    - apply Zdigits2_le_iff; [assumption|unfold Num.prec; lia|].
      change (2 ^ (Num.prec + 1)) with (4 * 2 ^ (Num.prec - 1)). lia. }
  rewrite binary_round_aux_location
    by (try assumption; unfold emin, Num.emax, Num.prec in *; lia).
  set (c := locationCode (new_location Tb r)).
  pose proof (locationCode_bounds (new_location Tb r)) as Hc. fold c in Hc.
  assert (Hd4 : Zdigits2 (4 * q + c) = Zdigits2 q + 2).
  { pose proof (Zdigits2_bounds q Hqpos) as [Hlo Hhi].
    apply Zdigits2_unique; [|lia].
    replace (Zdigits2 q + 2 - 1) with (2 + (Zdigits2 q - 1)) by lia.
    rewrite <- !pow2_add by lia. change (2 ^ 2) with 4. lia. }
  destruct (binary_round_aux_nearestEven s (4 * q + c)
              (da - db - Num.prec - 2) (4 * N0) Tb)
    as (z & e & He & Hr & Hnear).
  { lia. }
  { lia. }
  { rewrite Hd4. unfold emin, Num.emax, Num.prec in *. lia. }
  { rewrite Hd4. unfold Num.emax, Num.prec in *. lia. }
  { assumption. }
  { intros t. apply location_compare; [assumption| |assumption].
    rewrite (Z.mul_comm q Tb). exact Hdm. }
  rewrite Hd4 in He.
  exists z, e. split; [unfold Num.prec in *; lia|]. split; [exact Hr|].
  apply (nearestEven_rescale _ _ _ _ _ (da - db + Num.prec)) in Hnear;
    [|unfold Num.prec in *; lia].
  replace (da - db - Num.prec - 2 - (da - db + Num.prec)) with (-108) in Hnear
    by (unfold Num.prec; lia).
  apply (nearestEven_cancel _ _ (2 ^ (Num.prec - db))).
  { apply Z.pow_pos_nonneg; lia. }
  replace (a * 2 ^ 108 * 2 ^ (Num.prec - db))
    with (4 * N0 * 2 ^ (da - db + Num.prec)); [exact Hnear|].
  unfold N0, Ta. change 4 with (2 ^ 2).
  transitivity (a * (2 ^ 2 * (2 ^ (Num.prec - da)
                              * (2 ^ Num.prec * 2 ^ (da - db + Num.prec)))));
    [ring|].
  rewrite !pow2_add by (unfold Num.prec in *; lia).
  rewrite <- Z.mul_assoc, pow2_add by (unfold Num.prec in *; lia).
  f_equal. f_equal. unfold Num.prec. lia.
Qed.

End Exact.

(** * The conversions at known values *)

Example literal_1_2 : 1.2%num = S754_finite false 5404319552844595 (-52).
Proof. reflexivity. Qed.

Example literal_1_15 : 1.15%num = S754_finite false 5179139571476070 (-52).
Proof. reflexivity. Qed.

Example literal_half : 0.5%num = S754_finite false 4503599627370496 (-53).
Proof. reflexivity. Qed.

Example toString_values :
  map Fmt.toString
    [120; 0.1; 1e21; 1e23; 123.456; 5e-324; -1.2345e-8; (1 / 3); (0.1 + 0.2);
     (0 / 0); (1 / 0); (-1 / 0); (0 * -1)]%num
  = ["120"; "0.1"; "1e+21"; "1e+23"; "123.456"; "5e-324"; "-1.2345e-8";
     "0.3333333333333333"; "0.30000000000000004"; "NaN"; "Infinity";
     "-Infinity"; "0"]%string.
Proof. vm_compute. reflexivity. Qed.

Example toFixed1_values :
  map Fmt.toFixed1
    [(8 / 10 * 100); (1 / 3 * 100); 0.0625; -0.0625; 1.25; 0.05; 99.95;
     -0.01; 0; 1e22; (0 / 0)]%num
  = ["80.0"; "33.3"; "0.1"; "-0.1"; "1.3"; "0.1"; "100.0"; "-0.0"; "0.0";
     "1e+22"; "NaN"]%string.
Proof. vm_compute. reflexivity. Qed.

(** * Rational values *)

Import Exact.

Lemma olsSlope_three (a b c : Q) : (olsSlope [a; b; c] == (c - a) / 2)%Q.
Proof. unfold olsSlope. cbn. field. Qed.

Lemma inject_Z_pow2 k : 0 <= k -> (inject_Z (2 ^ k) == Qpower 2 k)%Q.
Proof. intros H. now rewrite Zpower_Qpower. Qed.

Lemma toQ_dyadic z e :
  Z.abs z < 2 ^ Num.prec -> (Num.toQ (dyadic z e) == inject_Z z * Qpower 2 e)%Q.
Proof.
  intros Hz. destruct (Z.eq_dec z 0) as [->|Hz0].
  { cbn. ring. }
  pose proof (Zdigits2_le_prec _ (abs_bounds z Hz0 Hz)) as Hd.
  pose proof (mantissa_pos _ (abs_bounds z Hz0 Hz)) as HQ.
  rewrite abs_digits in Hd, HQ.
  rewrite dyadic_finite by assumption. unfold Num.toQ.
  assert (Hm : (inject_Z (Zpos (Z.to_pos (Z.abs z * 2 ^ (Num.prec - Zdigits2 z))))
                * Qpower 2 (Zdigits2 z - Num.prec + e)
                == inject_Z (Z.abs z) * Qpower 2 e)%Q).
  { rewrite Z2Pos.id by assumption.
    rewrite inject_Z_mult, inject_Z_pow2 by lia.
    rewrite <- Qmult_assoc, <- Qpower_plus by discriminate.
    replace (Num.prec - Zdigits2 z + (Zdigits2 z - Num.prec + e)) with e by lia.
    reflexivity. }
  destruct (Z.ltb_spec z 0).
  - rewrite Hm, Z.abs_neq by lia. rewrite inject_Z_opp. ring.
  - rewrite Hm, Z.abs_eq by lia. reflexivity.
Qed.

(** * The trend calculator *)

Lemma linearRegression_three a b c :
  linearRegression [a; b; c]
  = ((3 * (0 + 0 * a + 1 * b + 2 * c) - 3 * (0 + a + b + c)) / 6)%num.
Proof. reflexivity. Qed.

Lemma zero_product a : (0 + 0 * dyadic a 0)%num = 0%num.
Proof. destruct a; reflexivity. Qed.

(** On integers up to 2^49 in magnitude every intermediate result of the
    regression is exact, and the slope is half the difference between the
    last and the first value. *)
Lemma slope_exact a b c :
  Z.abs a <= 2 ^ 49 -> Z.abs b <= 2 ^ 49 -> Z.abs c <= 2 ^ 49 ->
  linearRegression [Num.ofZ a; Num.ofZ b; Num.ofZ c] = dyadic (c - a) (-1).
Proof.
  intros Ha Hb Hc.
  assert (H53 : 2 ^ Num.prec = 2 ^ 49 * 16) by reflexivity.
  rewrite linearRegression_three, !ofZ_dyadic by lia.
  rewrite zero_product.
  change 0%num with (dyadic 0 0). change 1%num with (dyadic 1 0).
  change 2%num with (dyadic 2 0). change 3%num with (dyadic 3 0).
  change 6%num with (dyadic 6 0).
  rewrite !(mul_dyadic _ _ 0 0) by lia.
  rewrite 2!add_dyadic by lia.
  rewrite 3!add_dyadic by lia.
  rewrite !(mul_dyadic _ _ 0 0) by lia.
  change (0 + 0) with 0.
  rewrite sub_dyadic by lia.
  apply (div_dyadic _ 6 (c - a) 1); lia.
Qed.

(** C1 (amended).  For every three integers [a], [b], [c] of magnitude at
    most 2^49 (the INTEGER columns of the store are within 2^31),
    [linearRegression [a, b, c]] is finite and its value is exactly the
    least-squares slope against x = 0, 1, 2, that is
    (N * sum(x*y) - sum(x) * sum(y)) / (N * sum(x^2) - sum(x)^2) with N = 3,
    which is (c - a) / 2.  On any three numbers the function returns that
    formula evaluated in binary64 arithmetic, and
    [linearRegression [1, 3, 5]] is 2. *)
Theorem linearRegression_slope_of_three a b c :
  Z.abs a <= 2 ^ 49 -> Z.abs b <= 2 ^ 49 -> Z.abs c <= 2 ^ 49 ->
  let slope := linearRegression [Num.ofZ a; Num.ofZ b; Num.ofZ c] in
  Num.isFinite slope = true
  /\ (Num.toQ slope == olsSlope [inject_Z a; inject_Z b; inject_Z c])%Q
  /\ (Num.toQ slope == (inject_Z c - inject_Z a) / 2)%Q
  /\ (forall x y z : Num.num,
         linearRegression [x; y; z]
         = ((3 * (0 + 0 * x + 1 * y + 2 * z) - 3 * (0 + x + y + z)) / 6)%num)
  /\ linearRegression [1; 3; 5]%num = 2%num.
Proof.
  intros Ha Hb Hc slope.
  assert (Hs : slope = dyadic (c - a) (-1)) by now apply slope_exact.
  assert (Hv : (Num.toQ slope == (inject_Z c - inject_Z a) / 2)%Q).
  { rewrite Hs, toQ_dyadic by (change (2 ^ Num.prec) with (2 ^ 49 * 16); lia).
    unfold Z.sub. rewrite inject_Z_plus, inject_Z_opp.
    change (Qpower 2 (-1)) with (/ 2)%Q. field. }
  split; [|split; [|split; [|split]]].
  - rewrite Hs. apply dyadic_isFinite.
  - now rewrite olsSlope_three.
  - exact Hv.
  - apply linearRegression_three.
  - reflexivity.
Qed.

Lemma linearRegression_slope_of_three_witness :
  let slope := linearRegression [Num.ofZ 10; Num.ofZ 40; Num.ofZ 20] in
  Num.isFinite slope = true
  /\ (Num.toQ slope == olsSlope [inject_Z 10; inject_Z 40; inject_Z 20])%Q
  /\ (Num.toQ slope == (inject_Z 20 - inject_Z 10) / 2)%Q
  /\ (forall x y z : Num.num,
         linearRegression [x; y; z]
         = ((3 * (0 + 0 * x + 1 * y + 2 * z) - 3 * (0 + x + y + z)) / 6)%num)
  /\ linearRegression [1; 3; 5]%num = 2%num.
Proof.
  apply (linearRegression_slope_of_three 10 40 20); vm_compute; discriminate.
Defined.

(** C1 as stated fails on numbers that are not small integers: the sums
    overflow on [1e308, 0, 1e308], where the result is NaN although
    (c - a) / 2 is 0, and they round on [1.1, 2.2, 3.3]. *)
Lemma linearRegression_not_half_difference :
  linearRegression [1e308; 0; 1e308]%num = Num.NaN
  /\ ((1e308 - 1e308) / 2)%num = 0%num
  /\ linearRegression [1.1; 2.2; 3.3]%num <> ((3.3 - 1.1) / 2)%num.
Proof.
  split; [reflexivity|]. split; [reflexivity|]. vm_compute. discriminate.
Qed.

(** C2.  The empty sequence gives 0, but a single-element sequence gives
    NaN: its denominator is 0 and so is its numerator, and the quotient
    0 / 0 is returned as it is. *)
Theorem linearRegression_single_element :
  linearRegression [] = 0%num
  /\ (forall y, linearRegression [y] = Num.NaN)
  /\ linearRegression [5]%num = Num.NaN.
Proof.
  split; [reflexivity|]. split; [|reflexivity].
  intros [[]|[]| |[] m e]; reflexivity.
Qed.

(** * Strings *)

Lemma append_inv_head (a b c : string) : (a ++ b = a ++ c)%string -> b = c.
Proof.
  induction a as [|ch a IH]; cbn; intros H; [assumption|].
  injection H as H. now apply IH.
Qed.

Lemma length_append (a b : string) :
  String.length (a ++ b) = (String.length a + String.length b)%nat.
Proof. induction a as [|ch a IH]; cbn; [reflexivity|]. now rewrite IH. Qed.

Lemma improving_not_declining who : improvingSentence who <> decliningSentence who.
Proof.
  unfold improvingSentence, decliningSentence. intros H.
  apply append_inv_head in H. discriminate H.
Qed.

Lemma leader_not_comparable who t o : leaderSentence who t o <> comparableSentence.
Proof.
  intros H. apply (f_equal String.length) in H.
  unfold leaderSentence in H. rewrite !length_append in H.
  cbn [String.length comparableSentence] in H. lia.
Qed.

Lemma scorer_not_playmaker p : scorerSentence p <> playmakerSentence p.
Proof.
  unfold scorerSentence, playmakerSentence. intros H.
  apply append_inv_head in H. discriminate H.
Qed.

(** * Rows of the store as player records *)

Lemma int4_small z : Store.int4 z -> Z.abs z <= 2 ^ 49.
Proof. unfold Store.int4. change (2 ^ 49) with (2 ^ 31 * 2 ^ 18). lia. Qed.

Lemma small_fits z : Z.abs z <= 2 ^ 49 -> Z.abs z < 2 ^ Num.prec.
Proof. change (2 ^ Num.prec) with (2 ^ 49 * 16). lia. Qed.

Lemma total_ofRow r :
  Store.valid r ->
  total (ofRow r)
  = Num.ofZ (Store.score r + Store.assists r + Store.rebounds r).
Proof.
  intros (_ & Hs & Ha & Hr & _). apply int4_small in Hs, Ha, Hr.
  unfold total, ofRow. cbn [score assists rebounds].
  assert (H53 : 2 ^ Num.prec = 2 ^ 49 * 16) by reflexivity.
  rewrite !ofZ_dyadic by lia. rewrite !add_dyadic by lia. reflexivity.
Qed.

Lemma trend_ofRow r :
  Store.valid r ->
  trend (ofRow r) = dyadic (Store.rebounds r - Store.score r) (-1).
Proof.
  intros (_ & Hs & Ha & Hr & _). apply int4_small in Hs, Ha, Hr.
  unfold trend, ofRow. cbn [score assists rebounds]. now apply slope_exact.
Qed.

Lemma gt_ofZ a b :
  Store.int4 a -> Store.int4 b -> (Num.ofZ a >? Num.ofZ b)%num = (b <? a).
Proof.
  intros Ha Hb. apply int4_small, small_fits in Ha, Hb.
  rewrite !ofZ_dyadic by assumption. now apply gt_dyadic.
Qed.

Lemma gt_ofZ_zero a : Store.int4 a -> (Num.ofZ a >? 0)%num = (0 <? a).
Proof.
  intros Ha. apply int4_small, small_fits in Ha.
  rewrite ofZ_dyadic by assumption. change 0%num with (dyadic 0 0).
  apply gt_dyadic; [assumption|]. now vm_compute.
Qed.

Lemma winRate_ofRow r :
  Store.valid r ->
  winRate (ofRow r)
  = if 0 <? Store.matches r
    then (Num.ofZ (Store.wins r) / Num.ofZ (Store.matches r) * 100)%num
    else 0%num.
Proof.
  intros (Hm & _). unfold winRate, ofRow. cbn [matches wins].
  now rewrite gt_ofZ_zero.
Qed.

Lemma winRate_not_nan r : Store.valid r -> isNaN (winRate (ofRow r)) = false.
Proof.
  intros Hv. rewrite winRate_ofRow by assumption.
  destruct Hv as (Hm & _ & _ & _ & Hw).
  apply int4_small, small_fits in Hm, Hw.
  destruct (Z.ltb_spec 0 (Store.matches r)); [|reflexivity].
  rewrite !ofZ_dyadic by assumption.
  apply mul_not_nan; [|reflexivity].
  apply div_not_nan; [apply dyadic_isFinite|apply dyadic_isFiniteNonzero; lia].
Qed.

(** * The order of the win rates *)

Lemma nearestEven_pos N D k z e : nearestEven N D k z e -> 0 < z.
Proof.
  intros (Hz & _). assert (0 < 2 ^ (Num.prec - 1)) by reflexivity. lia.
Qed.

Lemma roundedRate_monotone a1 b1 a2 b2 z e z' e' :
  0 < b1 -> 0 < b2 ->
  roundedRate a1 b1 z e -> roundedRate a2 b2 z' e' ->
  a1 * b2 <= a2 * b1 ->
  z * 2 ^ (e + 160) <= z' * 2 ^ (e' + 160).
Proof.
  intros Hb1 Hb2 (z1 & e1 & Hd1 & Hm1) (z2 & e2 & Hd2 & Hm2) Hle.
  pose proof (nearestEven_monotone _ _ _ _ _ _ _ _ _ Hb1 Hb2 Hd1 Hd2) as Hdiv.
  assert (Hq : z1 * 2 ^ (e1 - -108) <= z2 * 2 ^ (e2 - -108)).
  { apply Hdiv.
    replace (a1 * 2 ^ 108 * b2) with (a1 * b2 * 2 ^ 108) by ring.
    replace (a2 * 2 ^ 108 * b1) with (a2 * b1 * 2 ^ 108) by ring.
    apply Z.mul_le_mono_nonneg_r; [|assumption]. now vm_compute. }
  destruct Hd1 as (_ & He1 & _). destruct Hd2 as (_ & He2 & _).
  pose proof (nearestEven_monotone _ _ _ _ _ _ _ _ _ Z.lt_0_1 Z.lt_0_1 Hm1 Hm2)
    as Hmul.
  replace (e + 160) with (e - -160) by lia.
  replace (e' + 160) with (e' - -160) by lia.
  apply Hmul. rewrite !Z.mul_1_r.
  replace (e1 + 160) with ((e1 - -108) + 52) by lia.
  replace (e2 + 160) with ((e2 - -108) + 52) by lia.
  rewrite <- !pow2_add by lia.
  replace (100 * z1 * (2 ^ (e1 - -108) * 2 ^ 52))
    with (z1 * 2 ^ (e1 - -108) * (100 * 2 ^ 52)) by ring.
  replace (100 * z2 * (2 ^ (e2 - -108) * 2 ^ 52))
    with (z2 * 2 ^ (e2 - -108) * (100 * 2 ^ 52)) by ring.
  apply Z.mul_le_mono_nonneg_r; [now vm_compute|assumption].
Qed.

Lemma signedRate_monotone w1 m1 w2 m2 v1 e1 v2 e2 :
  0 < m1 -> 0 < m2 ->
  signedRate w1 m1 v1 e1 -> signedRate w2 m2 v2 e2 ->
  w1 * m2 <= w2 * m1 ->
  v1 * 2 ^ (e1 + 160) <= v2 * 2 ^ (e2 + 160).
Proof.
  intros Hm1 Hm2 H1 H2 Hle.
  assert (Hp1 : 0 <= 2 ^ (e1 + 160)) by apply Z.pow_nonneg, Z.le_0_2.
  assert (Hp2 : 0 <= 2 ^ (e2 + 160)) by apply Z.pow_nonneg, Z.le_0_2.
  destruct H1 as [[Hw1 Hv1]|[(Hw1 & Hv1 & Hr1)|(Hw1 & Hv1 & Hr1)]],
    H2 as [[Hw2 Hv2]|[(Hw2 & Hv2 & Hr2)|(Hw2 & Hv2 & Hr2)]];
    try (exfalso; nia); try nia.
  - now apply (roundedRate_monotone w1 m1 w2 m2).
  - pose proof (roundedRate_monotone (- w2) m2 (- w1) m1 _ _ _ _ Hm2 Hm1 Hr2 Hr1
                  ltac:(lia)).
    lia.
Qed.

(** The computed rate of a positive number of wins. *)
Lemma rate_rounded s a b :
  0 < a < 2 ^ Num.prec -> 0 < b < 2 ^ Num.prec ->
  exists z e,
    2 ^ (Num.prec - 1) <= z < 2 ^ Num.prec
    /\ -160 <= e <= 160
    /\ (dyadic (cond_Zopp s a) 0 / dyadic b 0 * 100)%num
       = S754_finite s (Z.to_pos z) e
    /\ roundedRate a b z e.
Proof.
  intros Ha Hb.
  destruct (div_nearestEven s a b Ha Hb) as (z1 & e1 & He1 & Hdiv & Hn1).
  destruct (times_100_nearestEven s z1 e1 (-160)) as (z & e & He & Hmul & Hn).
  { now destruct Hn1. }
  { lia. }
  { lia. }
  exists z, e. split; [now destruct Hn|]. split; [lia|]. split.
  - rewrite Hdiv. exact Hmul.
  - exists z1, e1. split; [exact Hn1|].
    replace (e1 + 160) with (e1 - -160) by lia. exact Hn.
Qed.

(** The computed rate of any row value. *)
Lemma rate_signed w m :
  Z.abs w < 2 ^ Num.prec -> 0 < m < 2 ^ Num.prec ->
  exists v e,
    Z.abs v < 2 ^ Num.prec
    /\ -160 <= e <= 160
    /\ (dyadic w 0 / dyadic m 0 * 100)%num = dyadic v e
    /\ signedRate w m v e.
Proof.
  intros Hw Hm.
  destruct (Z.lt_trichotomy w 0) as [Hneg|[->|Hpos]].
  - destruct (rate_rounded true (- w) m ltac:(lia) Hm)
      as (z & e & Hz & He & Hr & Hrate).
    exists (- z), e. assert (0 < 2 ^ (Num.prec - 1)) by reflexivity.
    split; [lia|]. split; [exact He|]. split.
    + cbn [cond_Zopp] in Hr. rewrite Z.opp_involutive in Hr. rewrite Hr.
      now apply (finite_dyadic true).
    + right. right. rewrite Z.opp_involutive. repeat split; try lia; assumption.
  - exists 0, 0. split; [reflexivity|]. split; [lia|]. split.
    + destruct m; try lia. reflexivity.
    + left. split; reflexivity.
  - destruct (rate_rounded false w m ltac:(lia) Hm)
      as (z & e & Hz & He & Hr & Hrate).
    exists z, e. assert (0 < 2 ^ (Num.prec - 1)) by reflexivity.
    split; [lia|]. split; [exact He|]. split.
    + cbn [cond_Zopp] in Hr. rewrite Hr. now apply (finite_dyadic false).
    + right. left. repeat split; try lia; assumption.
Qed.

(** The order of two rates, as fractions. *)
Lemma rate_le_cross w1 m1 w2 m2 :
  0 < m1 -> 0 < m2 ->
  (100 * inject_Z w1 / inject_Z m1 <= 100 * inject_Z w2 / inject_Z m2)%Q ->
  w1 * m2 <= w2 * m1.
Proof.
  intros H1 H2. destruct m1 as [|p1|p1], m2 as [|p2|p2]; try lia.
  unfold Qle, Qdiv, Qmult, Qinv, inject_Z. cbn [Qnum Qden].
  intros H. nia.
Qed.

(** The rows in play: without matches the rate is that of no wins in one
    match. *)
Lemma winRate_signed r :
  Store.valid r ->
  exists w m v e,
    0 < m
    /\ (exactRate r == 100 * inject_Z w / inject_Z m)%Q
    /\ Z.abs v < 2 ^ Num.prec
    /\ -160 <= e <= 160
    /\ winRate (ofRow r) = dyadic v e
    /\ signedRate w m v e.
Proof.
  intros Hv. rewrite winRate_ofRow by assumption. unfold exactRate.
  destruct Hv as (Hm & _ & _ & _ & Hw).
  apply int4_small, small_fits in Hm, Hw.
  destruct (Z.ltb_spec 0 (Store.matches r)) as [Hpos|Hnone].
  - destruct (rate_signed (Store.wins r) (Store.matches r) Hw ltac:(lia))
      as (v & e & Hvb & He & Hr & Hs).
    exists (Store.wins r), (Store.matches r), v, e.
    rewrite !ofZ_dyadic by assumption.
    repeat split; try assumption; try lia; reflexivity.
  - exists 0, 1, 0, 0. repeat split; try lia; try reflexivity.
    left. split; reflexivity.
Qed.

(** The computed rates are ordered as the exact rates are, where they
    differ. *)
Lemma winRate_order r1 r2 :
  Store.valid r1 -> Store.valid r2 ->
  (exactRate r1 <= exactRate r2)%Q ->
  (winRate (ofRow r1) >? winRate (ofRow r2))%num = false.
Proof.
  intros Hv1 Hv2 Hle.
  destruct (winRate_signed r1 Hv1)
    as (w1 & m1 & v1 & e1 & Hm1 & Hx1 & Hb1 & He1 & Hr1 & Hs1).
  destruct (winRate_signed r2 Hv2)
    as (w2 & m2 & v2 & e2 & Hm2 & Hx2 & Hb2 & He2 & Hr2 & Hs2).
  rewrite Hx1, Hx2 in Hle. apply rate_le_cross in Hle; try assumption.
  pose proof (signedRate_monotone _ _ _ _ _ _ _ _ Hm1 Hm2 Hs1 Hs2 Hle) as Hmono.
  rewrite Hr1, Hr2. unfold Num.gt, SFltb.
  rewrite compare_dyadic_gen by assumption.
  set (m := Z.min e2 e1).
  assert (Hpos : 0 < 2 ^ (m + 160)) by (apply Z.pow_pos_nonneg; lia).
  rewrite <- (compare_scale _ _ _ Hpos).
  rewrite <- !Z.mul_assoc, !pow2_add by lia.
  replace (e2 - m + (m + 160)) with (e2 + 160) by lia.
  replace (e1 - m + (m + 160)) with (e1 + 160) by lia.
  destruct (Z.compare_spec (v2 * 2 ^ (e2 + 160)) (v1 * 2 ^ (e1 + 160)));
    try reflexivity. lia.
Qed.

(** * The structure of the insight list *)

Lemma push_if (c1 c2 : bool) (l : list string) (s1 s2 : string) :
  (if c1 then push l s1 else if c2 then push l s2 else l)
  = l ++ (if c1 then [s1] else if c2 then [s2] else []).
Proof. destruct c1, c2; cbn [push]; now rewrite ?app_nil_r. Qed.

Lemma push_if_else (c1 c2 : bool) (l : list string) (s1 s2 s3 : string) :
  (if c1 then push l s1 else if c2 then push l s2 else push l s3)
  = l ++ (if c1 then [s1] else if c2 then [s2] else [s3]).
Proof. now destruct c1, c2. Qed.

Lemma generateInsights_steps p1 p2 :
  generateInsights p1 p2
  = overallStep p1 p2 ++ consistencyStep p1 p2 ++ winRateStep p1 p2
    ++ trendStep p1 ++ trendStep p2
    ++ specializationStep p1 ++ specializationStep p2.
Proof.
  unfold generateInsights.
  rewrite push_if.
  rewrite push_if.
  rewrite push_if.
  rewrite push_if.
  rewrite push_if.
  rewrite push_if.
  rewrite push_if_else.
  rewrite <- !app_assoc.
  reflexivity.
Qed.

Lemma overallStep_length p1 p2 : List.length (overallStep p1 p2) = 1%nat.
Proof. unfold overallStep. now repeat destruct (_ >? _)%num. Qed.

Lemma consistencyStep_length p1 p2 :
  (List.length (consistencyStep p1 p2) <= 1)%nat.
Proof. unfold consistencyStep. repeat destruct (_ >? _)%num; cbn; lia. Qed.

Lemma winRateStep_length p1 p2 : (List.length (winRateStep p1 p2) <= 1)%nat.
Proof. unfold winRateStep. repeat destruct (_ >? _)%num; cbn; lia. Qed.

Lemma trendStep_length p : (List.length (trendStep p) <= 1)%nat.
Proof.
  unfold trendStep. destruct (_ >? _)%num; [cbn; lia|].
  destruct (_ <? _)%num; cbn; lia.
Qed.

Lemma specializationStep_length p :
  (List.length (specializationStep p) <= 1)%nat.
Proof. unfold specializationStep. repeat destruct (_ && _); cbn; lia. Qed.

(** C7.  The insights are the sentences of the five steps in the order of
    the steps (overall performance, consistency, win rate, trends,
    specialization); in the two steps that look at each player, what
    player 1 contributes comes before what player 2 contributes, and each
    contribution is a sentence about that player.  The list has at most 8
    elements. *)
Theorem insights_in_step_order p1 p2 :
  generateInsights p1 p2
  = overallStep p1 p2 ++ consistencyStep p1 p2 ++ winRateStep p1 p2
    ++ (trendStep p1 ++ trendStep p2)
    ++ (specializationStep p1 ++ specializationStep p2)
  /\ (0 <= List.length (generateInsights p1 p2) <= 8)%nat
  /\ (forall p s,
         In s (trendStep p) ->
         s = improvingSentence (name p) \/ s = decliningSentence (name p))
  /\ (forall p s,
         In s (specializationStep p) ->
         s = scorerSentence p \/ s = playmakerSentence p).
Proof.
  split; [|split; [|split]].
  - rewrite generateInsights_steps. now rewrite <- !app_assoc.
  - rewrite generateInsights_steps, !length_app.
    pose proof (overallStep_length p1 p2).
    pose proof (consistencyStep_length p1 p2).
    pose proof (winRateStep_length p1 p2).
    pose proof (trendStep_length p1). pose proof (trendStep_length p2).
    pose proof (specializationStep_length p1).
    pose proof (specializationStep_length p2). lia.
  - intros p s. unfold trendStep.
    destruct (_ >? _)%num; [|destruct (_ <? _)%num]; cbn; intuition.
  - intros p s. unfold specializationStep.
    destruct (_ && _); [|destruct (_ && _)]; cbn; intuition.
Qed.

(** C9.  [generateInsights] returns between 1 and 7 sentences: the overall
    step gives exactly one, the consistency and win-rate steps at most one
    each, the trend and specialization steps at most two each (at most one
    for each player). *)
Theorem insights_between_one_and_seven p1 p2 :
  (1 <= List.length (generateInsights p1 p2) <= 7)%nat
  /\ List.length (generateInsights p1 p2)
     = (List.length (overallStep p1 p2)
        + List.length (consistencyStep p1 p2)
        + List.length (winRateStep p1 p2)
        + List.length (trendStep p1 ++ trendStep p2)
        + List.length (specializationStep p1 ++ specializationStep p2))%nat
  /\ List.length (overallStep p1 p2) = 1%nat
  /\ (List.length (consistencyStep p1 p2) <= 1)%nat
  /\ (List.length (winRateStep p1 p2) <= 1)%nat
  /\ (List.length (trendStep p1 ++ trendStep p2) <= 2)%nat
  /\ (List.length (specializationStep p1 ++ specializationStep p2) <= 2)%nat.
Proof.
  rewrite generateInsights_steps, !length_app.
  pose proof (overallStep_length p1 p2).
  pose proof (consistencyStep_length p1 p2).
  pose proof (winRateStep_length p1 p2).
  pose proof (trendStep_length p1). pose proof (trendStep_length p2).
  pose proof (specializationStep_length p1).
  pose proof (specializationStep_length p2). lia.
Qed.

Lemma total_small r :
  Store.valid r ->
  Z.abs (Store.score r + Store.assists r + Store.rebounds r) <= 2 ^ 40.
Proof.
  unfold Store.valid, Store.int4. intros (_ & Hs & Ha & Hr & _).
  change (2 ^ 40) with (2 ^ 31 * 512). lia.
Qed.

Lemma gt_total_ofRow r1 r2 :
  Store.valid r1 -> Store.valid r2 ->
  (total (ofRow r1) >? total (ofRow r2) * 1.2)%num
  = (6 * (Store.score r2 + Store.assists r2 + Store.rebounds r2)
     <? 5 * (Store.score r1 + Store.assists r1 + Store.rebounds r1)).
Proof.
  intros Hv1 Hv2. rewrite !total_ofRow by assumption.
  pose proof (total_small r1 Hv1). pose proof (total_small r2 Hv2).
  assert (H53 : 2 ^ Num.prec = 2 ^ 40 * 8192) by reflexivity.
  rewrite !ofZ_dyadic by lia. apply gt_times_1_2; lia.
Qed.

(** C4.  The overall-performance step contributes exactly one sentence, the
    first of the list, followed by what the later steps append.  With the
    totals t1 and t2 (score + assists + rebounds) it is the sentence naming
    player 1 with both totals when t1 > 1.2 * t2, that is 5 * t1 > 6 * t2,
    else the one naming player 2 when t2 > 1.2 * t1, else the
    comparable-performance sentence.  The comparisons [t1 > t2 * 1.2] that
    the code makes in binary64 arithmetic are exactly these strict integer
    comparisons.  Totals of 100 and 95 give the comparable-performance
    sentence. *)
Theorem overall_performance_sentence r1 r2 :
  Store.valid r1 -> Store.valid r2 ->
  let p1 := ofRow r1 in
  let p2 := ofRow r2 in
  let t1 := Store.score r1 + Store.assists r1 + Store.rebounds r1 in
  let t2 := Store.score r2 + Store.assists r2 + Store.rebounds r2 in
  total p1 = Num.ofZ t1
  /\ total p2 = Num.ofZ t2
  /\ (total p1 >? total p2 * 1.2)%num = (6 * t2 <? 5 * t1)
  /\ (total p2 >? total p1 * 1.2)%num = (6 * t1 <? 5 * t2)
  /\ generateInsights p1 p2
     = (if 6 * t2 <? 5 * t1 then
          leaderSentence (name p1) (total p1) (total p2)
        else if 6 * t1 <? 5 * t2 then
          leaderSentence (name p2) (total p2) (total p1)
        else comparableSentence)
       :: consistencyStep p1 p2 ++ winRateStep p1 p2
          ++ trendStep p1 ++ trendStep p2
          ++ specializationStep p1 ++ specializationStep p2
  /\ (hd_error (generateInsights p1 p2) = Some comparableSentence
      <-> ~ 5 * t1 > 6 * t2 /\ ~ 5 * t2 > 6 * t1)
  /\ (t1 = 100 -> t2 = 95 ->
      hd_error (generateInsights p1 p2) = Some comparableSentence).
Proof.
  intros Hv1 Hv2 p1 p2 t1 t2.
  pose proof (gt_total_ofRow r1 r2 Hv1 Hv2) as H12.
  pose proof (gt_total_ofRow r2 r1 Hv2 Hv1) as H21.
  fold p1 p2 t1 t2 in H12, H21.
  assert (Hgen : generateInsights p1 p2
     = (if 6 * t2 <? 5 * t1 then
          leaderSentence (name p1) (total p1) (total p2)
        else if 6 * t1 <? 5 * t2 then
          leaderSentence (name p2) (total p2) (total p1)
        else comparableSentence)
       :: consistencyStep p1 p2 ++ winRateStep p1 p2
          ++ trendStep p1 ++ trendStep p2
          ++ specializationStep p1 ++ specializationStep p2).
  { rewrite generateInsights_steps. unfold overallStep. rewrite H12, H21.
    destruct (6 * t2 <? 5 * t1); [reflexivity|].
    destruct (6 * t1 <? 5 * t2); reflexivity. }
  split; [now apply total_ofRow|]. split; [now apply total_ofRow|].
  split; [exact H12|]. split; [exact H21|]. split; [exact Hgen|].
  rewrite Hgen. cbn [hd_error].
  pose proof (leader_not_comparable (name p1) (total p1) (total p2)) as Hn1.
  pose proof (leader_not_comparable (name p2) (total p2) (total p1)) as Hn2.
  split.
  - destruct (Z.ltb_spec (6 * t2) (5 * t1)), (Z.ltb_spec (6 * t1) (5 * t2));
      split; intros H'; try lia; try reflexivity;
      try (injection H' as H'; contradiction).
  - intros H1 H2. rewrite H1, H2. reflexivity.
Qed.

(** * Specialization, trends and win rates on rows of the store *)

Lemma specializationStep_ofRow r :
  Store.valid r -> specializationStep (ofRow r) = specializationRule r.
Proof.
  intros (_ & Hs & Ha & Hr & _).
  unfold specializationStep, specializationRule.
  change (score (ofRow r)) with (Num.ofZ (Store.score r)).
  change (assists (ofRow r)) with (Num.ofZ (Store.assists r)).
  change (rebounds (ofRow r)) with (Num.ofZ (Store.rebounds r)).
  now rewrite !gt_ofZ.
Qed.

(** C8.  For each player the specialization step appends the scorer
    sentence exactly when the score is strictly above both the assists and
    the rebounds, otherwise the playmaker sentence exactly when the assists
    are strictly above both the score and the rebounds, otherwise nothing;
    it appends nothing when the rebounds are a maximum of the three, alone
    or tied, or when score and assists are tied.  These are the last
    sentences of the list, player 1's before player 2's. *)
Theorem specialization_sentences r1 r2 :
  Store.valid r1 -> Store.valid r2 ->
  generateInsights (ofRow r1) (ofRow r2)
  = (overallStep (ofRow r1) (ofRow r2)
     ++ consistencyStep (ofRow r1) (ofRow r2)
     ++ winRateStep (ofRow r1) (ofRow r2)
     ++ trendStep (ofRow r1) ++ trendStep (ofRow r2))
    ++ specializationRule r1 ++ specializationRule r2
  /\ (forall r,
         (specializationRule r = [scorerSentence (ofRow r)]
          <-> Store.score r > Store.assists r
              /\ Store.score r > Store.rebounds r)
         /\ (specializationRule r = [playmakerSentence (ofRow r)]
             <-> Store.assists r > Store.score r
                 /\ Store.assists r > Store.rebounds r)
         /\ (specializationRule r = []
             <-> ~ (Store.score r > Store.assists r
                    /\ Store.score r > Store.rebounds r)
                 /\ ~ (Store.assists r > Store.score r
                       /\ Store.assists r > Store.rebounds r))
         /\ (Store.score r <= Store.rebounds r
             /\ Store.assists r <= Store.rebounds r ->
             specializationRule r = [])
         /\ (Store.score r = Store.assists r -> specializationRule r = [])).
Proof.
  intros Hv1 Hv2. split.
  - rewrite generateInsights_steps, <- !app_assoc.
    now rewrite !specializationStep_ofRow.
  - intros r. unfold specializationRule.
    pose proof (scorer_not_playmaker (ofRow r)) as Hne.
    destruct (Z.ltb_spec (Store.assists r) (Store.score r)),
      (Z.ltb_spec (Store.rebounds r) (Store.score r)),
      (Z.ltb_spec (Store.score r) (Store.assists r)),
      (Z.ltb_spec (Store.rebounds r) (Store.assists r));
      cbn [andb];
      repeat split; intros; try lia; try discriminate; try reflexivity;
      try (exfalso; congruence); try tauto.
Qed.

(** What a successful response carries: the trend summaries are the labels
    of the two slopes, and the insights are generated from the same two
    records. *)
Lemma comparison_contents req query c t1 t2 ins :
  body (serve req query) = Comparison c (t1, t2) ins ->
  exists p1 p2,
    c = (publicStats p1, publicStats p2)
    /\ t1 = trendOf (trend p1) /\ t2 = trendOf (trend p2)
    /\ ins = generateInsights p1 p2.
Proof.
  unfold serve. destruct (String.eqb (method req) "OPTIONS"); [discriminate|].
  unfold comparePlayers. destruct (json req) as [e|a b]; [discriminate|].
  cbn [bind]. destruct (truthy a) as [id1|]; [|discriminate].
  destruct (truthy b) as [id2|]; [|discriminate].
  destruct (error (query [id1; id2])); [discriminate|].
  destruct (data (query [id1; id2])) as [players|]; [|discriminate].
  destruct (negb _); [discriminate|].
  destruct (findPlayer players id1) as [p1|]; [|discriminate].
  destruct (findPlayer players id2) as [p2|]; [|discriminate].
  cbn [bind body]. intros H. injection H as <- <- <- <-. now exists p1, p2.
Qed.

Lemma trend_signs r :
  Store.valid r ->
  let t := trend (ofRow r) in
  (t >? 0)%num = (Store.score r <? Store.rebounds r)
  /\ (t <? 0)%num = (Store.rebounds r <? Store.score r)
  /\ (t =? 0)%num = (Store.rebounds r =? Store.score r)
  /\ (t >? 0.5)%num = (Store.score r + 1 <? Store.rebounds r)
  /\ (t <? -0.5)%num = (Store.rebounds r + 1 <? Store.score r).
Proof.
  intros Hv t. unfold t. rewrite trend_ofRow by assumption.
  destruct Hv as (_ & Hs & _ & Hr & _). apply int4_small in Hs, Hr.
  set (h := Store.rebounds r - Store.score r).
  assert (Hh : Z.abs h < 2 ^ Num.prec)
    by (change (2 ^ Num.prec) with (2 ^ 49 * 16); unfold h; lia).
  assert (H0 : Z.abs 0 < 2 ^ Num.prec) by reflexivity.
  assert (H1 : Z.abs 1 < 2 ^ Num.prec) by reflexivity.
  assert (Hm1 : Z.abs (-1) < 2 ^ Num.prec) by reflexivity.
  change 0%num with (dyadic 0 (-1)). change 0.5%num with (dyadic 1 (-1)).
  change (-0.5)%num with (dyadic (-1) (-1)).
  rewrite !gt_dyadic, !lt_dyadic, eq_dyadic by assumption.
  unfold h. repeat split.
  - destruct (Z.ltb_spec 0 (Store.rebounds r - Store.score r)),
      (Z.ltb_spec (Store.score r) (Store.rebounds r)); try reflexivity; lia.
  - destruct (Z.ltb_spec (Store.rebounds r - Store.score r) 0),
      (Z.ltb_spec (Store.rebounds r) (Store.score r)); try reflexivity; lia.
  - destruct (Z.eqb_spec (Store.rebounds r - Store.score r) 0),
      (Z.eqb_spec (Store.rebounds r) (Store.score r)); try reflexivity; lia.
  - destruct (Z.ltb_spec 1 (Store.rebounds r - Store.score r)),
      (Z.ltb_spec (Store.score r + 1) (Store.rebounds r)); try reflexivity; lia.
  - destruct (Z.ltb_spec (Store.rebounds r - Store.score r) (-1)),
      (Z.ltb_spec (Store.rebounds r + 1) (Store.score r)); try reflexivity; lia.
Qed.

(** C6 (amended).  A player's win rate is the binary64 result of
    wins / matches * 100 when matches > 0, and 0 otherwise.  When the two
    computed rates differ, the win-rate step appends exactly one sentence,
    naming the player whose computed rate is strictly higher and giving both
    rates with one decimal; when the computed rates are equal it appends
    nothing.  The player named has the strictly higher exact rate
    100 * wins / matches as well, and equal exact rates give no sentence:
    the two roundings never reverse an order.  With 8 wins in 10 matches
    against 4 wins in 10 matches the sentence names player 1 with "80.0%"
    against "40.0%". *)
Theorem win_rate_sentence r1 r2 :
  Store.valid r1 -> Store.valid r2 ->
  let p1 := ofRow r1 in
  let p2 := ofRow r2 in
  (forall r,
      Store.valid r ->
      winRate (ofRow r)
      = if 0 <? Store.matches r
        then (Num.ofZ (Store.wins r) / Num.ofZ (Store.matches r) * 100)%num
        else 0%num)
  /\ generateInsights p1 p2
     = (overallStep p1 p2 ++ consistencyStep p1 p2)
       ++ winRateStep p1 p2
       ++ (trendStep p1 ++ trendStep p2
           ++ specializationStep p1 ++ specializationStep p2)
  /\ ((winRate p1 =? winRate p2)%num = false ->
      ((winRate p1 >? winRate p2)%num = true
       /\ winRateStep p1 p2
          = [winRateSentence (name p1) (winRate p1) (winRate p2)])
      \/ ((winRate p2 >? winRate p1)%num = true
          /\ winRateStep p1 p2
             = [winRateSentence (name p2) (winRate p2) (winRate p1)]))
  /\ ((winRate p1 =? winRate p2)%num = true -> winRateStep p1 p2 = [])
  /\ (Store.matches r1 = 10 -> Store.wins r1 = 8 ->
      Store.matches r2 = 10 -> Store.wins r2 = 4 ->
      winRateStep p1 p2
      = [(name p1 ++ " has a superior win rate of 80.0% compared to 40.0%.")%string])
  /\ ((winRate p1 >? winRate p2)%num = true -> (exactRate r2 < exactRate r1)%Q)
  /\ ((winRate p2 >? winRate p1)%num = true -> (exactRate r1 < exactRate r2)%Q)
  /\ ((exactRate r1 == exactRate r2)%Q -> winRateStep p1 p2 = []).
Proof.
  intros Hv1 Hv2 p1 p2.
  split; [intros r Hr; now apply winRate_ofRow|].
  split.
  { rewrite generateInsights_steps. now rewrite <- !app_assoc. }
  pose proof (trichotomy _ _ (winRate_not_nan r1 Hv1) (winRate_not_nan r2 Hv2))
    as Htri.
  pose proof (winRate_order r1 r2 Hv1 Hv2) as Hle12.
  pose proof (winRate_order r2 r1 Hv2 Hv1) as Hle21.
  fold p1 p2 in Htri, Hle12, Hle21. unfold winRateStep.
  split; [|split; [|split; [|split; [|split]]]].
  - intros Hne.
    destruct Htri as [(H1 & H2 & _)|[(H1 & H2 & _)|(_ & _ & H3)]].
    + left. now rewrite H1.
    + right. now rewrite H1, H2.
    + congruence.
  - intros Heq.
    destruct Htri as [(_ & _ & H3)|[(_ & _ & H3)|(H1 & H2 & _)]]; try congruence.
    now rewrite H1, H2.
  - intros Hm1 Hw1 Hm2 Hw2.
    unfold p1, p2. rewrite !winRate_ofRow by assumption.
    rewrite Hm1, Hw1, Hm2, Hw2. reflexivity.
  - intros Hgt. apply Qnot_le_lt. intros Hle.
    rewrite (Hle12 Hle) in Hgt. discriminate Hgt.
  - intros Hgt. apply Qnot_le_lt. intros Hle.
    rewrite (Hle21 Hle) in Hgt. discriminate Hgt.
  - intros Heq.
    rewrite Hle12 by (rewrite Heq; apply Qle_refl).
    rewrite Hle21 by (rewrite Heq; apply Qle_refl).
    reflexivity.
Qed.

(** C6 as stated fails on rows of the store: 2147483645 wins in 2147483646
    matches and 2147483646 wins in 2147483647 matches are different rates,
    but both are the same binary64 number, and the win-rate step appends
    nothing. *)
Lemma different_rates_one_double :
  Store.valid pat /\ Store.valid quinn
  /\ (exactRate pat < exactRate quinn)%Q
  /\ winRate (ofRow pat) = winRate (ofRow quinn)
  /\ winRateStep (ofRow pat) (ofRow quinn) = []
  /\ generateInsights (ofRow pat) (ofRow quinn)
     = ["Both players show comparable overall performance levels."%string].
Proof.
  split; [repeat split; vm_compute; congruence|].
  split; [repeat split; vm_compute; congruence|].
  split; [reflexivity|].
  split; [vm_compute; reflexivity|].
  split; vm_compute; reflexivity.
Qed.

(** * The request handler *)

Lemma caught_is_failure req query e :
  String.eqb (method req) "OPTIONS" = false ->
  comparePlayers req query = Throw e -> failure (serve req query).
Proof.
  intros Hm He. unfold serve. rewrite Hm, He. eexists. reflexivity.
Qed.

Lemma rejected_throws req query :
  Rejected query (json req) -> exists e, comparePlayers req query = Throw e.
Proof.
  unfold comparePlayers. intros H.
  inversion H as [a b Ha Hj|a b Hb Hj|a b id1 id2 e Ha Hb He Hj
                 |a b id1 id2 Ha Hb Hc Hj]; cbn [bind].
  - rewrite Ha. eexists. reflexivity.
  - rewrite Hb. destruct (truthy a); eexists; reflexivity.
  - rewrite Ha, Hb, He. eexists. reflexivity.
  - rewrite Ha, Hb. destruct (error (query [id1; id2])); [eexists; reflexivity|].
    destruct (data (query [id1; id2])) as [players|]; [|eexists; reflexivity].
    specialize (Hc players eq_refl).
    destruct (Nat.eqb_spec (List.length players) 2); [contradiction|].
    eexists. reflexivity.
Qed.

(** Every response is the pre-flight answer, the failure envelope or a
    complete comparison with status 200. *)
Lemma response_shapes req query :
  serve req query = preflight
  \/ failure (serve req query)
  \/ exists c t ins,
       serve req query
       = {| status := 200; headers := jsonHeaders; body := Comparison c t ins |}.
Proof.
  unfold serve. destruct (String.eqb (method req) "OPTIONS"); [now left|right].
  destruct (comparePlayers req query) as [r|e] eqn:Hr.
  - right. unfold comparePlayers in Hr.
    destruct (json req) as [e|a b]; [discriminate|]. cbn [bind] in Hr.
    destruct (truthy a) as [id1|]; [|discriminate].
    destruct (truthy b) as [id2|]; [|discriminate].
    destruct (error (query [id1; id2])); [discriminate|].
    destruct (data (query [id1; id2])) as [players|]; [|discriminate].
    destruct (negb _); [discriminate|].
    destruct (findPlayer players id1) as [p1|]; [|discriminate].
    destruct (findPlayer players id2) as [p2|]; [|discriminate].
    cbn [bind] in Hr. injection Hr as <-. now eexists _, _, _.
  - left. eexists. reflexivity.
Qed.

(** C3 (amended).  For every request other than an OPTIONS pre-flight in
    which an identifier is missing or empty, or for which the store signals
    an error or does not return exactly two records, the response is the
    failure envelope: status 500 and the body [{error: string}].  A response
    is never partial: it is the pre-flight answer, the failure envelope, or a
    comparison with all of its parts and status 200. *)
Theorem rejected_request_fails req query :
  method req <> "OPTIONS"%string ->
  Rejected query (json req) ->
  failure (serve req query)
  /\ (forall req' query',
         serve req' query' = preflight
         \/ failure (serve req' query')
         \/ exists c t ins,
              serve req' query'
              = {| status := 200; headers := jsonHeaders;
                   body := Comparison c t ins |}).
Proof.
  intros Hm Hr. split; [|intros; apply response_shapes].
  apply String.eqb_neq in Hm.
  destruct (rejected_throws _ _ Hr) as [e He].
  now apply (caught_is_failure _ _ e).
Qed.

Lemma rejected_request_fails_witness :
  let req := {| method := "POST"; json := Fields (Some "a"%string) None |} in
  method req <> "OPTIONS"%string
  /\ Rejected emptyStore (json req)
  /\ failure (serve req emptyStore).
Proof.
  intros req.
  assert (Hm : method req <> "OPTIONS"%string) by discriminate.
  assert (Hr : Rejected emptyStore (json req)) by (now apply MissingSecond).
  split; [exact Hm|]. split; [exact Hr|].
  exact (proj1 (rejected_request_fails req emptyStore Hm Hr)).
Defined.

(** C3 as stated fails on an OPTIONS request: it is answered with status 200
    and no body before the identifiers are looked at, also when they are
    missing. *)
Lemma preflight_without_identifiers :
  let req := {| method := "OPTIONS"; json := Fields None None |} in
  Rejected emptyStore (json req)
  /\ serve req emptyStore
     = {| status := 200; headers := corsHeaders; body := NoBody |}
  /\ ~ failure (serve req emptyStore).
Proof.
  intros req. split; [now apply MissingFirst|]. split; [reflexivity|].
  intros [message H]. discriminate H.
Qed.

Lemma filter_by_key (f : Store.Row -> bool) (key : string) table :
  (forall r, f r = true -> Store.id r = key) ->
  primaryKey table ->
  (List.length (filter f table) <= 1)%nat.
Proof.
  intros Hf. unfold primaryKey.
  induction table as [|r table IH]; cbn [map filter]; intros Hk; [cbn; lia|].
  inversion Hk as [|x l Hnotin Hnodup]; subst. specialize (IH Hnodup).
  destruct (f r) eqn:Hr; [|exact IH].
  destruct (filter f table) as [|r' rest] eqn:Hrest; [cbn; lia|].
  exfalso. apply Hnotin.
  assert (Hin : In r' (filter f table)) by (rewrite Hrest; now left).
  apply filter_In in Hin. destruct Hin as [Hin Hr'].
  rewrite (Hf r Hr), <- (Hf r' Hr'). now apply in_map.
Qed.

Lemma lookup_same_identifier table id :
  primaryKey table ->
  (List.length
     (filter (fun r => existsb (String.eqb (Store.id r)) [id; id]) table)
   <= 1)%nat.
Proof.
  apply (filter_by_key _ id). intros r. cbn [existsb].
  destruct (String.eqb_spec (Store.id r) id); [trivial|discriminate].
Qed.

(** C10 (amended).  For every request other than an OPTIONS pre-flight whose
    two identifiers are equal, whether or not a record has that id, the
    lookup resolves at most one record, the check for exactly two fails and
    the response is the failure envelope; the body is never a comparison of
    a player with themselves. *)
Theorem same_identifier_fails table req a :
  primaryKey table ->
  method req <> "OPTIONS"%string ->
  json req = Fields a a ->
  (forall id,
      List.length
        (filter (fun r => existsb (String.eqb (Store.id r)) [id; id]) table)
      <= 1)%nat
  /\ failure (serve req (selectIn table))
  /\ (forall c t ins, body (serve req (selectIn table)) <> Comparison c t ins).
Proof.
  intros Hk Hm Hj.
  assert (Hlookup : forall id,
             (List.length
                (filter (fun r => existsb (String.eqb (Store.id r)) [id; id])
                   table) <= 1)%nat)
    by (intros id; now apply lookup_same_identifier).
  assert (Hfail : failure (serve req (selectIn table))).
  { apply String.eqb_neq in Hm.
    assert (Hr : Rejected (selectIn table) (json req)).
    { rewrite Hj. destruct (truthy a) as [id|] eqn:Ha.
      - apply (WrongCount _ a a id id Ha Ha).
        intros players Hd. cbn [selectIn data] in Hd. injection Hd as <-.
        rewrite length_map. specialize (Hlookup id).
        cbn [existsb] in Hlookup. lia.
      - now apply MissingFirst. }
    destruct (rejected_throws _ _ Hr) as [e He].
    now apply (caught_is_failure _ _ e). }
  split; [exact Hlookup|]. split; [exact Hfail|].
  intros c t ins H. destruct Hfail as [message Hf]. rewrite Hf in H. discriminate H.
Qed.

Lemma demoTable_primaryKey : primaryKey demoTable.
Proof.
  unfold primaryKey, demoTable. cbn [map Store.id].
  repeat constructor; cbn; intuition discriminate.
Defined.

Lemma same_identifier_fails_witness :
  let req := {| method := "POST";
                json := Fields (Some "a"%string) (Some "a"%string) |} in
  primaryKey demoTable
  /\ method req <> "OPTIONS"%string
  /\ json req = Fields (Some "a"%string) (Some "a"%string)
  /\ failure (serve req (selectIn demoTable)).
Proof.
  intros req.
  assert (Hm : method req <> "OPTIONS"%string) by discriminate.
  split; [exact demoTable_primaryKey|]. split; [exact Hm|]. split; [reflexivity|].
  exact (proj1 (proj2 (same_identifier_fails demoTable req (Some "a"%string)
                         demoTable_primaryKey Hm eq_refl))).
Defined.

(** C10 as stated fails on an OPTIONS request: it is answered with status
    200 and no body, also when it carries two equal identifiers. *)
Lemma preflight_with_equal_identifiers :
  let req := {| method := "OPTIONS";
                json := Fields (Some "a"%string) (Some "a"%string) |} in
  serve req (selectIn demoTable)
  = {| status := 200; headers := corsHeaders; body := NoBody |}
  /\ ~ failure (serve req (selectIn demoTable)).
Proof.
  intros req. split; [reflexivity|].
  intros [message H]. discriminate H.
Qed.

(** The success path on the two rows of [demoTable]. *)
Example serve_demo :
  serve {| method := "POST";
           json := Fields (Some "a"%string) (Some "b"%string) |}
        (selectIn demoTable)
  = {| status := 200;
       headers := jsonHeaders;
       body :=
         Comparison
           ({| pub_name := "Ann"; pub_matches := 10; pub_score := 60;
               pub_assists := 40; pub_rebounds := 20; pub_wins := 8 |},
            {| pub_name := "Bob"; pub_matches := 10; pub_score := 30;
               pub_assists := 30; pub_rebounds := 30; pub_wins := 4 |})
           ({| slope := -20; direction := "Declining performance" |},
            {| slope := 0; direction := "Stable performance" |})
           ["Ann demonstrates significantly higher overall performance with 120 total stats vs 90.";
            "Ann shows better consistency with 12.0 stats per match vs 9.0.";
            "Ann has a superior win rate of 80.0% compared to 40.0%.";
            "Ann shows a declining trend in certain performance areas.";
            "Ann is primarily a scorer with 60 points."] |}%string%num.
Proof. vm_compute. reflexivity. Qed.

(** * The theorems at sample rows *)

Lemma ann_valid : Store.valid ann.
Proof. repeat split; vm_compute; congruence. Defined.

Lemma bob_valid : Store.valid bob.
Proof. repeat split; vm_compute; congruence. Defined.

Lemma carl_valid : Store.valid carl.
Proof. repeat split; vm_compute; congruence. Defined.

Lemma dana_valid : Store.valid dana.
Proof. repeat split; vm_compute; congruence. Defined.

Lemma overall_performance_sentence_witness :
  Store.valid carl /\ Store.valid dana
  /\ hd_error (generateInsights (ofRow carl) (ofRow dana))
     = Some comparableSentence.
Proof.
  split; [exact carl_valid|]. split; [exact dana_valid|].
  apply (proj2 (proj2 (proj2 (proj2 (proj2 (proj2
           (overall_performance_sentence carl dana carl_valid dana_valid)))))));
    reflexivity.
Defined.

Lemma insights_in_step_order_witness :
  In (decliningSentence "Ann") (trendStep (ofRow ann))
  /\ (decliningSentence "Ann" = improvingSentence (name (ofRow ann))
      \/ decliningSentence "Ann" = decliningSentence (name (ofRow ann))).
Proof.
  assert (H : In (decliningSentence "Ann") (trendStep (ofRow ann)))
    by (vm_compute; left; reflexivity).
  split; [exact H|].
  exact (proj1 (proj2 (proj2 (insights_in_step_order (ofRow ann) (ofRow bob))))
           (ofRow ann) (decliningSentence "Ann") H).
Defined.

Lemma specialization_sentences_witness :
  Store.valid ann /\ Store.valid bob
  /\ generateInsights (ofRow ann) (ofRow bob)
     = (overallStep (ofRow ann) (ofRow bob)
        ++ consistencyStep (ofRow ann) (ofRow bob)
        ++ winRateStep (ofRow ann) (ofRow bob)
        ++ trendStep (ofRow ann) ++ trendStep (ofRow bob))
       ++ specializationRule ann ++ specializationRule bob
  /\ specializationRule ann = [scorerSentence (ofRow ann)]
  /\ specializationRule bob = [].
Proof.
  split; [exact ann_valid|]. split; [exact bob_valid|].
  destruct (specialization_sentences ann bob ann_valid bob_valid) as [Hsteps Hrule].
  split; [exact Hsteps|]. split.
  - apply (proj1 (Hrule ann)). split; reflexivity.
  - apply (proj2 (proj2 (proj2 (proj2 (Hrule bob))))). reflexivity.
Defined.

Lemma win_rate_sentence_witness :
  Store.valid ann /\ Store.valid bob
  /\ winRateStep (ofRow ann) (ofRow bob)
     = ["Ann has a superior win rate of 80.0% compared to 40.0%."%string]
  /\ (exactRate bob < exactRate ann)%Q.
Proof.
  split; [exact ann_valid|]. split; [exact bob_valid|].
  destruct (win_rate_sentence ann bob ann_valid bob_valid)
    as (_ & _ & _ & _ & Hsentence & Hhigher & _ & _).
  split; [apply Hsentence; reflexivity|].
  apply Hhigher. reflexivity.
Defined.

(** The bounds of C9 are reached: one sentence for two players who differ
    in nothing, seven when every step finds something to say. *)
Example one_insight :
  generateInsights (ofRow bob) (ofRow bob)
  = ["Both players show comparable overall performance levels."%string].
Proof. vm_compute. reflexivity. Qed.

Example seven_insights :
  List.length
    (generateInsights (ofRow ann)
       (ofRow {| Store.id := "e"; Store.name := "Eve"; Store.sport := "basketball";
                 Store.matches := 20; Store.score := 10; Store.assists := 30;
                 Store.rebounds := 15; Store.wins := 5 |}))
  = 7%nat.
Proof. vm_compute. reflexivity. Qed.

(** * Lookups in the store *)

Lemma key_determines_row table r r' :
  primaryKey table -> In r table -> In r' table ->
  Store.id r = Store.id r' -> r = r'.
Proof.
  unfold primaryKey.
  induction table as [|x table IH]; cbn [map In]; intros Hk Hr Hr' Hid;
    [contradiction|].
  inversion Hk as [|y l Hnotin Hnodup]; subst.
  destruct Hr as [<-|Hr], Hr' as [<-|Hr'].
  - reflexivity.
  - exfalso. apply Hnotin. rewrite Hid. now apply in_map.
  - exfalso. apply Hnotin. rewrite <- Hid. now apply in_map.
  - now apply IH.
Qed.

Lemma filter_key_absent table key :
  ~ In key (map Store.id table) ->
  filter (fun r => String.eqb (Store.id r) key) table = [].
Proof.
  induction table as [|x table IH]; cbn [map In filter]; intros Hn;
    [reflexivity|].
  destruct (String.eqb_spec (Store.id x) key) as [He|He].
  - exfalso. apply Hn. now left.
  - apply IH. intros H. apply Hn. now right.
Qed.

Lemma filter_key_present table r :
  primaryKey table -> In r table ->
  filter (fun x => String.eqb (Store.id x) (Store.id r)) table = [r].
Proof.
  unfold primaryKey.
  induction table as [|x table IH]; cbn [map In filter]; intros Hk Hr;
    [contradiction|].
  inversion Hk as [|y l Hnotin Hnodup]; subst.
  destruct (String.eqb_spec (Store.id x) (Store.id r)) as [He|He].
  - destruct Hr as [<-|Hr].
    + now rewrite filter_key_absent.
    + exfalso. apply Hnotin. rewrite He. now apply in_map.
  - destruct Hr as [<-|Hr]; [contradiction|]. now apply IH.
Qed.

Lemma filter_either {A} (f g : A -> bool) l :
  (forall x, f x = true -> g x = true -> False) ->
  List.length (filter (fun x => f x || g x) l)
  = (List.length (filter f l) + List.length (filter g l))%nat.
Proof.
  intros Hfg. induction l as [|x l IH]; cbn [filter]; [reflexivity|].
  specialize (Hfg x).
  destruct (f x), (g x); cbn [orb List.length]; lia.
Qed.

Lemma selected_rows table id1 id2 :
  filter (fun r => existsb (String.eqb (Store.id r)) [id1; id2]) table
  = filter (fun r => String.eqb (Store.id r) id1 || String.eqb (Store.id r) id2)
      table.
Proof.
  apply filter_ext. intros r. cbn [existsb]. now rewrite orb_false_r.
Qed.

Lemma key_count table key :
  primaryKey table ->
  List.length (filter (fun r => String.eqb (Store.id r) key) table)
  = if in_dec string_dec key (map Store.id table) then 1%nat else 0%nat.
Proof.
  intros Hk. destruct (in_dec string_dec key (map Store.id table)) as [Hin|Hn].
  - apply in_map_iff in Hin. destruct Hin as (r & <- & Hr).
    now rewrite filter_key_present.
  - now rewrite filter_key_absent.
Qed.

(** The [in] filter on two identifiers finds two rows exactly when the
    identifiers differ and each is the key of a row. *)
Lemma selected_two table id1 id2 :
  primaryKey table ->
  List.length
    (filter (fun r => existsb (String.eqb (Store.id r)) [id1; id2]) table)
  = 2%nat
  <-> id1 <> id2
      /\ In id1 (map Store.id table) /\ In id2 (map Store.id table).
Proof.
  intros Hk. destruct (string_dec id1 id2) as [<-|Hne].
  - pose proof (lookup_same_identifier table id1 Hk). split; [lia|tauto].
  - rewrite selected_rows, filter_either, !key_count by
      (try assumption; intros x H1 H2;
       apply String.eqb_eq in H1, H2; congruence).
    destruct (in_dec string_dec id1 (map Store.id table)),
      (in_dec string_dec id2 (map Store.id table)); split; try lia; tauto.
Qed.

Lemma id_ofRow r : id (ofRow r) = Store.id r.
Proof. reflexivity. Qed.

(** [find] by key on the answer of the store returns the row of that key,
    wherever it stands in the table. *)
Lemma findPlayer_selected table ids r :
  primaryKey table -> In r table -> In (Store.id r) ids ->
  findPlayer
    (map ofRow (filter (fun x => existsb (String.eqb (Store.id x)) ids) table))
    (Store.id r)
  = Return (ofRow r).
Proof.
  intros Hk Hr Hid. unfold findPlayer.
  set (rows := filter _ table).
  assert (Hin : In r rows).
  { apply filter_In. split; [assumption|]. apply existsb_exists.
    exists (Store.id r). split; [assumption|apply String.eqb_refl]. }
  destruct (find _ (map ofRow rows)) as [p|] eqn:Hf.
  - apply find_some in Hf. destruct Hf as [Hp Hpid].
    apply in_map_iff in Hp. destruct Hp as (r' & <- & Hr').
    apply filter_In in Hr'. destruct Hr' as [Hr' _].
    rewrite id_ofRow in Hpid. apply String.eqb_eq in Hpid.
    now rewrite (key_determines_row table r' r Hk Hr' Hr Hpid).
  - exfalso. pose proof (find_none _ _ Hf (ofRow r) (in_map ofRow _ _ Hin)) as H.
    cbn beta in H. rewrite id_ofRow, String.eqb_refl in H. discriminate H.
Qed.

Lemma findPlayer_returned players wanted p :
  findPlayer players wanted = Return p -> In p players /\ id p = wanted.
Proof.
  unfold findPlayer.
  destruct (find _ players) as [q|] eqn:Hf; [|discriminate].
  intros H. injection H as <-. apply find_some in Hf.
  destruct Hf as [Hin Hid]. apply String.eqb_eq in Hid. now split.
Qed.

Lemma truthy_some a s : truthy a = Some s -> a = Some s /\ s <> ""%string.
Proof.
  destruct a as [x|]; cbn [truthy]; [|discriminate].
  destruct (String.eqb_spec x ""); [discriminate|].
  intros H. injection H as <-. now split.
Qed.

Lemma truthy_nonempty s : s <> ""%string -> truthy (Some s) = Some s.
Proof.
  intros H. cbn [truthy]. now destruct (String.eqb_spec s "").
Qed.

(** * The paths through the handler *)

(** The success path on a keyed table. *)
Lemma comparePlayers_found table req r1 r2 :
  primaryKey table -> In r1 table -> In r2 table ->
  Store.id r1 <> Store.id r2 ->
  Store.id r1 <> ""%string -> Store.id r2 <> ""%string ->
  json req = Fields (Some (Store.id r1)) (Some (Store.id r2)) ->
  comparePlayers req (selectIn table)
  = Return {| status := 200;
              headers := jsonHeaders;
              body := Comparison
                        (publicStats (ofRow r1), publicStats (ofRow r2))
                        (trendOf (trend (ofRow r1)), trendOf (trend (ofRow r2)))
                        (generateInsights (ofRow r1) (ofRow r2)) |}.
Proof.
  intros Hk H1 H2 Hne He1 He2 Hj. unfold comparePlayers. rewrite Hj.
  cbn [bind]. rewrite !truthy_nonempty by assumption.
  cbn [selectIn error data]. rewrite length_map.
  assert (Hlen : List.length
            (filter (fun r => existsb (String.eqb (Store.id r))
                                [Store.id r1; Store.id r2]) table) = 2%nat).
  { apply selected_two; [assumption|]. split; [assumption|].
    split; now apply in_map. }
  rewrite Hlen. cbn [Nat.eqb negb].
  rewrite (findPlayer_selected table _ r1), (findPlayer_selected table _ r2)
    by (try assumption; cbn [In]; tauto).
  reflexivity.
Qed.

(** What the body of the handler has checked when it returns. *)
Lemma comparePlayers_returned req query response :
  comparePlayers req query = Return response ->
  exists id1 id2 players p1 p2,
    json req = Fields (Some id1) (Some id2)
    /\ id1 <> ""%string /\ id2 <> ""%string
    /\ error (query [id1; id2]) = None
    /\ data (query [id1; id2]) = Some players
    /\ List.length players = 2%nat
    /\ In p1 players /\ id p1 = id1
    /\ In p2 players /\ id p2 = id2
    /\ response
       = {| status := 200;
            headers := jsonHeaders;
            body := Comparison
                      (publicStats p1, publicStats p2)
                      (trendOf (trend p1), trendOf (trend p2))
                      (generateInsights p1 p2) |}.
Proof.
  unfold comparePlayers. destruct (json req) as [e|a b]; [discriminate|].
  cbn [bind]. destruct (truthy a) as [id1|] eqn:Ha; [|discriminate].
  destruct (truthy b) as [id2|] eqn:Hb; [|discriminate].
  apply truthy_some in Ha, Hb. destruct Ha as [-> He1], Hb as [-> He2].
  destruct (error (query [id1; id2])) eqn:He; [discriminate|].
  destruct (data (query [id1; id2])) as [players|] eqn:Hd; [|discriminate].
  destruct (Nat.eqb_spec (List.length players) 2) as [Hlen|Hlen];
    cbn [negb]; [|discriminate].
  destruct (findPlayer players id1) as [p1|] eqn:H1; [|discriminate].
  destruct (findPlayer players id2) as [p2|] eqn:H2; [|discriminate].
  cbn [bind]. intros H. injection H as <-.
  apply findPlayer_returned in H1, H2.
  destruct H1 as [H1 H1'], H2 as [H2 H2'].
  exists id1, id2, players, p1, p2.
  repeat (split; [assumption || reflexivity|]). reflexivity.
Qed.

Lemma serve_caught req query e :
  method req <> "OPTIONS"%string ->
  comparePlayers req query = Throw e ->
  serve req query
  = {| status := 500; headers := jsonHeaders;
       body := ErrorEnvelope (reportedMessage e) |}.
Proof.
  intros Hm He. apply String.eqb_neq in Hm. unfold serve. rewrite Hm, He.
  now destruct e.
Qed.

Lemma serve_returned req query response :
  method req <> "OPTIONS"%string ->
  comparePlayers req query = Return response ->
  serve req query = response.
Proof.
  intros Hm He. apply String.eqb_neq in Hm. unfold serve. now rewrite Hm, He.
Qed.

Lemma comparePlayers_missing req query a b :
  json req = Fields a b -> truthy a = None \/ truthy b = None ->
  comparePlayers req query
  = Throw (ErrorObject "Both player IDs are required").
Proof.
  intros Hj H. unfold comparePlayers. rewrite Hj. cbn [bind].
  destruct H as [-> | ->]; [reflexivity|]. now destruct (truthy a).
Qed.

Lemma comparePlayers_not_two table req a b id1 id2 :
  primaryKey table ->
  json req = Fields a b -> truthy a = Some id1 -> truthy b = Some id2 ->
  ~ (id1 <> id2
     /\ In id1 (map Store.id table) /\ In id2 (map Store.id table)) ->
  comparePlayers req (selectIn table)
  = Throw (ErrorObject "Could not find both players").
Proof.
  intros Hk Hj Ha Hb Hn. unfold comparePlayers. rewrite Hj. cbn [bind].
  rewrite Ha, Hb. cbn [selectIn error data]. rewrite length_map.
  destruct (Nat.eqb_spec
              (List.length
                 (filter (fun r => existsb (String.eqb (Store.id r)) [id1; id2])
                    table)) 2) as [He|He]; [|reflexivity].
  exfalso. apply Hn. now apply selected_two.
Qed.

Lemma bothFound_dec table a b : bothFound table a b \/ ~ bothFound table a b.
Proof.
  unfold bothFound.
  destruct (truthy a) as [id1|] eqn:Ea.
  2:{ right. intros (x & y & H & _). discriminate H. }
  destruct (truthy b) as [id2|] eqn:Eb.
  2:{ right. intros (x & y & _ & H & _). discriminate H. }
  destruct (string_dec id1 id2) as [He|He].
  { right. intros (x & y & Hx & Hy & Hxy & _). congruence. }
  destruct (in_dec string_dec id1 (map Store.id table)) as [H1|H1].
  2:{ right. intros (x & y & Hx & Hy & _ & Hi & _).
      injection Hx as <-. contradiction. }
  destruct (in_dec string_dec id2 (map Store.id table)) as [H2|H2].
  2:{ right. intros (x & y & Hx & Hy & _ & _ & Hi).
      injection Hy as <-. contradiction. }
  left. now exists id1, id2.
Qed.

(** The three outcomes of a request on a keyed table. *)
Lemma serve_outcomes table req a b :
  primaryKey table ->
  method req <> "OPTIONS"%string ->
  json req = Fields a b ->
  let response := serve req (selectIn table) in
  (bothFound table a b ->
   status response = 200 /\ exists c t ins, body response = Comparison c t ins)
  /\ (truthy a = None \/ truthy b = None ->
      response
      = {| status := 500; headers := jsonHeaders;
           body := ErrorEnvelope "Both player IDs are required" |})
  /\ (truthy a <> None -> truthy b <> None -> ~ bothFound table a b ->
      response
      = {| status := 500; headers := jsonHeaders;
           body := ErrorEnvelope "Could not find both players" |}).
Proof.
  intros Hk Hm Hj response. split; [|split].
  - intros (id1 & id2 & Ha & Hb & Hne & H1 & H2).
    apply truthy_some in Ha, Hb. destruct Ha as [-> He1], Hb as [-> He2].
    apply in_map_iff in H1, H2.
    destruct H1 as (r1 & <- & H1), H2 as (r2 & <- & H2).
    unfold response.
    rewrite (serve_returned _ _ _ Hm
               (comparePlayers_found table req r1 r2 Hk H1 H2 Hne He1 He2 Hj)).
    split; [reflexivity|]. now eexists _, _, _.
  - intros H. unfold response.
    now rewrite (serve_caught _ _ _ Hm (comparePlayers_missing _ _ a b Hj H)).
  - intros Ha Hb Hn. unfold response.
    destruct (truthy a) as [id1|] eqn:Ea; [|contradiction].
    destruct (truthy b) as [id2|] eqn:Eb; [|contradiction].
    rewrite (serve_caught _ _ _ Hm
               (comparePlayers_not_two table req a b id1 id2 Hk Hj Ea Eb
                  ltac:(intros (H1 & H2 & H3); apply Hn;
                        exists id1, id2; tauto))).
    reflexivity.
Qed.

Lemma serve_not_found table req a b :
  primaryKey table ->
  method req <> "OPTIONS"%string ->
  json req = Fields a b ->
  ~ bothFound table a b ->
  status (serve req (selectIn table)) = 500
  /\ exists m, body (serve req (selectIn table)) = ErrorEnvelope m.
Proof.
  intros Hk Hm Hj Hn.
  destruct (serve_outcomes table req a b Hk Hm Hj) as (_ & Hmissing & Hnot).
  destruct (truthy a) as [id1|] eqn:Ea.
  2:{ rewrite Hmissing by now left. split; [reflexivity|now eexists]. }
  destruct (truthy b) as [id2|] eqn:Eb.
  2:{ rewrite Hmissing by now right. split; [reflexivity|now eexists]. }
  rewrite Hnot by (assumption || discriminate).
  split; [reflexivity|now eexists].
Qed.

(** * The trend summary and the trend sentences *)

Lemma exactSlope_sign r :
  (exactSlope r ?= 0)%Q = (Store.rebounds r - Store.score r ?= 0).
Proof.
  unfold exactSlope, Qcompare, Qdiv, Qminus, Qplus, Qopp, Qmult, Qinv, inject_Z.
  cbn [Qnum Qden]. change (Z.pos (1 * 2)) with 2.
  destruct (Z.compare_spec (Store.rebounds r - Store.score r) 0);
    [apply Z.compare_eq_iff|apply Z.compare_lt_iff|apply Z.compare_gt_iff]; lia.
Qed.

Lemma exactSlope_above r :
  (exactSlope r ?= 1 # 2)%Q = (Store.rebounds r - Store.score r ?= 1).
Proof.
  unfold exactSlope, Qcompare, Qdiv, Qminus, Qplus, Qopp, Qmult, Qinv, inject_Z.
  cbn [Qnum Qden]. change (Z.pos (1 * 2)) with 2.
  destruct (Z.compare_spec (Store.rebounds r - Store.score r) 1);
    [apply Z.compare_eq_iff|apply Z.compare_lt_iff|apply Z.compare_gt_iff]; lia.
Qed.

Lemma exactSlope_below r :
  (exactSlope r ?= - (1 # 2))%Q = (Store.rebounds r - Store.score r ?= -1).
Proof.
  unfold exactSlope, Qcompare, Qdiv, Qminus, Qplus, Qopp, Qmult, Qinv, inject_Z.
  cbn [Qnum Qden]. change (Z.pos (1 * 2)) with 2.
  destruct (Z.compare_spec (Store.rebounds r - Store.score r) (-1));
    [apply Z.compare_eq_iff|apply Z.compare_lt_iff|apply Z.compare_gt_iff]; lia.
Qed.

(** The slope the code computes on a row is the exact slope. *)
Lemma trend_exact r :
  Store.valid r ->
  Num.isFinite (trend (ofRow r)) = true
  /\ (Num.toQ (trend (ofRow r)) == exactSlope r)%Q.
Proof.
  intros Hv. rewrite trend_ofRow by assumption.
  split; [apply dyadic_isFinite|].
  destruct Hv as (_ & Hs & _ & Hr & _). apply int4_small in Hs, Hr.
  rewrite toQ_dyadic by (change (2 ^ Num.prec) with (2 ^ 49 * 16); lia).
  unfold exactSlope, Z.sub. rewrite inject_Z_plus, inject_Z_opp.
  change (Qpower 2 (-1)) with (/ 2)%Q. field.
Qed.

Lemma exactSlope_ols r :
  (exactSlope r
   == olsSlope [inject_Z (Store.score r); inject_Z (Store.assists r);
                inject_Z (Store.rebounds r)])%Q.
Proof. now rewrite olsSlope_three. Qed.

(** The trend summary of a row carries the label of the rule. *)
Lemma trendOf_ofRow r :
  Store.valid r ->
  trendOf (trend (ofRow r))
  = {| slope := trend (ofRow r); direction := directionRule r |}.
Proof.
  intros Hv. destruct (trend_signs r Hv) as (Hgt0 & Hlt0 & _).
  unfold trendOf, directionRule. rewrite Hgt0, Hlt0, exactSlope_sign.
  destruct (Z.ltb_spec (Store.score r) (Store.rebounds r)),
    (Z.ltb_spec (Store.rebounds r) (Store.score r)),
    (Z.compare_spec (Store.rebounds r - Store.score r) 0);
    try lia; reflexivity.
Qed.

(** The trend step on a row appends the sentence of the rule. *)
Lemma trendStep_ofRow r : Store.valid r -> trendStep (ofRow r) = trendRule r.
Proof.
  intros Hv. destruct (trend_signs r Hv) as (_ & _ & _ & Hgt5 & Hlt5).
  unfold trendStep, trendRule.
  rewrite Hgt5, Hlt5, exactSlope_above, exactSlope_below.
  destruct (Z.ltb_spec (Store.score r + 1) (Store.rebounds r)),
    (Z.ltb_spec (Store.rebounds r + 1) (Store.score r)),
    (Z.compare_spec (Store.rebounds r - Store.score r) 1),
    (Z.compare_spec (Store.rebounds r - Store.score r) (-1));
    try lia; reflexivity.
Qed.

Lemma trendRule_cases r :
  (trendRule r = [improvingSentence (Store.name r)]
   <-> (1 # 2 < exactSlope r)%Q)
  /\ (trendRule r = [decliningSentence (Store.name r)]
      <-> (exactSlope r < - (1 # 2))%Q)
  /\ (trendRule r = [] <-> (- (1 # 2) <= exactSlope r <= 1 # 2)%Q).
Proof.
  pose proof (improving_not_declining (Store.name r)) as Hne.
  rewrite (Qgt_alt (exactSlope r) (1 # 2)), (Qlt_alt (exactSlope r) (- (1 # 2))).
  rewrite (Qge_alt (exactSlope r) (- (1 # 2))), (Qle_alt (exactSlope r) (1 # 2)).
  unfold trendRule. rewrite exactSlope_above, exactSlope_below.
  destruct (Z.compare_spec (Store.rebounds r - Store.score r) 1),
    (Z.compare_spec (Store.rebounds r - Store.score r) (-1));
    try lia; repeat split; intros; try discriminate; try reflexivity;
    try congruence; try tauto;
    try (exfalso; intuition congruence).
Qed.

Lemma directionRule_cases r :
  (directionRule r = "Improving performance"%string <-> (0 < exactSlope r)%Q)
  /\ (directionRule r = "Declining performance"%string
      <-> (exactSlope r < 0)%Q)
  /\ (directionRule r = "Stable performance"%string
      <-> (exactSlope r == 0)%Q).
Proof.
  rewrite (Qgt_alt (exactSlope r) 0), (Qlt_alt (exactSlope r) 0),
    (Qeq_alt (exactSlope r) 0).
  unfold directionRule.
  destruct (exactSlope r ?= 0)%Q; repeat split; intros;
    try discriminate; reflexivity.
Qed.

(** C5.  For two rows of the store that a request names, the response
    carries for each player the slope of [score, assists, rebounds], which
    is exactly (rebounds - score) / 2, with the label "Improving
    performance" iff that slope is above 0, "Declining performance" iff it
    is below 0 and "Stable performance" iff it equals 0; the insights of the
    same response are computed from the same slopes with another threshold:
    step 4 appends the improving sentence iff the slope is above 0.5, the
    declining sentence iff it is below -0.5 and nothing in between, for
    player 1 and then for player 2.  When score, assists and rebounds are
    identical the slope is 0, the label is "Stable performance" and step 4
    appends nothing. *)
Theorem trend_direction_and_sentence table req r1 r2 :
  primaryKey table ->
  method req <> "OPTIONS"%string ->
  In r1 table -> In r2 table ->
  Store.id r1 <> Store.id r2 ->
  Store.id r1 <> ""%string -> Store.id r2 <> ""%string ->
  json req = Fields (Some (Store.id r1)) (Some (Store.id r2)) ->
  Store.valid r1 -> Store.valid r2 ->
  let p1 := ofRow r1 in
  let p2 := ofRow r2 in
  serve req (selectIn table)
  = {| status := 200;
       headers := jsonHeaders;
       body := Comparison
                 (publicStats p1, publicStats p2)
                 ({| slope := trend p1; direction := directionRule r1 |},
                  {| slope := trend p2; direction := directionRule r2 |})
                 (generateInsights p1 p2) |}
  /\ generateInsights p1 p2
     = (overallStep p1 p2 ++ consistencyStep p1 p2 ++ winRateStep p1 p2)
       ++ (trendRule r1 ++ trendRule r2)
       ++ (specializationStep p1 ++ specializationStep p2)
  /\ (forall r,
         Store.valid r ->
         Num.isFinite (trend (ofRow r)) = true
         /\ (Num.toQ (trend (ofRow r)) == exactSlope r)%Q
         /\ (exactSlope r
             == olsSlope [inject_Z (Store.score r); inject_Z (Store.assists r);
                          inject_Z (Store.rebounds r)])%Q
         /\ trendOf (trend (ofRow r))
            = {| slope := trend (ofRow r); direction := directionRule r |}
         /\ trendStep (ofRow r) = trendRule r
         /\ (Store.score r = Store.assists r ->
             Store.assists r = Store.rebounds r ->
             trend (ofRow r) = 0%num
             /\ directionRule r = "Stable performance"%string
             /\ trendRule r = []))
  /\ (forall r,
         (directionRule r = "Improving performance"%string
          <-> (0 < exactSlope r)%Q)
         /\ (directionRule r = "Declining performance"%string
             <-> (exactSlope r < 0)%Q)
         /\ (directionRule r = "Stable performance"%string
             <-> (exactSlope r == 0)%Q)
         /\ (trendRule r = [improvingSentence (Store.name r)]
             <-> (1 # 2 < exactSlope r)%Q)
         /\ (trendRule r = [decliningSentence (Store.name r)]
             <-> (exactSlope r < - (1 # 2))%Q)
         /\ (trendRule r = [] <-> (- (1 # 2) <= exactSlope r <= 1 # 2)%Q)).
Proof.
  intros Hk Hm H1 H2 Hne He1 He2 Hj Hv1 Hv2 p1 p2.
  split; [|split; [|split]].
  - rewrite (serve_returned _ _ _ Hm
               (comparePlayers_found table req r1 r2 Hk H1 H2 Hne He1 He2 Hj)).
    now rewrite !trendOf_ofRow by assumption.
  - rewrite generateInsights_steps. unfold p1, p2.
    rewrite !trendStep_ofRow by assumption. now rewrite <- !app_assoc.
  - intros r Hv. destruct (trend_exact r Hv) as [Hfin Hq].
    split; [exact Hfin|]. split; [exact Hq|].
    split; [apply exactSlope_ols|].
    split; [now apply trendOf_ofRow|]. split; [now apply trendStep_ofRow|].
    intros Hsa Har.
    assert (Hd : Store.rebounds r - Store.score r = 0) by lia.
    split; [|split].
    + rewrite trend_ofRow by assumption. now rewrite Hd.
    + unfold directionRule. now rewrite exactSlope_sign, Hd.
    + unfold trendRule. now rewrite exactSlope_above, exactSlope_below, Hd.
  - intros r.
    destruct (directionRule_cases r) as (D1 & D2 & D3).
    destruct (trendRule_cases r) as (T1 & T2 & T3).
    split; [exact D1|]. split; [exact D2|]. split; [exact D3|].
    split; [exact T1|]. split; [exact T2|exact T3].
Qed.

Lemma trend_direction_and_sentence_witness :
  let req := {| method := "POST";
                json := Fields (Some "a"%string) (Some "b"%string) |} in
  primaryKey demoTable /\ In ann demoTable /\ In bob demoTable
  /\ Store.valid ann /\ Store.valid bob
  /\ serve req (selectIn demoTable)
     = {| status := 200;
          headers := jsonHeaders;
          body := Comparison
                    (publicStats (ofRow ann), publicStats (ofRow bob))
                    ({| slope := -20; direction := "Declining performance" |},
                     {| slope := 0; direction := "Stable performance" |})
                    (generateInsights (ofRow ann) (ofRow bob)) |}
  /\ trendRule ann = [decliningSentence "Ann"] /\ trendRule bob = [].
Proof.
  intros req.
  assert (Ha : In ann demoTable) by (left; reflexivity).
  assert (Hb : In bob demoTable) by (right; left; reflexivity).
  assert (Hm : method req <> "OPTIONS"%string) by discriminate.
  assert (Hne : Store.id ann <> Store.id bob) by discriminate.
  assert (He1 : Store.id ann <> ""%string) by discriminate.
  assert (He2 : Store.id bob <> ""%string) by discriminate.
  split; [exact demoTable_primaryKey|]. split; [exact Ha|]. split; [exact Hb|].
  split; [exact ann_valid|]. split; [exact bob_valid|].
  split; [|split; reflexivity].
  exact (proj1 (trend_direction_and_sentence demoTable req ann bob
                  demoTable_primaryKey Hm Ha Hb Hne He1 He2 eq_refl
                  ann_valid bob_valid)).
Defined.

(** X1.  On a table with a primary key, a request other than a pre-flight
    that names two different rows by their non-empty ids is answered with
    status 200 and the comparison of exactly these rows: player 1 is the row
    of the first id and player 2 the row of the second, wherever the rows
    stand in the table, with the trend summaries and the insights computed
    from them. *)
Theorem serve_compares_requested_rows table req r1 r2 :
  primaryKey table ->
  method req <> "OPTIONS"%string ->
  In r1 table -> In r2 table ->
  Store.id r1 <> Store.id r2 ->
  Store.id r1 <> ""%string -> Store.id r2 <> ""%string ->
  json req = Fields (Some (Store.id r1)) (Some (Store.id r2)) ->
  serve req (selectIn table)
  = {| status := 200;
       headers := jsonHeaders;
       body := Comparison
                 (publicStats (ofRow r1), publicStats (ofRow r2))
                 (trendOf (trend (ofRow r1)), trendOf (trend (ofRow r2)))
                 (generateInsights (ofRow r1) (ofRow r2)) |}.
Proof.
  intros Hk Hm H1 H2 Hne He1 He2 Hj.
  apply serve_returned; [assumption|]. now apply comparePlayers_found.
Qed.

Lemma serve_compares_requested_rows_witness :
  let req := {| method := "POST";
                json := Fields (Some "b"%string) (Some "a"%string) |} in
  primaryKey demoTable /\ In bob demoTable /\ In ann demoTable
  /\ serve req (selectIn demoTable)
     = {| status := 200;
          headers := jsonHeaders;
          body := Comparison
                    (publicStats (ofRow bob), publicStats (ofRow ann))
                    (trendOf (trend (ofRow bob)), trendOf (trend (ofRow ann)))
                    (generateInsights (ofRow bob) (ofRow ann)) |}.
Proof.
  intros req.
  assert (Hb : In bob demoTable) by (right; left; reflexivity).
  assert (Ha : In ann demoTable) by (left; reflexivity).
  split; [exact demoTable_primaryKey|]. split; [exact Hb|]. split; [exact Ha|].
  apply (serve_compares_requested_rows demoTable req bob ann
           demoTable_primaryKey);
    try assumption; try discriminate; reflexivity.
Defined.

(** X2.  On a table with a primary key, a request other than a pre-flight
    whose identifiers are each absent, empty or a UUID as the store prints
    it is answered with status 200, and with a comparison, exactly when both
    identifiers are non-empty, differ and are ids of rows.  When an
    identifier is missing or empty the answer is the 500 envelope with "Both
    player IDs are required"; when both are UUIDs but are equal, or one is
    not in the table, it is the 500 envelope with "Could not find both
    players". *)
Theorem serve_succeeds_iff_both_found table req a b :
  primaryKey table ->
  uuidKeys table ->
  uuidOrMissing a -> uuidOrMissing b ->
  method req <> "OPTIONS"%string ->
  json req = Fields a b ->
  let response := serve req (selectIn table) in
  (status response = 200 <-> bothFound table a b)
  /\ ((exists c t ins, body response = Comparison c t ins)
      <-> bothFound table a b)
  /\ (truthy a = None \/ truthy b = None ->
      response
      = {| status := 500; headers := jsonHeaders;
           body := ErrorEnvelope "Both player IDs are required" |})
  /\ (truthy a <> None -> truthy b <> None -> ~ bothFound table a b ->
      response
      = {| status := 500; headers := jsonHeaders;
           body := ErrorEnvelope "Could not find both players" |}).
Proof.
  intros Hk _ _ _ Hm Hj response.
  destruct (serve_outcomes table req a b Hk Hm Hj) as (Hfound & Hmissing & Hnot).
  fold response in Hfound, Hmissing, Hnot.
  pose proof (serve_not_found table req a b Hk Hm Hj) as Hfails.
  fold response in Hfails.
  split; [|split; [|split; assumption]].
  - split; [|apply Hfound].
    intros Hs. destruct (bothFound_dec table a b) as [H|H]; [assumption|].
    destruct (Hfails H) as [H5 _]. rewrite H5 in Hs. discriminate Hs.
  - split; [|apply Hfound].
    intros (c & t & ins & Hbody).
    destruct (bothFound_dec table a b) as [H|H]; [assumption|].
    destruct (Hfails H) as (_ & m & Hb). rewrite Hb in Hbody. discriminate Hbody.
Qed.

Lemma leagueTable_primaryKey : primaryKey leagueTable.
Proof.
  unfold primaryKey, leagueTable. cbn [map Store.id].
  repeat constructor; cbn; intuition discriminate.
Defined.

Lemma leagueTable_uuidKeys : uuidKeys leagueTable.
Proof. repeat constructor. Defined.

Lemma serve_succeeds_iff_both_found_witness :
  let absent := "33333333-3333-4333-8333-333333333333"%string in
  let req := {| method := "POST";
                json := Fields (Some (Store.id uma)) (Some absent) |} in
  primaryKey leagueTable /\ uuidKeys leagueTable
  /\ uuidOrMissing (Some (Store.id uma)) /\ uuidOrMissing (Some absent)
  /\ method req <> "OPTIONS"%string
  /\ serve req (selectIn leagueTable)
     = {| status := 500; headers := jsonHeaders;
          body := ErrorEnvelope "Could not find both players" |}.
Proof.
  intros absent req.
  assert (Hm : method req <> "OPTIONS"%string) by discriminate.
  assert (Hu1 : uuidOrMissing (Some (Store.id uma))) by reflexivity.
  assert (Hu2 : uuidOrMissing (Some absent)) by reflexivity.
  split; [exact leagueTable_primaryKey|]. split; [exact leagueTable_uuidKeys|].
  split; [exact Hu1|]. split; [exact Hu2|]. split; [exact Hm|].
  apply (proj2 (proj2 (proj2
           (serve_succeeds_iff_both_found leagueTable req
              (Some (Store.id uma)) (Some absent)
              leagueTable_primaryKey leagueTable_uuidKeys Hu1 Hu2 Hm
              eq_refl)))).
  - discriminate.
  - discriminate.
  - intros (id1 & id2 & H1 & H2 & _ & _ & Hin).
    injection H2 as <-. cbn in Hin.
    destruct Hin as [H|[H|[]]]; discriminate H.
Defined.

(** X3.  What was thrown decides the message of the failure envelope, for
    every store: an exception from reading the body and an error signalled
    by the store are reported with their own message when they are Error
    objects and as "Unknown error" otherwise, the store error also when the
    store returned rows with it; and a missing identifier is reported before
    the store is asked, so the answer is the same for every store. *)
Theorem thrown_errors_are_reported req query :
  method req <> "OPTIONS"%string ->
  (forall e,
      json req = Unreadable e ->
      serve req query
      = {| status := 500; headers := jsonHeaders;
           body := ErrorEnvelope (reportedMessage e) |})
  /\ (forall a b id1 id2 e,
         json req = Fields a b ->
         truthy a = Some id1 -> truthy b = Some id2 ->
         error (query [id1; id2]) = Some e ->
         serve req query
         = {| status := 500; headers := jsonHeaders;
              body := ErrorEnvelope (reportedMessage e) |})
  /\ (forall a b query',
         json req = Fields a b ->
         truthy a = None \/ truthy b = None ->
         serve req query'
         = {| status := 500; headers := jsonHeaders;
              body := ErrorEnvelope "Both player IDs are required" |}).
Proof.
  intros Hm. split; [|split].
  - intros e Hj. apply serve_caught; [assumption|].
    unfold comparePlayers. now rewrite Hj.
  - intros a b id1 id2 e Hj Ha Hb He. apply serve_caught; [assumption|].
    unfold comparePlayers. rewrite Hj. cbn [bind]. now rewrite Ha, Hb, He.
  - intros a b query' Hj H.
    now rewrite (serve_caught _ _ _ Hm (comparePlayers_missing _ _ a b Hj H)).
Qed.

Lemma thrown_errors_are_reported_witness :
  let req := {| method := "POST"; json := Unreadable OtherValue |} in
  method req <> "OPTIONS"%string
  /\ serve req emptyStore
     = {| status := 500; headers := jsonHeaders;
          body := ErrorEnvelope "Unknown error" |}.
Proof.
  intros req.
  assert (Hm : method req <> "OPTIONS"%string) by discriminate.
  split; [exact Hm|].
  exact (proj1 (thrown_errors_are_reported req emptyStore Hm)
           OtherValue eq_refl).
Defined.

(** X4.  Every response, whatever the request and the store, carries the two
    cross-origin headers; its status is 200 or 500, and 500 exactly when the
    body is the error envelope; the body is empty exactly for a pre-flight,
    and every response with a body declares the JSON content type. *)
Theorem every_response_allows_cross_origin req query :
  let response := serve req query in
  incl corsHeaders (headers response)
  /\ (status response = 200 \/ status response = 500)
  /\ (status response = 500 <-> exists m, body response = ErrorEnvelope m)
  /\ (body response = NoBody <-> method req = "OPTIONS"%string)
  /\ (body response <> NoBody ->
      In ("Content-Type", "application/json")%string (headers response)).
Proof.
  intros response.
  assert (Hcors : incl corsHeaders jsonHeaders)
    by (unfold jsonHeaders; apply incl_appl, incl_refl).
  assert (Hjson : In ("Content-Type", "application/json")%string jsonHeaders)
    by (unfold jsonHeaders; apply in_or_app; right; now left).
  unfold response, serve.
  destruct (String.eqb_spec (method req) "OPTIONS") as [Hm|Hm].
  - cbn [status headers body].
    split; [apply incl_refl|]. split; [now left|].
    split; [split; [discriminate|intros [m H]; discriminate H]|].
    split; [tauto|]. intros H. now contradiction H.
  - destruct (comparePlayers req query) as [r|e] eqn:Hr.
    + apply comparePlayers_returned in Hr.
      destruct Hr as (id1 & id2 & players & p1 & p2 & _ & _ & _ & _ & _ & _
                      & _ & _ & _ & _ & ->).
      cbn [status headers body].
      split; [exact Hcors|]. split; [now left|].
      split; [split; [discriminate|intros [m H]; discriminate H]|].
      split; [split; [discriminate|intros H; contradiction]|].
      intros _. exact Hjson.
    + cbn [status headers body].
      split; [exact Hcors|]. split; [now right|].
      split; [split; [intros _; now eexists|reflexivity]|].
      split; [split; [discriminate|intros H; contradiction]|].
      intros _. exact Hjson.
Qed.

(** X5.  Whatever the store answers, a comparison in a response is a
    comparison of the requested players: the request carried two non-empty
    identifiers, the store signalled no error and returned exactly two
    records, player 1 is a returned record whose id is the first identifier
    and player 2 one whose id is the second, and the trend summaries and the
    insights are computed from these two records. *)
Theorem comparison_is_of_requested_players req query c1 c2 t ins :
  body (serve req query) = Comparison (c1, c2) t ins ->
  exists id1 id2 players p1 p2,
    json req = Fields (Some id1) (Some id2)
    /\ id1 <> ""%string /\ id2 <> ""%string
    /\ error (query [id1; id2]) = None
    /\ data (query [id1; id2]) = Some players
    /\ List.length players = 2%nat
    /\ In p1 players /\ id p1 = id1
    /\ In p2 players /\ id p2 = id2
    /\ c1 = publicStats p1 /\ c2 = publicStats p2
    /\ t = (trendOf (trend p1), trendOf (trend p2))
    /\ ins = generateInsights p1 p2.
Proof.
  unfold serve. destruct (String.eqb (method req) "OPTIONS"); [discriminate|].
  destruct (comparePlayers req query) as [response|e] eqn:Hr; [|discriminate].
  apply comparePlayers_returned in Hr.
  destruct Hr as (id1 & id2 & players & p1 & p2 & Hj & He1 & He2 & He & Hd
                  & Hlen & H1 & H1' & H2 & H2' & ->).
  cbn [body]. intros H. injection H as <- <- <- <-.
  exists id1, id2, players, p1, p2. repeat (split; [assumption|]).
  repeat split.
Qed.

Lemma comparison_is_of_requested_players_witness :
  let req := {| method := "POST";
                json := Fields (Some "a"%string) (Some "b"%string) |} in
  exists id1 id2 players p1 p2,
    json req = Fields (Some id1) (Some id2)
    /\ id1 <> ""%string /\ id2 <> ""%string
    /\ error (selectIn demoTable [id1; id2]) = None
    /\ data (selectIn demoTable [id1; id2]) = Some players
    /\ List.length players = 2%nat
    /\ In p1 players /\ id p1 = id1
    /\ In p2 players /\ id p2 = id2
    /\ publicStats (ofRow ann) = publicStats p1
    /\ publicStats (ofRow bob) = publicStats p2
    /\ (trendOf (trend (ofRow ann)), trendOf (trend (ofRow bob)))
       = (trendOf (trend p1), trendOf (trend p2))
    /\ generateInsights (ofRow ann) (ofRow bob) = generateInsights p1 p2.
Proof.
  intros req.
  apply (comparison_is_of_requested_players req (selectIn demoTable)
           (publicStats (ofRow ann)) (publicStats (ofRow bob))
           (trendOf (trend (ofRow ann)), trendOf (trend (ofRow bob)))
           (generateInsights (ofRow ann) (ofRow bob))).
  vm_compute. reflexivity.
Defined.

(** * Swapping the two players *)

Lemma gt_asym a b : (a >? b)%num = true -> (b >? a)%num = false.
Proof.
  unfold Num.gt, SFltb. rewrite (SFcompare_antisym b a).
  destruct (SFcompare b a) as [[]|]; cbn; congruence.
Qed.

(** X6.  The win-rate step does not depend on the order of the two players:
    for all records, also with counters that are not integers, swapping the
    players gives the same sentence or the same silence. *)
Theorem winRateStep_symmetric p1 p2 : winRateStep p1 p2 = winRateStep p2 p1.
Proof.
  unfold winRateStep.
  destruct (winRate p1 >? winRate p2)%num eqn:H1,
    (winRate p2 >? winRate p1)%num eqn:H2; try reflexivity.
  apply gt_asym in H1. congruence.
Qed.

(** X7.  For rows of the store the overall-performance step does not depend
    on the order of the two players as long as the two totals do not sum to
    a negative number.  It does when the totals are negative: two players
    with the same negative total are each, when given first, said to
    demonstrate significantly higher overall performance. *)
Theorem overallStep_order_of_players r1 r2 :
  Store.valid r1 -> Store.valid r2 ->
  let p1 := ofRow r1 in
  let p2 := ofRow r2 in
  let t1 := Store.score r1 + Store.assists r1 + Store.rebounds r1 in
  let t2 := Store.score r2 + Store.assists r2 + Store.rebounds r2 in
  (0 <= t1 + t2 -> overallStep p1 p2 = overallStep p2 p1)
  /\ (t1 = t2 -> t1 < 0 ->
      overallStep p1 p2 = [leaderSentence (name p1) (total p1) (total p2)]
      /\ overallStep p2 p1 = [leaderSentence (name p2) (total p2) (total p1)]).
Proof.
  intros Hv1 Hv2 p1 p2 t1 t2. unfold overallStep.
  pose proof (gt_total_ofRow r1 r2 Hv1 Hv2) as H12.
  pose proof (gt_total_ofRow r2 r1 Hv2 Hv1) as H21.
  fold p1 p2 t1 t2 in H12, H21. rewrite H12, H21.
  destruct (Z.ltb_spec (6 * t2) (5 * t1)), (Z.ltb_spec (6 * t1) (5 * t2));
    split; intros; try lia; try reflexivity; split; try lia; reflexivity.
Qed.

Lemma lou_valid : Store.valid lou.
Proof. repeat split; vm_compute; congruence. Defined.

Lemma ray_valid : Store.valid ray.
Proof. repeat split; vm_compute; congruence. Defined.

Lemma kim_valid : Store.valid kim.
Proof. repeat split; vm_compute; congruence. Defined.

Lemma overallStep_order_of_players_witness :
  Store.valid lou /\ Store.valid ann
  /\ overallStep (ofRow ann) (ofRow lou) = overallStep (ofRow lou) (ofRow ann)
  /\ overallStep (ofRow lou) (ofRow lou)
     = [leaderSentence "Lou" (-10) (-10)].
Proof.
  split; [exact lou_valid|]. split; [exact ann_valid|]. split.
  - apply (proj1 (overallStep_order_of_players ann lou ann_valid lou_valid)).
    vm_compute. discriminate.
  - apply (proj2 (overallStep_order_of_players lou lou lou_valid lou_valid));
      reflexivity.
Defined.

(** * Specialization against trend *)

(** X8.  For a row of the store, a player whom the specialization step calls
    primarily a scorer has more score than rebounds, so the slope of
    [score, assists, rebounds] is negative: the trend summary of every
    scorer reads "Declining performance", and the trend step never says
    that a scorer is improving. *)
Theorem scorer_is_declining r :
  Store.valid r ->
  let p := ofRow r in
  In (scorerSentence p) (specializationStep p) ->
  Store.rebounds r < Store.score r
  /\ direction (trendOf (trend p)) = "Declining performance"%string
  /\ ~ In (improvingSentence (name p)) (trendStep p).
Proof.
  intros Hv p Hin.
  assert (Hlt : Store.rebounds r < Store.score r).
  { unfold p in Hin. rewrite specializationStep_ofRow in Hin by assumption.
    unfold specializationRule in Hin.
    destruct (Z.ltb_spec (Store.assists r) (Store.score r));
      destruct (Z.ltb_spec (Store.rebounds r) (Store.score r));
      cbn [andb] in Hin; try assumption;
      (destruct (_ && _); cbn [In] in Hin;
       [destruct Hin as [Hin|[]]; symmetry in Hin;
        now apply scorer_not_playmaker in Hin
       |contradiction]). }
  destruct (trend_signs r Hv) as (Hgt0 & Hlt0 & _ & Hgt5 & _).
  fold p in Hgt0, Hlt0, Hgt5.
  split; [exact Hlt|]. split.
  - unfold trendOf. cbn [direction]. rewrite Hgt0, Hlt0.
    destruct (Z.ltb_spec (Store.score r) (Store.rebounds r)); [lia|].
    destruct (Z.ltb_spec (Store.rebounds r) (Store.score r)); [reflexivity|lia].
  - unfold trendStep. rewrite Hgt5.
    destruct (Z.ltb_spec (Store.score r + 1) (Store.rebounds r)); [lia|].
    destruct (trend p <? -0.5)%num; cbn [In]; [|tauto].
    intros [He|[]]. symmetry in He. now apply improving_not_declining in He.
Qed.

Lemma scorer_is_declining_witness :
  Store.valid ann
  /\ In (scorerSentence (ofRow ann)) (specializationStep (ofRow ann))
  /\ direction (trendOf (trend (ofRow ann))) = "Declining performance"%string.
Proof.
  assert (H : In (scorerSentence (ofRow ann)) (specializationStep (ofRow ann)))
    by (vm_compute; left; reflexivity).
  split; [exact ann_valid|]. split; [exact H|].
  exact (proj1 (proj2 (scorer_is_declining ann ann_valid H))).
Defined.

(** * Players without matches *)

Lemma consistency_ofRow r :
  Store.valid r ->
  consistency (ofRow r)
  = if 0 <? Store.matches r
    then (Num.ofZ (Store.score r + Store.assists r + Store.rebounds r)
          / Num.ofZ (Store.matches r))%num
    else 0%num.
Proof.
  intros Hv. unfold consistency. rewrite total_ofRow by assumption.
  destruct Hv as (Hm & _). unfold ofRow. cbn [matches].
  now rewrite gt_ofZ_zero.
Qed.

Lemma consistency_not_nan r :
  Store.valid r -> isNaN (consistency (ofRow r)) = false.
Proof.
  intros Hv. rewrite consistency_ofRow by assumption.
  pose proof (total_small r Hv) as Ht.
  destruct Hv as (Hm & _). apply int4_small, small_fits in Hm.
  destruct (Z.ltb_spec 0 (Store.matches r)); [|reflexivity].
  rewrite !ofZ_dyadic
    by (try assumption; change (2 ^ Num.prec) with (2 ^ 40 * 8192); lia).
  apply div_not_nan; [apply dyadic_isFinite|apply dyadic_isFiniteNonzero; lia].
Qed.

(** X9.  The guard [matches > 0] keeps the divisions defined: for rows of
    the store the per-match ratio and the win rate are never NaN, and both
    are 0 for a player whose matches are 0 or less.  When neither player has
    played a match the consistency step and the win-rate step append
    nothing. *)
Theorem no_matches_no_ratio r1 r2 :
  Store.valid r1 -> Store.valid r2 ->
  let p1 := ofRow r1 in
  let p2 := ofRow r2 in
  isNaN (consistency p1) = false
  /\ isNaN (winRate p1) = false
  /\ (Store.matches r1 <= 0 -> consistency p1 = 0%num /\ winRate p1 = 0%num)
  /\ (Store.matches r1 <= 0 -> Store.matches r2 <= 0 ->
      consistencyStep p1 p2 = [] /\ winRateStep p1 p2 = []).
Proof.
  intros Hv1 Hv2 p1 p2.
  assert (Hzero : forall r, Store.valid r -> Store.matches r <= 0 ->
             consistency (ofRow r) = 0%num /\ winRate (ofRow r) = 0%num).
  { intros r Hv Hm. rewrite consistency_ofRow, winRate_ofRow by assumption.
    destruct (Z.ltb_spec 0 (Store.matches r)); [lia|]. now split. }
  split; [now apply consistency_not_nan|].
  split; [now apply winRate_not_nan|].
  split; [now apply Hzero|].
  intros H1 H2. unfold consistencyStep, winRateStep, p1, p2.
  destruct (Hzero r1 Hv1 H1) as [-> ->], (Hzero r2 Hv2 H2) as [-> ->].
  split; reflexivity.
Qed.

Lemma no_matches_no_ratio_witness :
  Store.valid ray
  /\ consistency (ofRow ray) = 0%num
  /\ winRate (ofRow ray) = 0%num
  /\ consistencyStep (ofRow ray) (ofRow ray) = [].
Proof.
  destruct (no_matches_no_ratio ray ray ray_valid ray_valid)
    as (_ & _ & Hz & Hs).
  split; [exact ray_valid|].
  split; [apply Hz; vm_compute; discriminate|].
  split; [apply Hz; vm_compute; discriminate|].
  apply Hs; vm_compute; discriminate.
Defined.

(** * The trend calculator on integer lists of any length *)

Lemma zsum_app l1 l2 : zsum (l1 ++ l2) = zsum l1 + zsum l2.
Proof.
  induction l1 as [|x l1 IH]; cbn [app zsum fold_right]; [reflexivity|].
  fold (zsum (l1 ++ l2)). fold (zsum l1). lia.
Qed.

Lemma zsum_range l lo hi :
  Forall (fun x => lo <= x <= hi) l ->
  Z.of_nat (List.length l) * lo <= zsum l <= Z.of_nat (List.length l) * hi.
Proof.
  induction 1 as [|x l Hx Hl IH]; cbn [zsum fold_right List.length]; [lia|].
  fold (zsum l). lia.
Qed.

Lemma zsum_indexed (g : nat -> Z) lo hi n :
  (forall j, (j < n)%nat -> lo <= g j <= hi) ->
  Z.of_nat n * lo <= zsum (map g (seq 0 n)) <= Z.of_nat n * hi.
Proof.
  intros Hg.
  replace n with (List.length (map g (seq 0 n))) at 1 4
    by now rewrite length_map, length_seq.
  apply zsum_range, Forall_forall. intros x Hx. apply in_map_iff in Hx.
  destruct Hx as (j & <- & Hj). apply in_seq in Hj. apply Hg. lia.
Qed.

Lemma abs_mul_bound a b A B :
  Z.abs a <= A -> Z.abs b <= B -> Z.abs (a * b) <= A * B.
Proof.
  intros Ha Hb. rewrite Z.abs_mul. apply Z.mul_le_mono_nonneg; lia.
Qed.

(** A [reduce] over the positions whose callback adds an integer [g j] to
    the accumulator stays exact while the partial sums fit. *)
Lemma reduceFrom_indices (f : Num.num -> Num.num -> nat -> Num.num)
    (g : nat -> Z) (M : Z) m :
  forall i acc,
    (forall j a, (i <= j < i + m)%nat -> Z.abs a + M < 2 ^ Num.prec ->
                 f (dyadic a 0) (Num.ofNat j) j = dyadic (a + g j) 0) ->
    (forall j, (i <= j < i + m)%nat -> Z.abs (g j) <= M) ->
    Z.abs acc + Z.of_nat m * M < 2 ^ Num.prec ->
    reduceFrom f i (dyadic acc 0) (map Num.ofNat (seq i m))
    = dyadic (acc + zsum (map g (seq i m))) 0.
Proof.
  induction m as [|m IH]; intros i acc Hf Hg Hb;
    cbn [seq map reduceFrom zsum fold_right].
  - now rewrite Z.add_0_r.
  - fold (zsum (map g (seq (S i) m))).
    pose proof (Hg i ltac:(lia)) as Hgi.
    assert (Hm : 0 <= Z.of_nat m * M) by (apply Z.mul_nonneg_nonneg; lia).
    rewrite Nat2Z.inj_succ, Z.mul_succ_l in Hb.
    rewrite Hf by lia. rewrite IH.
    + f_equal. lia.
    + intros j a Hj Ha. apply Hf; [lia|assumption].
    + intros j Hj. apply Hg. lia.
    + lia.
Qed.

Lemma reduceFrom_values ys M :
  forall i acc,
    Forall (fun y => Z.abs y <= M) ys ->
    M < 2 ^ Num.prec ->
    Z.abs acc + Z.of_nat (List.length ys) * M < 2 ^ Num.prec ->
    reduceFrom (fun a b (_ : nat) => a + b)%num i (dyadic acc 0)
      (map Num.ofZ ys)
    = dyadic (acc + zsum ys) 0.
Proof.
  induction ys as [|y ys IH]; intros i acc Hys HM Hb;
    cbn [map reduceFrom zsum fold_right List.length] in *.
  - now rewrite Z.add_0_r.
  - fold (zsum ys). inversion Hys as [|y' ys' Hy Hys']; subst.
    assert (Hm : 0 <= Z.of_nat (List.length ys) * M)
      by (apply Z.mul_nonneg_nonneg; lia).
    rewrite Nat2Z.inj_succ, Z.mul_succ_l in Hb.
    rewrite ofZ_dyadic, add_dyadic by lia. rewrite IH by (try assumption; lia).
    f_equal. lia.
Qed.

Lemma at_values ys j :
  (j < List.length ys)%nat -> at_ (map Num.ofZ ys) j = Num.ofZ (nth j ys 0).
Proof.
  intros Hj. unfold at_.
  rewrite (nth_indep _ Num.NaN (Num.ofZ 0)) by now rewrite length_map.
  apply map_nth.
Qed.

Lemma add_signed_zero a s : (dyadic a 0 + S754_zero s)%num = dyadic a 0.
Proof. destruct a, s; reflexivity. Qed.

Lemma zero_times y : exists s, (dyadic 0 0 * dyadic y 0)%num = S754_zero s.
Proof. destruct y; eexists; reflexivity. Qed.

Lemma Forall_nth_bound ys M j :
  0 <= M -> Forall (fun y => Z.abs y <= M) ys -> Z.abs (nth j ys 0) <= M.
Proof.
  intros HM Hys. destruct (Nat.lt_ge_cases j (List.length ys)) as [Hj|Hj].
  - rewrite Forall_forall in Hys. apply Hys. now apply nth_In.
  - rewrite nth_overflow by assumption. cbn. lia.
Qed.

Lemma pow2_values : 2 ^ Num.prec = 9007199254740992 /\ 2 ^ 20 = 1048576.
Proof. split; reflexivity. Qed.

Lemma sumX_exact n :
  (n <= 1024)%nat ->
  reduce (fun a b (_ : nat) => a + b)%num 0%num (map Num.ofNat (seq 0 n))
  = dyadic (sumOfX n) 0.
Proof.
  intros Hn. unfold reduce. change 0%num with (dyadic 0 0).
  destruct pow2_values as [H53 H20].
  rewrite (reduceFrom_indices _ Z.of_nat 1024).
  - reflexivity.
  - intros j a Hj Ha. unfold Num.ofNat.
    rewrite ofZ_dyadic, add_dyadic by lia. reflexivity.
  - intros j Hj. lia.
  - lia.
Qed.

Lemma sumX2_exact n :
  (n <= 1024)%nat ->
  reduce (fun a b (_ : nat) => a + b * b)%num 0%num (map Num.ofNat (seq 0 n))
  = dyadic (sumOfX2 n) 0.
Proof.
  intros Hn. unfold reduce. change 0%num with (dyadic 0 0).
  destruct pow2_values as [H53 H20].
  rewrite (reduceFrom_indices _ (fun i => Z.of_nat i * Z.of_nat i) (2 ^ 20)).
  - reflexivity.
  - intros j a Hj Ha. unfold Num.ofNat.
    assert (Hjj : 0 <= Z.of_nat j * Z.of_nat j <= 2 ^ 20) by nia.
    rewrite ofZ_dyadic by lia.
    destruct (Nat.eq_dec j 0) as [->|Hj0].
    + change (dyadic (Z.of_nat 0) 0 * dyadic (Z.of_nat 0) 0)%num
        with (S754_zero false).
      rewrite add_signed_zero. f_equal. lia.
    + rewrite (mul_dyadic _ _ 0 0), add_dyadic by lia. reflexivity.
  - intros j Hj. nia.
  - lia.
Qed.

Lemma sumXY_exact ys :
  (List.length ys <= 1024)%nat ->
  Forall (fun y => Z.abs y <= 2 ^ 20) ys ->
  reduce (fun a b i => a + b * at_ (map Num.ofZ ys) i)%num 0%num
    (map Num.ofNat (seq 0 (List.length ys)))
  = dyadic (sumOfXY ys) 0.
Proof.
  intros Hn Hys. unfold reduce. change 0%num with (dyadic 0 0).
  destruct pow2_values as [H53 H20].
  rewrite (reduceFrom_indices _ (fun i => Z.of_nat i * nth i ys 0) (2 ^ 30)).
  - reflexivity.
  - intros j a Hj Ha. unfold Num.ofNat.
    pose proof (Forall_nth_bound ys (2 ^ 20) j ltac:(lia) Hys) as Hy.
    pose proof (abs_mul_bound (Z.of_nat j) (nth j ys 0) 1024 (2 ^ 20)
                  ltac:(lia) Hy) as Hjy.
    change (1024 * 2 ^ 20) with 1073741824 in Hjy.
    change (2 ^ 30) with 1073741824 in Ha.
    rewrite at_values by lia.
    rewrite !ofZ_dyadic by lia.
    destruct (Nat.eq_dec j 0) as [->|Hj0].
    + destruct (zero_times (nth 0%nat ys 0)) as [s Hs].
      change (Z.of_nat 0) with 0. rewrite Hs, add_signed_zero. f_equal. lia.
    + rewrite (mul_dyadic _ _ 0 0), add_dyadic by lia. reflexivity.
  - intros j Hj.
    pose proof (Forall_nth_bound ys (2 ^ 20) j ltac:(lia) Hys) as Hy.
    change (2 ^ 30) with (1024 * 2 ^ 20). apply abs_mul_bound; lia.
  - change (2 ^ 30) with 1073741824. lia.
Qed.

Lemma sumY_exact ys :
  (List.length ys <= 1024)%nat ->
  Forall (fun y => Z.abs y <= 2 ^ 20) ys ->
  reduce (fun a b (_ : nat) => a + b)%num 0%num (map Num.ofZ ys)
  = dyadic (zsum ys) 0.
Proof.
  intros Hn Hys. unfold reduce. change 0%num with (dyadic 0 0).
  destruct pow2_values as [H53 H20].
  rewrite (reduceFrom_values ys (2 ^ 20)); [reflexivity|assumption|lia|lia].
Qed.

(** The closed forms of the sums over the positions. *)
Lemma sumOfX_closed n : 2 * sumOfX n = Z.of_nat n * (Z.of_nat n - 1).
Proof.
  unfold sumOfX. induction n as [|n IH]; [reflexivity|].
  rewrite seq_S, map_app, zsum_app. cbn [map zsum fold_right Nat.add]. lia.
Qed.

Lemma sumOfX2_closed n :
  6 * sumOfX2 n = (Z.of_nat n - 1) * Z.of_nat n * (2 * Z.of_nat n - 1).
Proof.
  unfold sumOfX2. induction n as [|n IH]; [reflexivity|].
  rewrite seq_S, map_app, zsum_app. cbn [map zsum fold_right Nat.add]. lia.
Qed.

Lemma slopeDenominator_closed n :
  12 * slopeDenominator n
  = Z.of_nat n * Z.of_nat n * (Z.of_nat n - 1) * (Z.of_nat n + 1).
Proof.
  unfold slopeDenominator.
  pose proof (sumOfX_closed n) as H1. pose proof (sumOfX2_closed n) as H2.
  set (N := Z.of_nat n) in *.
  replace (12 * (N * sumOfX2 n - sumOfX n * sumOfX n))
    with (2 * N * (6 * sumOfX2 n) - 3 * ((2 * sumOfX n) * (2 * sumOfX n)))
    by ring.
  rewrite H1, H2. ring.
Qed.

Lemma slopeDenominator_range n :
  (2 <= n <= 1024)%nat -> 0 < slopeDenominator n < 2 ^ 40.
Proof.
  intros Hn. pose proof (slopeDenominator_closed n) as H.
  assert (H1 : 2 <= Z.of_nat n <= 1024) by lia.
  set (N := Z.of_nat n) in *.
  assert (H2 : 4 <= N * N <= 1024 * 1024) by nia.
  assert (H3 : 3 <= (N - 1) * (N + 1) <= 1024 * 1024) by nia.
  assert (H4 : 12 <= N * N * ((N - 1) * (N + 1)) <= 1024 * 1024 * (1024 * 1024))
    by (split; [nia|apply Z.mul_le_mono_nonneg; lia]).
  change (2 ^ 40) with 1099511627776. lia.
Qed.

(** On integers every sum and product of the regression is exact: only the
    final division rounds. *)
Lemma linearRegression_integers ys :
  (2 <= List.length ys <= 1024)%nat ->
  Forall (fun y => Z.abs y <= 2 ^ 20) ys ->
  linearRegression (map Num.ofZ ys)
  = (dyadic (slopeNumerator ys) 0
     / dyadic (slopeDenominator (List.length ys)) 0)%num
  /\ Z.abs (slopeNumerator ys) <= 2 ^ 51.
Proof.
  intros Hn Hys. set (n := List.length ys) in *.
  destruct pow2_values as [H53 H20].
  assert (HX : 0 < sumOfX n <= 2 ^ 20).
  { pose proof (sumOfX_closed n). nia. }
  assert (HX2 : 0 <= sumOfX2 n <= 2 ^ 30).
  { unfold sumOfX2.
    pose proof (zsum_indexed (fun i => Z.of_nat i * Z.of_nat i) 0 (2 ^ 20) n
                  ltac:(intros j Hj; nia)) as H.
    change (2 ^ 30) with (1024 * 2 ^ 20). nia. }
  assert (HY : Z.abs (zsum ys) <= 2 ^ 30).
  { pose proof (zsum_range ys (- 2 ^ 20) (2 ^ 20)
                  ltac:(eapply Forall_impl; [|exact Hys]; cbv beta; lia)) as H.
    fold n in H. change (2 ^ 30) with (1024 * 2 ^ 20). nia. }
  assert (HXY : Z.abs (sumOfXY ys) <= 2 ^ 40).
  { unfold sumOfXY. fold n.
    pose proof (zsum_indexed (fun i => Z.of_nat i * nth i ys 0)
                  (- 2 ^ 30) (2 ^ 30) n) as H.
    assert (Hg : forall j, (j < n)%nat ->
               - 2 ^ 30 <= Z.of_nat j * nth j ys 0 <= 2 ^ 30).
    { intros j Hj.
      pose proof (Forall_nth_bound ys (2 ^ 20) j ltac:(lia) Hys) as Hy.
      pose proof (abs_mul_bound (Z.of_nat j) (nth j ys 0) 1024 (2 ^ 20)
                    ltac:(lia) Hy) as Hb.
      change (2 ^ 30) with (1024 * 2 ^ 20). lia. }
    specialize (H Hg). change (2 ^ 40) with (1024 * 2 ^ 30).
    change (2 ^ 30) with 1073741824 in *. nia. }
  pose proof (slopeDenominator_range n ltac:(lia)) as HD.
  assert (HnXY : Z.abs (Z.of_nat n * sumOfXY ys) <= 2 ^ 50).
  { change (2 ^ 50) with (1024 * 2 ^ 40). apply abs_mul_bound; lia. }
  assert (HXY' : Z.abs (sumOfX n * zsum ys) <= 2 ^ 50).
  { change (2 ^ 50) with (2 ^ 20 * 2 ^ 30). apply abs_mul_bound; lia. }
  assert (HnX2 : Z.abs (Z.of_nat n * sumOfX2 n) <= 2 ^ 40).
  { change (2 ^ 40) with (1024 * 2 ^ 30). apply abs_mul_bound; lia. }
  assert (HXX : Z.abs (sumOfX n * sumOfX n) <= 2 ^ 40).
  { change (2 ^ 40) with (2 ^ 20 * 2 ^ 20). apply abs_mul_bound; lia. }
  change (2 ^ 51) with 2251799813685248.
  change (2 ^ 50) with 1125899906842624 in *.
  change (2 ^ 40) with 1099511627776 in *.
  change (2 ^ 30) with 1073741824 in *.
  split; [|unfold slopeNumerator; fold n; lia].
  unfold linearRegression. rewrite length_map. fold n.
  destruct (Nat.eqb_spec n 0) as [H0|_]; [lia|]. cbv zeta.
  rewrite !sumX_exact, sumX2_exact by lia.
  unfold n. rewrite sumXY_exact, sumY_exact by (assumption || (fold n; lia)).
  fold n. unfold Num.ofNat. rewrite ofZ_dyadic by lia.
  rewrite !(mul_dyadic _ _ 0 0) by lia.
  rewrite !sub_dyadic by (unfold slopeDenominator in HD; lia).
  reflexivity.
Qed.

Lemma zsum_affine (f g : nat -> Z) (a d : Z) l :
  zsum (map (fun i => a * f i + d * g i) l)
  = a * zsum (map f l) + d * zsum (map g l).
Proof.
  induction l as [|x l IH]; cbn [map zsum fold_right]; [lia|].
  fold (zsum (map (fun i => a * f i + d * g i) l)).
  fold (zsum (map f l)). fold (zsum (map g l)). lia.
Qed.

Lemma zsum_ones l : zsum (map (fun _ : nat => 1) l) = Z.of_nat (List.length l).
Proof.
  induction l as [|x l IH]; cbn [map zsum fold_right List.length]; [reflexivity|].
  fold (zsum (map (fun _ : nat => 1) l)). lia.
Qed.

Lemma zsum_ext (f g : nat -> Z) n :
  (forall j, (j < n)%nat -> f j = g j) ->
  zsum (map f (seq 0 n)) = zsum (map g (seq 0 n)).
Proof.
  intros H. f_equal. apply map_ext_in. intros j Hj. apply in_seq in Hj.
  apply H. lia.
Qed.

Lemma zsum_nth ys :
  zsum ys = zsum (map (fun i => nth i ys 0) (seq 0 (List.length ys))).
Proof.
  f_equal. induction ys as [|y ys IH]; [reflexivity|].
  cbn [List.length seq map nth]. f_equal.
  rewrite <- seq_shift, map_map. exact IH.
Qed.

Lemma progression_length a d n : List.length (progression a d n) = n.
Proof. unfold progression. now rewrite length_map, length_seq. Qed.

Lemma progression_nth a d n j :
  (j < n)%nat -> nth j (progression a d n) 0 = a + Z.of_nat j * d.
Proof.
  intros Hj. unfold progression.
  rewrite (nth_indep _ 0 (a + Z.of_nat 0 * d))
    by now rewrite length_map, length_seq.
  rewrite (map_nth (fun i => a + Z.of_nat i * d)), seq_nth by assumption.
  reflexivity.
Qed.

Lemma slopeNumerator_progression a d n :
  slopeNumerator (progression a d n) = slopeDenominator n * d.
Proof.
  unfold slopeNumerator, slopeDenominator, sumOfXY.
  rewrite (zsum_nth (progression a d n)), progression_length.
  rewrite (zsum_ext (fun i => Z.of_nat i * nth i (progression a d n) 0)
             (fun i => a * Z.of_nat i
                                + d * (Z.of_nat i * Z.of_nat i)))
    by (intros j Hj; rewrite progression_nth by assumption; ring).
  rewrite (zsum_ext (fun i => nth i (progression a d n) 0)
             (fun i => a * 1 + d * Z.of_nat i))
    by (intros j Hj; rewrite progression_nth by assumption; ring).
  rewrite !zsum_affine, zsum_ones, length_seq.
  fold (sumOfX n) (sumOfX2 n). ring.
Qed.

Lemma zsum_shift c ys :
  zsum (map (Z.add c) ys) = Z.of_nat (List.length ys) * c + zsum ys.
Proof.
  induction ys as [|y ys IH]; cbn [map zsum fold_right List.length]; [lia|].
  fold (zsum (map (Z.add c) ys)). fold (zsum ys). lia.
Qed.

Lemma slopeNumerator_shift c ys :
  slopeNumerator (map (Z.add c) ys) = slopeNumerator ys.
Proof.
  unfold slopeNumerator, sumOfXY. rewrite length_map, zsum_shift.
  rewrite (zsum_ext _ (fun i => c * Z.of_nat i
                                + 1 * (Z.of_nat i * nth i ys 0))).
  - rewrite zsum_affine. fold (sumOfX (List.length ys)). ring.
  - intros j Hj.
    rewrite (nth_indep _ 0 (c + 0)) by now rewrite length_map.
    rewrite (map_nth (Z.add c)). ring.
Qed.

(** X10.  On an arithmetic progression [a, a + d, ..., a + (n - 1) d] of
    integers, with 2 <= n <= 1024, |a| <= 2^19 and |d| <= 2^9,
    [linearRegression] returns the common difference [d] exactly; in
    particular a constant list of two or more values has slope 0 and two
    values have their difference as slope. *)
Theorem linearRegression_of_progression a d n :
  (2 <= n <= 1024)%nat -> Z.abs a <= 2 ^ 19 -> Z.abs d <= 2 ^ 9 ->
  linearRegression (map Num.ofZ (progression a d n)) = Num.ofZ d.
Proof.
  intros Hn Ha Hd.
  assert (Hys : Forall (fun y => Z.abs y <= 2 ^ 20) (progression a d n)).
  { apply Forall_forall. intros y Hy. unfold progression in Hy.
    apply in_map_iff in Hy. destruct Hy as (j & <- & Hj). apply in_seq in Hj.
    pose proof (abs_mul_bound (Z.of_nat j) d 1023 (2 ^ 9) ltac:(lia) Hd).
    change (2 ^ 20) with (2 ^ 19 + 1024 * 2 ^ 9). lia. }
  destruct (linearRegression_integers (progression a d n)) as [-> HN];
    [now rewrite progression_length|assumption|].
  rewrite progression_length in *.
  pose proof (slopeDenominator_range n Hn) as HD.
  assert (Hd53 : Z.abs d < 2 ^ Num.prec)
    by (change (2 ^ Num.prec) with (2 ^ 9 * 2 ^ 44); lia).
  rewrite ofZ_dyadic by assumption.
  apply (div_dyadic _ _ d 0); try assumption; try lia.
  - change (2 ^ Num.prec) with (2 ^ 51 * 4). lia.
  - change (2 ^ Num.prec) with (2 ^ 40 * 8192). lia.
  - rewrite slopeNumerator_progression. change (2 ^ 0) with 1. lia.
Qed.

Lemma linearRegression_of_progression_witness :
  linearRegression (map Num.ofZ (progression 7 (-3) 5)) = Num.ofZ (-3).
Proof.
  apply (linearRegression_of_progression 7 (-3) 5);
    [lia|vm_compute; discriminate|vm_compute; discriminate].
Defined.

(** X11.  Adding the same integer to every value of a list does not change
    the slope: for lists of 2 to 1024 integers that stay within 2^20 in
    magnitude before and after the shift, [linearRegression] returns the
    very same number. *)
Theorem linearRegression_shift c ys :
  (2 <= List.length ys <= 1024)%nat ->
  Forall (fun y => Z.abs y <= 2 ^ 20) ys ->
  Forall (fun y => Z.abs (c + y) <= 2 ^ 20) ys ->
  linearRegression (map Num.ofZ (map (Z.add c) ys))
  = linearRegression (map Num.ofZ ys).
Proof.
  intros Hn Hys Hcs.
  destruct (linearRegression_integers ys Hn Hys) as [-> _].
  destruct (linearRegression_integers (map (Z.add c) ys)) as [-> _].
  - now rewrite length_map.
  - now apply Forall_map.
  - now rewrite slopeNumerator_shift, length_map.
Qed.

Lemma linearRegression_shift_witness :
  linearRegression (map Num.ofZ (map (Z.add 100) [4; 9; 2; 7]))
  = linearRegression (map Num.ofZ [4; 9; 2; 7]).
Proof.
  apply (linearRegression_shift 100 [4; 9; 2; 7]).
  - cbn [List.length]. lia.
  - repeat constructor; vm_compute; discriminate.
  - repeat constructor; vm_compute; discriminate.
Defined.

(** X12.  For a list of 2 to 1024 integers within 2^20 in magnitude every
    sum and product of [linearRegression] is exact and only the final
    division rounds: the result is the binary64 quotient of the integers
    N * sum(x*y) - sum(x) * sum(y) and N * sum(x^2) - sum(x)^2, the
    denominator is positive, it is N^2 (N^2 - 1) / 12, and the result is
    never NaN, unlike that of a single-element list. *)
Theorem linearRegression_on_integers ys :
  (2 <= List.length ys <= 1024)%nat ->
  Forall (fun y => Z.abs y <= 2 ^ 20) ys ->
  let n := List.length ys in
  linearRegression (map Num.ofZ ys)
  = (Num.ofZ (slopeNumerator ys) / Num.ofZ (slopeDenominator n))%num
  /\ 0 < slopeDenominator n
  /\ 12 * slopeDenominator n
     = Z.of_nat n * Z.of_nat n * (Z.of_nat n * Z.of_nat n - 1)
  /\ isNaN (linearRegression (map Num.ofZ ys)) = false.
Proof.
  intros Hn Hys n.
  destruct (linearRegression_integers ys Hn Hys) as [Heq HN]. fold n in Heq.
  pose proof (slopeDenominator_range n Hn) as HD.
  assert (HN53 : Z.abs (slopeNumerator ys) < 2 ^ Num.prec)
    by (change (2 ^ Num.prec) with (2 ^ 51 * 4); lia).
  assert (HD53 : Z.abs (slopeDenominator n) < 2 ^ Num.prec)
    by (change (2 ^ Num.prec) with (2 ^ 40 * 8192); lia).
  rewrite !ofZ_dyadic by assumption.
  split; [exact Heq|]. split; [lia|]. split.
  - rewrite slopeDenominator_closed. ring.
  - rewrite Heq.
    apply div_not_nan; [apply dyadic_isFinite|apply dyadic_isFiniteNonzero; lia].
Qed.

Lemma linearRegression_on_integers_witness :
  linearRegression (map Num.ofZ [4; 9; 2; 7])
  = (Num.ofZ (slopeNumerator [4; 9; 2; 7]%Z)
     / Num.ofZ (slopeDenominator 4%nat))%num
  /\ isNaN (linearRegression (map Num.ofZ [4; 9; 2; 7])) = false.
Proof.
  destruct (linearRegression_on_integers [4; 9; 2; 7]) as (H1 & _ & _ & H2).
  - cbn [List.length]. lia.
  - repeat constructor; vm_compute; discriminate.
  - split; [exact H1|exact H2].
Defined.

(** * The comparison page *)

Lemma above_half_is_positive t : (t >? 0.5)%num = true -> (t >? 0)%num = true.
Proof.
  destruct t as [[]|[]| |[] m e]; intros H; try reflexivity; discriminate H.
Qed.

Lemma below_minus_half_is_negative t :
  (t <? -0.5)%num = true -> (t <? 0)%num = true /\ (t >? 0)%num = false.
Proof.
  destruct t as [[]|[]| |[] m e]; intros H;
    try (split; reflexivity); discriminate H.
Qed.

(** X13.  The icon the comparison page shows for a slope and the trend
    sentence of the insight generator use the same thresholds.  For a row of
    the store the slope is finite, so the page receives it as the handler
    computed it, and the icon is the rising one exactly when the insights
    say the player is improving (rebounds more than 1 above the score), the
    falling one exactly when they say the player is declining (score more
    than 1 above the rebounds), and the neutral one exactly when they say
    nothing.  A rising icon always comes with the label "Improving
    performance" and a falling one with "Declining performance". *)
Theorem trend_icon_matches_sentence r :
  Store.valid r ->
  let p := ofRow r in
  let t := trend p in
  Num.isFinite t = true
  /\ (ComparePage.getTrendIcon t = ComparePage.TrendingUp
      <-> trendStep p = [improvingSentence (name p)])
  /\ (ComparePage.getTrendIcon t = ComparePage.TrendingDown
      <-> trendStep p = [decliningSentence (name p)])
  /\ (ComparePage.getTrendIcon t = ComparePage.Minus <-> trendStep p = [])
  /\ (ComparePage.getTrendIcon t = ComparePage.TrendingUp
      <-> Store.score r + 1 < Store.rebounds r)
  /\ (ComparePage.getTrendIcon t = ComparePage.TrendingDown
      <-> Store.rebounds r + 1 < Store.score r)
  /\ (ComparePage.getTrendIcon (slope (trendOf t)) = ComparePage.TrendingUp ->
      direction (trendOf t) = "Improving performance"%string)
  /\ (ComparePage.getTrendIcon (slope (trendOf t)) = ComparePage.TrendingDown ->
      direction (trendOf t) = "Declining performance"%string).
Proof.
  intros Hv p t.
  assert (Hfin : Num.isFinite t = true).
  { unfold t, p. rewrite trend_ofRow by assumption. apply dyadic_isFinite. }
  destruct (trend_signs r Hv) as (_ & _ & _ & Hgt5 & Hlt5).
  fold p in Hgt5, Hlt5. fold t in Hgt5, Hlt5.
  split; [exact Hfin|].
  unfold ComparePage.getTrendIcon, trendStep, trendOf.
  cbn [slope direction]. fold t.
  pose proof (improving_not_declining (name p)) as Hne.
  pose proof (above_half_is_positive t) as Hup.
  pose proof (below_minus_half_is_negative t) as Hdown.
  destruct (Z.ltb_spec (Store.score r + 1) (Store.rebounds r)),
    (Z.ltb_spec (Store.rebounds r + 1) (Store.score r));
    try lia;
    destruct (t >? 0.5)%num, (t <? -0.5)%num; try discriminate;
    repeat split; intros; try discriminate; try reflexivity; try lia;
    try (exfalso; congruence);
    try (rewrite Hup by reflexivity; reflexivity);
    try (destruct Hdown as [-> ->]; reflexivity).
Qed.

Lemma trend_icon_matches_sentence_witness :
  Store.valid ann
  /\ ComparePage.getTrendIcon (trend (ofRow ann)) = ComparePage.TrendingDown
  /\ trendStep (ofRow ann) = [decliningSentence (name (ofRow ann))].
Proof.
  destruct (trend_icon_matches_sentence ann ann_valid)
    as (_ & _ & Hdown & _ & _ & Hint & _).
  assert (Hicon : ComparePage.getTrendIcon (trend (ofRow ann))
                  = ComparePage.TrendingDown)
    by (apply Hint; vm_compute; reflexivity).
  split; [exact ann_valid|]. split; [exact Hicon|].
  apply Hdown. exact Hicon.
Defined.

(** X14.  The label of the trend summary and the icon beside it can
    disagree.  For a row of the store the icon is the neutral one exactly
    when rebounds and score differ by at most 1, while the label is "Stable
    performance" only when they are equal: a player with rebounds = score + 1
    is shown with the neutral icon, the label "Improving performance" and no
    trend sentence, and one with score = rebounds + 1 with the neutral icon
    and "Declining performance". *)
Theorem label_without_icon r :
  Store.valid r ->
  let t := trend (ofRow r) in
  (ComparePage.getTrendIcon t = ComparePage.Minus
   <-> Z.abs (Store.rebounds r - Store.score r) <= 1)
  /\ (direction (trendOf t) = "Stable performance"%string
      <-> Store.rebounds r = Store.score r)
  /\ (Store.rebounds r = Store.score r + 1 ->
      direction (trendOf t) = "Improving performance"%string
      /\ ComparePage.getTrendIcon t = ComparePage.Minus
      /\ trendStep (ofRow r) = [])
  /\ (Store.score r = Store.rebounds r + 1 ->
      direction (trendOf t) = "Declining performance"%string
      /\ ComparePage.getTrendIcon t = ComparePage.Minus
      /\ trendStep (ofRow r) = []).
Proof.
  intros Hv t.
  destruct (trend_signs r Hv) as (Hgt0 & Hlt0 & _ & Hgt5 & Hlt5).
  fold t in Hgt0, Hlt0, Hgt5, Hlt5.
  unfold ComparePage.getTrendIcon, trendStep, trendOf. cbn [direction].
  fold t. rewrite Hgt0, Hlt0, Hgt5, Hlt5.
  destruct (Z.ltb_spec (Store.score r) (Store.rebounds r)),
    (Z.ltb_spec (Store.rebounds r) (Store.score r)),
    (Z.ltb_spec (Store.score r + 1) (Store.rebounds r)),
    (Z.ltb_spec (Store.rebounds r + 1) (Store.score r));
    try lia;
    repeat split; intros; try lia; try discriminate; reflexivity.
Qed.

Lemma label_without_icon_witness :
  Store.valid kim
  /\ direction (trendOf (trend (ofRow kim))) = "Improving performance"%string
  /\ ComparePage.getTrendIcon (trend (ofRow kim)) = ComparePage.Minus
  /\ trendStep (ofRow kim) = [].
Proof.
  split; [exact kim_valid|].
  apply (proj1 (proj2 (proj2 (label_without_icon kim kim_valid)))). reflexivity.
Defined.

(** * The home page against the handler *)

(** X15.  The check of the home page before it opens the comparison page
    agrees with the handler.  When each selection is empty or the id of a
    row of a keyed table, [handleCompare] navigates, to
    /compare?player1=<first>&player2=<second>, exactly in the cases in which
    the handler answers a request for these two identifiers with status 200,
    and it shows an error instead exactly in the cases in which the handler
    would answer with status 500. *)
Theorem handleCompare_agrees_with_serve table req s1 s2 :
  primaryKey table ->
  method req <> "OPTIONS"%string ->
  json req = Fields (Some s1) (Some s2) ->
  s1 = ""%string \/ In s1 (map Store.id table) ->
  s2 = ""%string \/ In s2 (map Store.id table) ->
  (forall url,
      IndexPage.handleCompare s1 s2 = IndexPage.Navigate url ->
      url = ("/compare?player1=" ++ s1 ++ "&player2=" ++ s2)%string
      /\ status (serve req (selectIn table)) = 200)
  /\ (forall message,
         IndexPage.handleCompare s1 s2 = IndexPage.ToastError message ->
         status (serve req (selectIn table)) = 500)
  /\ (s1 = s2 ->
      IndexPage.handleCompare s1 s2
      = IndexPage.ToastError
          (if String.eqb s1 "" then "Please select two players to compare"
           else "Please select different players")).
Proof.
  intros Hk Hm Hj H1 H2.
  destruct (serve_outcomes table req (Some s1) (Some s2) Hk Hm Hj)
    as (Hfound & _ & _).
  pose proof (serve_not_found table req (Some s1) (Some s2) Hk Hm Hj) as Hfails.
  unfold IndexPage.handleCompare.
  destruct (String.eqb_spec s1 "") as [E1|E1]; cbn [orb].
  { split; [intros url H; discriminate H|]. split; [|reflexivity].
    intros _ _. apply Hfails. intros (x & y & Hx & _).
    subst s1. discriminate Hx. }
  destruct (String.eqb_spec s2 "") as [E2|E2].
  { split; [intros url H; discriminate H|]. split; [|intros <-; contradiction].
    intros _ _. apply Hfails. intros (x & y & _ & Hy & _).
    subst s2. discriminate Hy. }
  destruct (String.eqb_spec s1 s2) as [E|E].
  { split; [intros url H; discriminate H|]. split; [|reflexivity].
    intros _ _. apply Hfails. intros (x & y & Hx & Hy & Hne & _).
    rewrite truthy_nonempty in Hx, Hy by assumption. congruence. }
  split; [|split; [intros message H; discriminate H|intros; contradiction]].
  intros url H. injection H as <-. split; [reflexivity|].
  apply Hfound. exists s1, s2.
  rewrite !truthy_nonempty by assumption. tauto.
Qed.

Lemma handleCompare_agrees_with_serve_witness :
  let req := {| method := "POST";
                json := Fields (Some "a"%string) (Some "b"%string) |} in
  primaryKey demoTable
  /\ IndexPage.handleCompare "a" "b"
     = IndexPage.Navigate "/compare?player1=a&player2=b"
  /\ status (serve req (selectIn demoTable)) = 200.
Proof.
  intros req.
  assert (Hm : method req <> "OPTIONS"%string) by discriminate.
  split; [exact demoTable_primaryKey|]. split; [reflexivity|].
  apply (proj1 (handleCompare_agrees_with_serve demoTable req "a" "b"
                  demoTable_primaryKey Hm eq_refl
                  (or_intror (or_introl eq_refl))
                  (or_intror (or_intror (or_introl eq_refl))))
           "/compare?player1=a&player2=b"%string eq_refl).
Defined.

(** * The chart rows *)

Lemma getProperty_set o key v :
  ComparePage.getProperty (ComparePage.setProperty o key v) key = Some v.
Proof.
  unfold ComparePage.getProperty.
  induction o as [|[k w] o IH]; cbn [ComparePage.setProperty find fst].
  - now rewrite String.eqb_refl.
  - destruct (String.eqb k key) eqn:He; cbn [find fst]; rewrite He;
      [reflexivity|exact IH].
Qed.

Lemma getProperty_other o key v key' :
  key <> key' ->
  ComparePage.getProperty (ComparePage.setProperty o key v) key'
  = ComparePage.getProperty o key'.
Proof.
  intros Hne. unfold ComparePage.getProperty.
  induction o as [|[k w] o IH]; cbn [ComparePage.setProperty find fst].
  - apply String.eqb_neq in Hne. now rewrite Hne.
  - destruct (String.eqb_spec k key) as [->|He]; cbn [find fst].
    + apply String.eqb_neq in Hne. now rewrite Hne.
    + destruct (String.eqb k key'); [reflexivity|exact IH].
Qed.

Lemma row_second label l k1 v1 k2 v2 :
  ComparePage.getProperty
    (ComparePage.objectLiteral [(label, l); (k1, v1); (k2, v2)]) k2
  = Some v2.
Proof.
  cbn [ComparePage.objectLiteral fold_left fst snd]. apply getProperty_set.
Qed.

Lemma row_first label l k1 v1 k2 v2 :
  k1 <> k2 ->
  ComparePage.getProperty
    (ComparePage.objectLiteral [(label, l); (k1, v1); (k2, v2)]) k1
  = Some v1.
Proof.
  intros Hne. cbn [ComparePage.objectLiteral fold_left fst snd].
  rewrite getProperty_other by congruence. apply getProperty_set.
Qed.

Lemma row_label label l k1 v1 k2 v2 :
  k1 <> label -> k2 <> label ->
  ComparePage.getProperty
    (ComparePage.objectLiteral [(label, l); (k1, v1); (k2, v2)]) label
  = Some l.
Proof.
  intros H1 H2. cbn [ComparePage.objectLiteral fold_left fst snd].
  rewrite !getProperty_other by assumption. apply getProperty_set.
Qed.

(** X16.  The rows of the two charts are keyed by the players' names.  The
    series read under the name of player 2 always holds player 2's numbers;
    the series read under the name of player 1 holds player 1's numbers when
    the two names differ, and player 2's numbers when the two players have
    the same name, so that both series of a chart are then player 2's.  The
    labels of the bar chart are intact when neither player is named
    "stat". *)
Theorem chart_series_by_name p1 p2 :
  let series key rows := map (fun row => ComparePage.getProperty row key) rows in
  let numbers := map (fun x => Some (ComparePage.JNumber x)) in
  series (pub_name p2) (ComparePage.statsComparison p1 p2)
  = numbers [pub_score p2; pub_assists p2; pub_rebounds p2; pub_wins p2]
  /\ series (pub_name p2) (ComparePage.trendData p1 p2)
     = numbers [pub_score p2; pub_assists p2; pub_rebounds p2]
  /\ (pub_name p1 <> pub_name p2 ->
      series (pub_name p1) (ComparePage.statsComparison p1 p2)
      = numbers [pub_score p1; pub_assists p1; pub_rebounds p1; pub_wins p1]
      /\ series (pub_name p1) (ComparePage.trendData p1 p2)
         = numbers [pub_score p1; pub_assists p1; pub_rebounds p1])
  /\ (pub_name p1 = pub_name p2 ->
      series (pub_name p1) (ComparePage.statsComparison p1 p2)
      = numbers [pub_score p2; pub_assists p2; pub_rebounds p2; pub_wins p2]
      /\ series (pub_name p1) (ComparePage.trendData p1 p2)
         = numbers [pub_score p2; pub_assists p2; pub_rebounds p2])
  /\ (pub_name p1 <> "stat"%string -> pub_name p2 <> "stat"%string ->
      series "stat"%string (ComparePage.statsComparison p1 p2)
      = map (fun s => Some (ComparePage.JString s))
          ["Score"; "Assists"; "Rebounds"; "Wins"]%string).
Proof.
  intros series numbers.
  assert (H2 : series (pub_name p2) (ComparePage.statsComparison p1 p2)
               = numbers [pub_score p2; pub_assists p2; pub_rebounds p2;
                          pub_wins p2]).
  { unfold series, numbers, ComparePage.statsComparison. cbn [map].
    now rewrite !row_second. }
  assert (H2' : series (pub_name p2) (ComparePage.trendData p1 p2)
                = numbers [pub_score p2; pub_assists p2; pub_rebounds p2]).
  { unfold series, numbers, ComparePage.trendData. cbn [map].
    now rewrite !row_second. }
  split; [exact H2|]. split; [exact H2'|]. split; [|split].
  - intros Hne. unfold series, numbers, ComparePage.statsComparison,
      ComparePage.trendData. cbn [map]. now rewrite !row_first by assumption.
  - intros He. rewrite He. now split.
  - intros Hn1 Hn2. unfold series, ComparePage.statsComparison. cbn [map].
    now rewrite !row_label by assumption.
Qed.

(** * The consistency threshold *)

Lemma threshold_1_15 T U V n :
  n = 52 \/ n = 53 ->
  2 ^ 52 <= T < 2 ^ 53 ->
  2 * Z.abs (V - T * mantissa_1_15) <= 2 ^ n ->
  (23 * T + 64 <= 20 * U -> V < U * 2 ^ 52)
  /\ (20 * U + 64 <= 23 * T -> U * 2 ^ 52 < V).
Proof.
  intros Hn HT Hnear. unfold mantissa_1_15 in Hnear.
  change (2 ^ 52) with 4503599627370496 in *.
  change (2 ^ 53) with 9007199254740992 in *.
  destruct Hn; subst n;
    [change (2 ^ 52) with 4503599627370496 in *
    |change (2 ^ 53) with 9007199254740992 in *];
    split; intros; lia.
Qed.

(** The product of a positive integer [a] by the literal [1.15], rounded:
    it lies on the same side of an integer [w] as [23 * a] lies of
    [20 * w], when these differ. *)
Lemma times_1_15 a s :
  0 < a <= 2 ^ 40 ->
  exists z e,
    2 ^ (Num.prec - 1) <= z < 2 ^ Num.prec
    /\ e <= 0
    /\ Num.mul
         (S754_finite s (Z.to_pos (a * 2 ^ (Num.prec - Zdigits2 a)))
            (Zdigits2 a - Num.prec + 0))
         1.15%num
       = S754_finite s (Z.to_pos z) e
    /\ forall w,
         (23 * a < 20 * w -> z < w * 2 ^ (- e))
         /\ (20 * w < 23 * a -> w * 2 ^ (- e) < z).
Proof.
  intros Ha.
  assert (Hfit : 0 < a < 2 ^ Num.prec).
  { change (2 ^ Num.prec) with (2 ^ 40 * 8192). lia. }
  set (d := Zdigits2 a).
  assert (Hd : 0 < d <= 41).
  { split; [apply Zdigits2_pos; lia|].
    apply Zdigits2_le_iff; lia. }
  set (G := 2 ^ (Num.prec - d)).
  assert (HG : 64 <= G).
  { change 64 with (2 ^ 6). apply Z.pow_le_mono_r; unfold Num.prec; lia. }
  set (T := a * G).
  assert (HTd : Zdigits2 T = Num.prec) by (apply mantissa_digits; assumption).
  assert (HTpos : 0 < T) by (apply mantissa_pos; assumption).
  assert (HT : 2 ^ 52 <= T < 2 ^ 53).
  { pose proof (Zdigits2_bounds T HTpos) as HB. rewrite HTd in HB. exact HB. }
  unfold Num.mul, SFmul. rewrite xorb_false_r.
  rewrite Pos2Z.inj_mul, Z2Pos.id by assumption.
  fold d G T. change (Zpos 5179139571476070) with mantissa_1_15.
  set (P := T * mantissa_1_15). set (E := d - Num.prec + 0 + -52).
  assert (HPpos : 0 < P) by (unfold P, mantissa_1_15; lia).
  assert (HdP : 105 <= Zdigits2 P <= 106).
  { pose proof (Zdigits2_mul_lower T mantissa_1_15 HTpos ltac:(reflexivity)) as Hl.
    pose proof (Zdigits2_mul_upper T mantissa_1_15 HTpos ltac:(reflexivity)) as Hu.
    rewrite HTd in Hl, Hu. change (Zdigits2 mantissa_1_15) with 53 in Hl, Hu.
    fold P in Hl, Hu. change Num.prec with 53 in Hl, Hu.
    clear - Hl Hu. split; [exact Hl|exact Hu]. }
  destruct (binary_round_aux_nearest s P E HPpos)
    as (z & e & Hz & He & Hr & Hnear & Hdiv).
  { unfold Num.prec. lia. }
  { unfold E, emin, Num.emax, Num.prec. lia. }
  { unfold E, Num.emax, Num.prec. lia. }
  exists z, e. split; [exact Hz|].
  assert (He0 : e <= 0) by (unfold E in *; unfold Num.prec in *; lia).
  split; [exact He0|]. split; [exact Hr|].
  intros w.
  assert (HX : 0 < 2 ^ (e - E)) by (apply Z.pow_pos_nonneg; lia).
  assert (Hscale : w * 2 ^ (- e) * 2 ^ (e - E) = w * G * 2 ^ 52).
  { rewrite <- !Z.mul_assoc. f_equal. unfold G.
    rewrite !pow2_add by (unfold Num.prec, E in *; lia).
    f_equal. unfold E, Num.prec. lia. }
  destruct (threshold_1_15 T (w * G) (z * 2 ^ (e - E)) (Zdigits2 P - Num.prec))
    as [Hlt Hgt].
  { unfold Num.prec. lia. }
  { exact HT. }
  { exact Hnear. }
  rewrite <- Hscale in Hlt, Hgt.
  split; intros Hw.
  - apply (Z.mul_lt_mono_pos_r (2 ^ (e - E))); [assumption|].
    apply Hlt. unfold T.
    assert ((23 * a + 1) * G <= 20 * w * G)
      by (apply Z.mul_le_mono_nonneg_r; lia).
    lia.
  - apply (Z.mul_lt_mono_pos_r (2 ^ (e - E))); [assumption|].
    apply Hgt. unfold T.
    assert ((20 * w + 1) * G <= 23 * a * G)
      by (apply Z.mul_le_mono_nonneg_r; lia).
    lia.
Qed.

Lemma gt_dyadic_scaled u z e :
  Z.abs u < 2 ^ Num.prec -> Z.abs z < 2 ^ Num.prec -> e <= 0 ->
  (dyadic u 0 >? dyadic z e)%num = (z <? u * 2 ^ (- e)).
Proof.
  intros Hu Hz He. unfold Num.gt, SFltb.
  rewrite compare_dyadic_gen by assumption.
  replace (e - Z.min e 0) with 0 by lia.
  replace (0 - Z.min e 0) with (- e) by lia.
  change (2 ^ 0) with 1. rewrite Z.mul_1_r.
  unfold Z.ltb. now destruct (z ?= u * 2 ^ (- e)).
Qed.

(** On integers, [u > t * 1.15] in binary64 arithmetic holds when
    [20 * u > 23 * t] and fails when [20 * u < 23 * t]. *)
Lemma gt_times_1_15 t u :
  Z.abs t <= 2 ^ 40 -> Z.abs u < 2 ^ Num.prec ->
  (23 * t < 20 * u -> (dyadic u 0 >? dyadic t 0 * 1.15)%num = true)
  /\ (20 * u < 23 * t -> (dyadic u 0 >? dyadic t 0 * 1.15)%num = false).
Proof.
  intros Ht Hu.
  assert (Hcase : t = 0 \/ 0 < t \/ t < 0) by lia.
  destruct Hcase as [->|[Hpos|Hneg]].
  - change (dyadic 0 0 * 1.15)%num with (dyadic 0 0).
    rewrite gt_dyadic by (assumption || reflexivity).
    split; intros H; [apply Z.ltb_lt|apply Z.ltb_ge]; lia.
  - destruct (times_1_15 t false ltac:(lia)) as (z & e & Hz & He & Hr & Hcmp).
    rewrite (dyadic_finite t) by lia.
    replace (t <? 0) with false by (symmetry; apply Z.ltb_ge; lia).
    rewrite Z.abs_eq by lia. rewrite Hr, finite_dyadic by assumption.
    cbn [cond_Zopp].
    rewrite gt_dyadic_scaled by (try assumption; rewrite Z.abs_eq; lia).
    destruct (Hcmp u) as [Hlt Hgt].
    split; intros H; [apply Z.ltb_lt|apply Z.ltb_ge]; [|apply Z.lt_le_incl]; auto.
  - destruct (times_1_15 (- t) true ltac:(lia)) as (z & e & Hz & He & Hr & Hcmp).
    rewrite (dyadic_finite t) by lia.
    replace (t <? 0) with true by (symmetry; apply Z.ltb_lt; lia).
    rewrite Z.abs_neq by lia. rewrite Zdigits2_opp in Hr.
    rewrite Hr, finite_dyadic by assumption.
    cbn [cond_Zopp].
    rewrite gt_dyadic_scaled
      by (try assumption; rewrite Z.abs_opp, Z.abs_eq; lia).
    destruct (Hcmp (- u)) as [Hlt Hgt].
    rewrite Z.mul_opp_l in Hlt, Hgt.
    split; intros H; [apply Z.ltb_lt|apply Z.ltb_ge].
    + assert (- (u * 2 ^ (- e)) < z) by (apply Hgt; lia). lia.
    + assert (z < - (u * 2 ^ (- e))) by (apply Hlt; lia). lia.
Qed.

(** At the boundary the rounding of the product decides. *)
Example boundary_1_15 :
  (115 >? 100 * 1.15)%num = true /\ (23 >? 20 * 1.15)%num = false
  /\ Fmt.toString (100 * 1.15)%num = "114.99999999999999"%string.
Proof. vm_compute. repeat split. Qed.

(** The per-match ratio of a player whose matches divide the total. *)
Lemma consistency_integer r q :
  Store.valid r -> 0 < Store.matches r ->
  Store.score r + Store.assists r + Store.rebounds r = q * Store.matches r ->
  consistency (ofRow r) = dyadic q 0 /\ Z.abs q <= 2 ^ 40.
Proof.
  intros Hv Hm Hq. rewrite consistency_ofRow by assumption.
  pose proof (total_small r Hv) as Ht.
  destruct Hv as (Hm4 & _). apply int4_small, small_fits in Hm4.
  assert (Hqt : Z.abs q <= 2 ^ 40).
  { rewrite Hq, Z.abs_mul in Ht. rewrite (Z.abs_eq (Store.matches r)) in Ht by lia.
    nia. }
  assert (H53 : 2 ^ Num.prec = 2 ^ 40 * 8192) by reflexivity.
  split; [|exact Hqt].
  destruct (Z.ltb_spec 0 (Store.matches r)); [|lia].
  rewrite !ofZ_dyadic by (try assumption; lia).
  apply (div_dyadic _ _ q 0); lia.
Qed.

(** X17.  The consistency step on integer per-match ratios.  For two rows
    whose matches are positive and divide the totals, with ratios q1 and q2,
    the step names player 1 when 20 * q1 > 23 * q2 (q1 more than 1.15 times
    q2), else player 2 when 20 * q2 > 23 * q1, and says nothing when neither
    ratio reaches 1.15 times the other.  On the boundary the rounding of the
    product decides: 115 against 100 is reported as better consistency,
    because 100 * 1.15 is 114.99999999999999 in binary64, while 23 against
    20 is not. *)
Theorem consistency_threshold r1 r2 q1 q2 :
  Store.valid r1 -> Store.valid r2 ->
  0 < Store.matches r1 -> 0 < Store.matches r2 ->
  Store.score r1 + Store.assists r1 + Store.rebounds r1 = q1 * Store.matches r1 ->
  Store.score r2 + Store.assists r2 + Store.rebounds r2 = q2 * Store.matches r2 ->
  let p1 := ofRow r1 in
  let p2 := ofRow r2 in
  consistency p1 = Num.ofZ q1
  /\ consistency p2 = Num.ofZ q2
  /\ (23 * q2 < 20 * q1 ->
      consistencyStep p1 p2
      = [consistencySentence (name p1) (Num.ofZ q1) (Num.ofZ q2)])
  /\ (20 * q1 < 23 * q2 -> 23 * q1 < 20 * q2 ->
      consistencyStep p1 p2
      = [consistencySentence (name p2) (Num.ofZ q2) (Num.ofZ q1)])
  /\ (20 * q1 < 23 * q2 -> 20 * q2 < 23 * q1 -> consistencyStep p1 p2 = [])
  /\ (q1 = 115 -> q2 = 100 ->
      consistencyStep p1 p2
      = [(name p1 ++ " shows better consistency with 115.0 stats per match vs 100.0.")%string])
  /\ (q1 = 23 -> q2 = 20 -> consistencyStep p1 p2 = []).
Proof.
  intros Hv1 Hv2 Hm1 Hm2 Hq1 Hq2 p1 p2.
  destruct (consistency_integer r1 q1 Hv1 Hm1 Hq1) as [Hc1 Hb1].
  destruct (consistency_integer r2 q2 Hv2 Hm2 Hq2) as [Hc2 Hb2].
  assert (H53 : 2 ^ Num.prec = 2 ^ 40 * 8192) by reflexivity.
  assert (Ho1 : Num.ofZ q1 = dyadic q1 0) by (apply ofZ_dyadic; lia).
  assert (Ho2 : Num.ofZ q2 = dyadic q2 0) by (apply ofZ_dyadic; lia).
  fold p1 in Hc1. fold p2 in Hc2.
  destruct (gt_times_1_15 q2 q1 Hb2 ltac:(lia)) as [H12t H12f].
  destruct (gt_times_1_15 q1 q2 Hb1 ltac:(lia)) as [H21t H21f].
  unfold consistencyStep. rewrite Hc1, Hc2, Ho1, Ho2.
  split; [reflexivity|]. split; [reflexivity|].
  split; [|split; [|split; [|split]]].
  - intros H. now rewrite H12t.
  - intros H H'. now rewrite H12f, H21t.
  - intros H H'. now rewrite H12f, H21f.
  - intros -> ->. reflexivity.
  - intros -> ->. reflexivity.
Qed.

Lemma consistency_threshold_witness :
  Store.valid ann /\ Store.valid bob
  /\ consistencyStep (ofRow ann) (ofRow bob)
     = [consistencySentence "Ann" (Num.ofZ 12) (Num.ofZ 9)].
Proof.
  split; [exact ann_valid|]. split; [exact bob_valid|].
  apply (proj1 (proj2 (proj2
           (consistency_threshold ann bob 12 9 ann_valid bob_valid
              eq_refl eq_refl eq_refl eq_refl)))).
  reflexivity.
Defined.

(** X18.  The assists have no influence on the trend: two rows with the
    same score and the same rebounds have the same slope, the same trend
    summary and the same icon, and, under the same name, the same trend
    sentence, whatever their assists, matches and wins. *)
Theorem trend_ignores_assists r r' :
  Store.valid r -> Store.valid r' ->
  Store.score r = Store.score r' -> Store.rebounds r = Store.rebounds r' ->
  trend (ofRow r) = trend (ofRow r')
  /\ trendOf (trend (ofRow r)) = trendOf (trend (ofRow r'))
  /\ ComparePage.getTrendIcon (trend (ofRow r))
     = ComparePage.getTrendIcon (trend (ofRow r'))
  /\ (Store.name r = Store.name r' ->
      trendStep (ofRow r) = trendStep (ofRow r')).
Proof.
  intros Hv Hv' Hs Hr.
  assert (Ht : trend (ofRow r) = trend (ofRow r'))
    by (rewrite !trend_ofRow by assumption; now rewrite Hs, Hr).
  split; [exact Ht|]. split; [now rewrite Ht|]. split; [now rewrite Ht|].
  intros Hn. unfold trendStep. rewrite Ht.
  change (name (ofRow r)) with (Store.name r).
  change (name (ofRow r')) with (Store.name r'). now rewrite Hn.
Qed.

Lemma trend_ignores_assists_witness :
  let ann' :=
    {| Store.id := "a2"; Store.name := "Ann"; Store.sport := "basketball";
       Store.matches := 7; Store.score := 60; Store.assists := 5;
       Store.rebounds := 20; Store.wins := 1 |} in
  Store.valid ann /\ Store.valid ann'
  /\ trend (ofRow ann) = trend (ofRow ann')
  /\ trendStep (ofRow ann) = trendStep (ofRow ann').
Proof.
  intros ann'.
  assert (Hv : Store.valid ann') by (repeat split; vm_compute; congruence).
  destruct (trend_ignores_assists ann ann' ann_valid Hv eq_refl eq_refl)
    as (Ht & _ & _ & Hs).
  split; [exact ann_valid|]. split; [exact Hv|]. split; [exact Ht|].
  apply Hs. reflexivity.
Defined.

(** * The pages against the handler *)

(** X19.  Two players picked from the list the home page offers can always
    be compared.  When the players of the page were fetched from a keyed
    table, two offered players with different non-empty ids pass the check
    of [handleCompare], the handler answers the request for their ids with
    status 200 and the comparison of these two players, and with a sport
    selected both are players of that sport. *)
Theorem offered_players_compare table players selectedSport p1 p2 req :
  primaryKey table ->
  (forall p, In p players -> exists r, In r table /\ p = ofRow r) ->
  In p1 (IndexPage.filteredPlayers selectedSport players) ->
  In p2 (IndexPage.filteredPlayers selectedSport players) ->
  id p1 <> ""%string -> id p2 <> ""%string -> id p1 <> id p2 ->
  method req <> "OPTIONS"%string ->
  json req = Fields (Some (id p1)) (Some (id p2)) ->
  IndexPage.handleCompare (id p1) (id p2)
  = IndexPage.Navigate
      ("/compare?player1=" ++ id p1 ++ "&player2=" ++ id p2)
  /\ serve req (selectIn table)
     = {| status := 200;
          headers := jsonHeaders;
          body := Comparison
                    (publicStats p1, publicStats p2)
                    (trendOf (trend p1), trendOf (trend p2))
                    (generateInsights p1 p2) |}
  /\ (selectedSport <> ""%string ->
      sport p1 = selectedSport /\ sport p2 = selectedSport).
Proof.
  intros Hk Hfetched H1 H2 He1 He2 Hne Hm Hj.
  assert (Hin : forall p,
             In p (IndexPage.filteredPlayers selectedSport players) ->
             In p players
             /\ (selectedSport <> ""%string -> sport p = selectedSport)).
  { intros p. unfold IndexPage.filteredPlayers.
    destruct (String.eqb_spec selectedSport "") as [E|E]; cbn [negb].
    - intros H. split; [exact H|]. intros H'. contradiction.
    - intros H. apply filter_In in H. destruct H as [H Hs].
      apply String.eqb_eq in Hs. now split. }
  destruct (Hin p1 H1) as [Hp1 Hs1], (Hin p2 H2) as [Hp2 Hs2].
  destruct (Hfetched p1 Hp1) as (r1 & Hr1 & ->).
  destruct (Hfetched p2 Hp2) as (r2 & Hr2 & ->).
  rewrite !id_ofRow in *.
  split; [|split].
  - unfold IndexPage.handleCompare.
    destruct (String.eqb_spec (Store.id r1) ""); [contradiction|].
    destruct (String.eqb_spec (Store.id r2) ""); [contradiction|].
    destruct (String.eqb_spec (Store.id r1) (Store.id r2)); [contradiction|].
    reflexivity.
  - apply serve_returned; [assumption|]. now apply comparePlayers_found.
  - intros H. split; [now apply Hs1|now apply Hs2].
Qed.

Lemma offered_players_compare_witness :
  let req := {| method := "POST";
                json := Fields (Some "a"%string) (Some "b"%string) |} in
  let players := [ofRow bob; ofRow ann] in
  primaryKey demoTable
  /\ In (ofRow ann) (IndexPage.filteredPlayers "basketball" players)
  /\ In (ofRow bob) (IndexPage.filteredPlayers "basketball" players)
  /\ IndexPage.handleCompare "a" "b"
     = IndexPage.Navigate "/compare?player1=a&player2=b"
  /\ status (serve req (selectIn demoTable)) = 200.
Proof.
  intros req players.
  assert (Ha : In (ofRow ann) (IndexPage.filteredPlayers "basketball" players))
    by (right; left; reflexivity).
  assert (Hb : In (ofRow bob) (IndexPage.filteredPlayers "basketball" players))
    by (left; reflexivity).
  assert (Hfetched : forall p, In p players ->
             exists r, In r demoTable /\ p = ofRow r).
  { intros p [<-|[<-|[]]]; [exists bob|exists ann]; split;
      try reflexivity; cbn; tauto. }
  assert (H1 : id (ofRow ann) <> ""%string) by discriminate.
  assert (H2 : id (ofRow bob) <> ""%string) by discriminate.
  assert (H3 : id (ofRow ann) <> id (ofRow bob)) by discriminate.
  assert (Hm : method req <> "OPTIONS"%string) by discriminate.
  destruct (offered_players_compare demoTable players "basketball"
              (ofRow ann) (ofRow bob) req demoTable_primaryKey Hfetched Ha Hb
              H1 H2 H3 Hm eq_refl)
    as (Hnav & Hserve & _).
  split; [exact demoTable_primaryKey|]. split; [exact Ha|]. split; [exact Hb|].
  split; [exact Hnav|]. exact (f_equal status Hserve).
Defined.


